(** * TextAnalyzer: a shallow embedding of the analysis core

    The embedded functions come from [src/js/utils/textValidation.js]
    (validateText, sanitizeText, checkTextSafety, normalizeText,
    truncateText), [src/js/utils/textAnalysis.js] (calculateBasicMetrics,
    countSyllablesInWord, countSyllables, the readability formulas,
    determineGradeLevel, getReadabilityInterpretation, analyzeSentiment,
    analyzeWordFrequency), [src/js/app.js] (handleAnalyze, without what it
    does to the page) and the single-file [script.js] (validateInput,
    calculateBasicMetrics, and what updateSentimentAnalysis and
    updateWordFrequency compute).

    Modelling choices.
    - A JavaScript string is a [list ascii]: a sequence of code units, each
      below 256 (the Latin-1 range).  Code units above U+00FF are outside the
      model.  On this range [toLowerCase] maps code unit by code unit, and the
      regular-expression classes [\s] and [\w] are the ones given below.
      (On the whole of Unicode lower-casing keeps neither the length of a
      text nor the class of each character: U+0130 becomes two code units,
      U+212A becomes "k".  Where that matters the theorems are stated on the
      lower-cased text.)
    - A JavaScript number is an IEEE-754 binary64 value, Rocq's primitive
      [float]; lengths and counts, which are exact small integers, are [nat]
      and are converted where the source divides them.
    - Regular expressions are kept as syntax trees and run by a backtracking
      matcher that lists the possible ends of a match in priority order, the
      way the ECMAScript matcher explores them.
    - The [lastIndex] slot of the three module-level regular expressions that
      carry the [g] flag is program state; [checkTextSafety] reads and writes
      it, so it is modelled as a state transformer. *)

From Stdlib Require Import List Ascii String Bool Arith Lia ZArith Floats.
From Stdlib Require Import DecimalString Sorting.Sorted Sorting.Permutation.
Import ListNotations.

Set Warnings "-inexact-float,-abstract-large-number".
Local Open Scope list_scope.
Local Open Scope bool_scope.
Local Open Scope nat_scope.

(* [String] has its own [length]; this file measures lists. *)
Local Abbreviation length := Datatypes.length (only parsing).

(* ================================================================== *)
(** * Strings and characters *)
(* ================================================================== *)

Definition jsstring := list ascii.

(** A string literal of the source. *)
Definition str (s : string) : jsstring := list_ascii_of_string s.

Definition code (c : ascii) : nat := nat_of_ascii c.

Definition inRange (lo hi : nat) (c : ascii) : bool :=
  (lo <=? code c) && (code c <=? hi).

(** [\s]: TAB, LF, VT, FF, CR, SPACE and NO-BREAK SPACE are the white space
    and line terminator code units below 256. *)
Definition isSpace (c : ascii) : bool :=
  inRange 9 13 c || (code c =? 32) || (code c =? 160).

(** [[^\s]] *)
Definition notSpace (c : ascii) : bool := negb (isSpace c).

(** [\w]: [A-Za-z0-9_]. *)
Definition isWord (c : ascii) : bool :=
  inRange 97 122 c || inRange 65 90 c || inRange 48 57 c || (code c =? 95).

(** [[a-z]] *)
Definition isLowerAlpha (c : ascii) : bool := inRange 97 122 c.

(** Membership in a bracket class written as a literal list of characters. *)
Definition oneOf (cs : string) (c : ascii) : bool :=
  existsb (Ascii.eqb c) (str cs).

Definition noneOf (cs : string) (c : ascii) : bool := negb (oneOf cs c).

(** [String.prototype.toLowerCase] on one Latin-1 code unit: A-Z and the
    upper-case letters U+00C0..U+00DE (U+00D7, the multiplication sign,
    is not a letter) move up by 32. *)
Definition toLowerChar (c : ascii) : ascii :=
  if inRange 65 90 c || (inRange 192 222 c && negb (code c =? 215))
  then ascii_of_nat (code c + 32)
  else c.

Definition toLowerCase (s : jsstring) : jsstring := map toLowerChar s.

Fixpoint dropWhile (p : ascii -> bool) (s : jsstring) : jsstring :=
  match s with
  | [] => []
  | c :: s' => if p c then dropWhile p s' else s
  end.

(** What is left of [s] once the characters of class [p] at its end are
    dropped. *)
Fixpoint dropEnd (p : ascii -> bool) (s : jsstring) : jsstring :=
  match s with
  | [] => []
  | c :: s' =>
      match dropEnd p s' with
      | [] => if p c then [] else [c]
      | kept => c :: kept
      end
  end.

(** [String.prototype.trim]: white space is dropped at both ends. *)
Definition trim (s : jsstring) : jsstring :=
  dropEnd isSpace (dropWhile isSpace s).

(** Number-to-string conversion of a non-negative integer, as a template
    literal does it. *)
Definition natToString (n : nat) : jsstring :=
  str (NilEmpty.string_of_uint (Nat.to_uint n)).

(** [String.prototype.startsWith] and [String.prototype.includes] *)
Fixpoint startsWith (pat s : jsstring) : bool :=
  match pat, s with
  | [], _ => true
  | p :: pat', c :: s' => Ascii.eqb p c && startsWith pat' s'
  | _ :: _, [] => false
  end.

Fixpoint includes (s pat : jsstring) : bool :=
  startsWith pat s ||
  match s with
  | [] => false
  | _ :: s' => includes s' pat
  end.

(* ================================================================== *)
(** * Regular expressions *)
(* ================================================================== *)

(** The fragment of the ECMAScript pattern language that the sources use.
    Repetition is only ever applied to a character class there. *)
Inductive regex : Type :=
| Empty                          (* the empty pattern *)
| Class (p : ascii -> bool)      (* one character of a class *)
| Seq (r1 r2 : regex)            (* r1 r2 *)
| Alt (r1 r2 : regex)            (* r1|r2 *)
| Star (p : ascii -> bool)       (* [p]*, greedy *)
| Bol                            (* ^ without the m flag *)
| Eol                            (* $ without the m flag *)
| WordB.                         (* \b *)

Definition Chr (c : ascii) : regex := Class (Ascii.eqb c).
Definition Plus (p : ascii -> bool) : regex := Seq (Class p) (Star p).
Definition Opt (r : regex) : regex := Alt r Empty.

Fixpoint Lit (s : jsstring) : regex :=
  match s with
  | [] => Empty
  | c :: s' => Seq (Chr c) (Lit s')
  end.

(** A position in the input: the character before it (none at the start)
    and what is left to read. *)
Definition pos : Type := option ascii * jsstring.

Definition wordBefore (x : pos) : bool :=
  match fst x with Some c => isWord c | None => false end.

Definition wordAfter (x : pos) : bool :=
  match snd x with c :: _ => isWord c | [] => false end.

(** The ends of [p*] from a position, the longest first. *)
Fixpoint starEnds (p : ascii -> bool) (prev : option ascii) (s : jsstring)
  : list pos :=
  match s with
  | c :: s' =>
      if p c then starEnds p (Some c) s' ++ [(prev, s)] else [(prev, s)]
  | [] => [(prev, [])]
  end.

(** All the positions at which a match of [r] begun at [x] can end, in the
    order in which the backtracking matcher tries them. *)
Fixpoint ends (r : regex) (x : pos) : list pos :=
  match r with
  | Empty => [x]
  | Class p =>
      match snd x with
      | c :: s' => if p c then [(Some c, s')] else []
      | [] => []
      end
  | Seq r1 r2 => flat_map (ends r2) (ends r1 x)
  | Alt r1 r2 => ends r1 x ++ ends r2 x
  | Star p => starEnds p (fst x) (snd x)
  | Bol => match fst x with None => [x] | Some _ => [] end
  | Eol => match snd x with [] => [x] | _ :: _ => [] end
  | WordB => if xorb (wordBefore x) (wordAfter x) then [x] else []
  end.

(** The match that starts exactly here, as the number of characters it
    takes. *)
Definition matchAt (r : regex) (prev : option ascii) (s : jsstring)
  : option nat :=
  match ends r (prev, s) with
  | (_, rest) :: _ => Some (length s - length rest)
  | [] => None
  end.

(** [RegExpBuiltinExec] without the sticky flag: the leftmost start at or
    after the current one, as (characters skipped, length of the match). *)
Fixpoint findFrom (r : regex) (prev : option ascii) (s : jsstring)
  : option (nat * nat) :=
  match matchAt r prev s with
  | Some n => Some (0, n)
  | None =>
      match s with
      | c :: s' =>
          match findFrom r (Some c) s' with
          | Some (i, n) => Some (S i, n)
          | None => None
          end
      | [] => None
      end
  end.

Definition prevAt (i : nat) (s : jsstring) : option ascii :=
  match i with
  | 0 => None
  | S j => nth_error s j
  end.

(** [RegExp.prototype.test] on a regular expression with the [g] flag:
    the search starts at [lastIndex]; a hit leaves [lastIndex] at the end
    of the match, a miss resets it to 0. *)
Definition regexTest (r : regex) (lastIndex : nat) (s : jsstring)
  : bool * nat :=
  if length s <? lastIndex then (false, 0)
  else
    match findFrom r (prevAt lastIndex s) (skipn lastIndex s) with
    | Some (i, n) => (true, lastIndex + i + n)
    | None => (false, 0)
    end.

(** [String.prototype.replace] with a [g] regular expression and a
    replacement without [$] patterns.  [skip] counts the characters of the
    current match that are still to be passed over.  After an empty match
    the search resumes one character further. *)
Fixpoint replaceGo (r : regex) (rep : jsstring) (prev : option ascii)
  (skip : nat) (s : jsstring) : jsstring :=
  match skip with
  | S k =>
      match s with
      | c :: s' => replaceGo r rep (Some c) k s'
      | [] => []
      end
  | 0 =>
      match matchAt r prev s with
      | Some (S n) =>
          rep ++ match s with
                 | c :: s' => replaceGo r rep (Some c) n s'
                 | [] => []
                 end
      | Some 0 =>
          rep ++ match s with
                 | c :: s' => c :: replaceGo r rep (Some c) 0 s'
                 | [] => []
                 end
      | None =>
          match s with
          | c :: s' => c :: replaceGo r rep (Some c) 0 s'
          | [] => []
          end
      end
  end.

Definition replaceAll (r : regex) (rep : jsstring) (s : jsstring) : jsstring :=
  replaceGo r rep None 0 s.

(** [String.prototype.replace] with a regular expression without the [g]
    flag: only the leftmost match is replaced. *)
Fixpoint replaceFirstGo (r : regex) (rep : jsstring) (prev : option ascii)
  (s : jsstring) : jsstring :=
  match matchAt r prev s with
  | Some n => rep ++ skipn n s
  | None =>
      match s with
      | c :: s' => c :: replaceFirstGo r rep (Some c) s'
      | [] => []
      end
  end.

Definition replaceFirst (r : regex) (rep : jsstring) (s : jsstring) : jsstring :=
  replaceFirstGo r rep None s.

(** The matched substrings of [String.prototype.match] with a [g] regular
    expression, in order. *)
Fixpoint matchGo (r : regex) (prev : option ascii) (skip : nat)
  (s : jsstring) : list jsstring :=
  match skip with
  | S k =>
      match s with
      | c :: s' => matchGo r (Some c) k s'
      | [] => []
      end
  | 0 =>
      match matchAt r prev s with
      | Some (S n) =>
          firstn (S n) s :: match s with
                            | c :: s' => matchGo r (Some c) n s'
                            | [] => []
                            end
      | Some 0 =>
          [] :: match s with
                | c :: s' => matchGo r (Some c) 0 s'
                | [] => []
                end
      | None =>
          match s with
          | c :: s' => matchGo r (Some c) 0 s'
          | [] => []
          end
      end
  end.

(** [String.prototype.match]: [null] when there is no match. *)
Definition jsMatch (r : regex) (s : jsstring) : option (list jsstring) :=
  match matchGo r None 0 s with
  | [] => None
  | ms => Some ms
  end.

(** The idiom [s.match(re) || []]. *)
Definition matchOrEmpty (r : regex) (s : jsstring) : list jsstring :=
  match jsMatch r s with
  | Some ms => ms
  | None => []
  end.

(** [String.prototype.split] with a regular expression without capture
    groups and no limit.  [cur] is the piece collected since the last
    separator.  A separator is looked for at every position before the end
    of the string; an empty match right after a separator is passed over. *)
Fixpoint splitGo (r : regex) (prev : option ascii) (skip : nat)
  (cur : jsstring) (s : jsstring) : list jsstring :=
  match s with
  | [] => [cur]
  | c :: s' =>
      match skip with
      | S k => splitGo r (Some c) k [] s'
      | 0 =>
          match matchAt r prev s with
          | Some (S n) => cur :: splitGo r (Some c) n [] s'
          | Some 0 =>
              match cur with
              | [] => splitGo r (Some c) 0 [c] s'
              | _ :: _ => cur :: splitGo r (Some c) 0 [c] s'
              end
          | None => splitGo r (Some c) 0 (cur ++ [c]) s'
          end
      end
  end.

Definition split (r : regex) (s : jsstring) : list jsstring :=
  match s with
  | [] => match matchAt r None [] with Some _ => [] | None => [[]] end
  | _ :: _ => splitGo r None 0 [] s
  end.

(** [.filter(Boolean)] on an array of strings keeps the non-empty ones. *)
Definition filterBoolean (l : list jsstring) : list jsstring :=
  filter (fun s => match s with [] => false | _ :: _ => true end) l.

(* ================================================================== *)
(** * utils/textValidation.js *)
(* ================================================================== *)

Definition MAX_TEXT_LENGTH : nat := 100000.
Definition MIN_TEXT_LENGTH : nat := 10.

(** [/(https?:\/\/[^\s]+)/g] *)
Definition URL_REGEX : regex :=
  Seq (Lit (str "http"))
    (Seq (Opt (Chr "s"))
       (Seq (Lit (str "://")) (Plus notSpace))).

(** [/<[^>]*>/g] *)
Definition HTML_TAG_REGEX : regex :=
  Seq (Chr "<") (Seq (Star (noneOf ">")) (Chr ">")).

(** [/[^\w\s.,!?-]/g] *)
Definition SPECIAL_CHARS_REGEX : regex :=
  Class (fun c => negb (isWord c || isSpace c || oneOf ".,!?-" c)).

(** [/\s+/g] *)
Definition WHITESPACE_RUN : regex := Plus isSpace.

(** [/[.,!?]+/g] *)
Definition PUNCTUATION_RUN : regex := Plus (oneOf ".,!?").

Module ValidationResult.
Record t : Type := mk { isValid : bool; message : jsstring }.
End ValidationResult.

Module SafetyResult.
Record t : Type := mk { isSafe : bool; message : jsstring }.
End SafetyResult.

Definition emptyMessage : jsstring :=
  str "Please enter some text to analyze.".

Definition tooShortMessage : jsstring :=
  str "Text is too short. Minimum length is "
  ++ natToString MIN_TEXT_LENGTH ++ str " characters.".

Definition tooLongMessage : jsstring :=
  str "Text is too long. Maximum length is "
  ++ natToString MAX_TEXT_LENGTH ++ str " characters.".

(** [validateText]: [!text] holds of the empty string only. *)
Definition validateText (text : jsstring) : ValidationResult.t :=
  match text with
  | [] => ValidationResult.mk false emptyMessage
  | _ :: _ =>
      if length text <? MIN_TEXT_LENGTH then
        ValidationResult.mk false tooShortMessage
      else if MAX_TEXT_LENGTH <? length text then
        ValidationResult.mk false tooLongMessage
      else ValidationResult.mk true []
  end.

(** [sanitizeText].  [replace] with a [g] regular expression starts its
    search at index 0 and leaves [lastIndex] at 0, so the result does not
    depend on the [lastIndex] slots. *)
Definition sanitizeText (text : jsstring) : jsstring :=
  match text with
  | [] => []
  | _ :: _ =>
      trim
        (replaceAll WHITESPACE_RUN (str " ")
           (replaceAll URL_REGEX []
              (replaceAll HTML_TAG_REGEX [] text)))
  end.

(** The [lastIndex] slots of the module-level regular expressions. *)
Record RegexState : Type := mkRegexState {
  urlLastIndex : nat;
  htmlLastIndex : nat;
  specialLastIndex : nat
}.

(** The state in which the module is loaded. *)
Definition initialState : RegexState := mkRegexState 0 0 0.

Definition unsafeMessage : jsstring :=
  str "Text contains potentially unsafe content (URLs or HTML tags).".

Definition specialCharsMessage : jsstring :=
  str "Text contains special characters that may affect analysis accuracy.".

(** [checkTextSafety]: the three [test] calls run in this order, each on
    its own regular expression object. *)
Definition checkTextSafety (st : RegexState) (text : jsstring)
  : SafetyResult.t * RegexState :=
  let '(containsUrls, u) := regexTest URL_REGEX (urlLastIndex st) text in
  let '(containsHtml, h) := regexTest HTML_TAG_REGEX (htmlLastIndex st) text in
  let '(containsSpecialChars, p) :=
    regexTest SPECIAL_CHARS_REGEX (specialLastIndex st) text in
  let st' := mkRegexState u h p in
  if containsUrls || containsHtml then
    (SafetyResult.mk false unsafeMessage, st')
  else if containsSpecialChars then
    (SafetyResult.mk true specialCharsMessage, st')
  else (SafetyResult.mk true [], st').

(** [normalizeText] *)
Definition normalizeText (text : jsstring) : jsstring :=
  trim
    (replaceAll PUNCTUATION_RUN (str ".")
       (replaceAll WHITESPACE_RUN (str " ") (toLowerCase text))).

(* ================================================================== *)
(** * Numbers *)
(* ================================================================== *)

(** A value that is a number or a string; the numbers that occur in such
    places in the sources are non-negative integers. *)
Inductive value : Type :=
| VNum (n : nat)
| VStr (s : jsstring).

(** The number (a binary64 value) that a length or a count is. *)
Definition ofNat (n : nat) : float :=
  PrimFloat.of_uint63 (Uint63.of_Z (Z.of_nat n)).

Definition digitsOfZ (n : Z) : jsstring :=
  str (NilEmpty.string_of_uint (N.to_uint (Z.to_N n))).

(** The integer [n] for which [n / 100 - m * 2^e] is closest to zero, the
    larger one when two are equally close. *)
Definition nearestHundredth (m : positive) (e : Z) : Z :=
  if (0 <=? e)%Z then (100 * Z.pos m * 2 ^ e)%Z
  else
    let den := (2 ^ (- e))%Z in
    ((2 * (100 * Z.pos m) + den) / (2 * den))%Z.

(** The digits of [n] with a point before the last two, padded with zeros
    on the left to at least three digits. *)
Definition pointBeforeLastTwo (n : Z) : jsstring :=
  let ds := digitsOfZ n in
  let ds := repeat "0"%char (3 - length ds) ++ ds in
  firstn (length ds - 2) ds ++ str "." ++ skipn (length ds - 2) ds.

(** [Number.prototype.toFixed(2)].  For a number of magnitude 1e21 or more
    the source language switches to the exponential rendering, which is not
    reproduced here: the only caller passes a quotient of two lengths. *)
Definition toFixed2 (x : float) : jsstring :=
  match Prim2SF x with
  | S754_nan => str "NaN"
  | S754_infinity true => str "-Infinity"
  | S754_infinity false => str "Infinity"
  | S754_zero _ => str "0.00"
  | S754_finite sign m e =>
      (if sign then str "-" else []) ++ pointBeforeLastTwo (nearestHundredth m e)
  end.

(* ================================================================== *)
(** * utils/textAnalysis.js *)
(* ================================================================== *)

(** [/\b\w+\b/g] *)
Definition WORD_REGEX : regex := Seq WordB (Seq (Plus isWord) WordB).

(** [/[.!?]+\s*/] *)
Definition SENTENCE_END : regex := Seq (Plus (oneOf ".!?")) (Star isSpace).

(** [/\n\s*\n/] *)
Definition BLANK_LINE : regex :=
  Seq (Chr "010") (Seq (Star isSpace) (Chr "010")).

(** [/\s/g] *)
Definition ONE_SPACE : regex := Class isSpace.

Record BasicMetrics : Type := mkBasicMetrics {
  charCount : nat;
  charNoSpacesCount : nat;
  wordCount : nat;
  sentenceCount : nat;
  paragraphCount : nat;
  avgWordLength : value
}.

(** [calculateBasicMetrics] *)
Definition calculateBasicMetrics (text : jsstring) : BasicMetrics :=
  let normalizedText := normalizeText text in
  let words := matchOrEmpty WORD_REGEX normalizedText in
  let sentences := filterBoolean (split SENTENCE_END text) in
  let paragraphs := filterBoolean (split BLANK_LINE text) in
  {| charCount := length text;
     charNoSpacesCount := length (replaceAll ONE_SPACE [] text);
     wordCount := length words;
     sentenceCount := length sentences;
     paragraphCount := length paragraphs;
     avgWordLength :=
       if 0 <? length words then
         VStr (toFixed2
                 (ofNat (length (replaceAll ONE_SPACE [] text))
                  / ofNat (length words))%float)
       else VNum 0 |}.

(** [/(?:[^laeiouy]es|ed|[^laeiouy]e)$/] *)
Definition SILENT_ENDING : regex :=
  Seq (Alt (Seq (Class (noneOf "laeiouy")) (Lit (str "es")))
         (Alt (Lit (str "ed"))
            (Seq (Class (noneOf "laeiouy")) (Chr "e"))))
      Eol.

(** [/^y/] *)
Definition LEADING_Y : regex := Seq Bol (Chr "y").

(** [/[aeiouy]{1,2}/g]: one vowel, and a second one when there is one. *)
Definition VOWEL_GROUP : regex :=
  Seq (Class (oneOf "aeiouy")) (Opt (Class (oneOf "aeiouy"))).

(** [countSyllablesInWord] *)
Definition countSyllablesInWord (word : jsstring) : nat :=
  let word := toLowerCase word in
  if length word <=? 3 then 1
  else
    let word := replaceFirst SILENT_ENDING [] word in
    let word := replaceFirst LEADING_Y [] word in
    match jsMatch VOWEL_GROUP word with
    | Some syllables => length syllables
    | None => 1
    end.

(** [/\b[a-z]+\b/g] *)
Definition ALPHA_WORD_REGEX : regex := Seq WordB (Seq (Plus isLowerAlpha) WordB).

(** [countSyllables] *)
Definition countSyllables (text : jsstring) : nat :=
  let words := matchOrEmpty ALPHA_WORD_REGEX (toLowerCase text) in
  fold_left (fun count word => count + countSyllablesInWord word) words 0.

(** In the three formulas [===] on numbers is the IEEE comparison, under
    which both zeros equal 0 and NaN equals nothing. *)

(** [calculateFleschReadingEase] *)
Definition calculateFleschReadingEase
  (wordCount sentenceCount syllableCount : float) : float :=
  if (wordCount =? 0)%float || (sentenceCount =? 0)%float then 0%float
  else (206.835 - 1.015 * (wordCount / sentenceCount)
        - 84.6 * (syllableCount / wordCount))%float.

(** [calculateFleschKincaidGrade] *)
Definition calculateFleschKincaidGrade
  (wordCount sentenceCount syllableCount : float) : float :=
  if (wordCount =? 0)%float || (sentenceCount =? 0)%float then 0%float
  else (0.39 * (wordCount / sentenceCount)
        + 11.8 * (syllableCount / wordCount) - 15.59)%float.

(** [calculateColemanLiauIndex] *)
Definition calculateColemanLiauIndex
  (charCount wordCount sentenceCount : float) : float :=
  if (wordCount =? 0)%float || (sentenceCount =? 0)%float then 0%float
  else
    let L := ((charCount / wordCount) * 100)%float in
    let S := ((sentenceCount / wordCount) * 100)%float in
    (0.0588 * L - 0.296 * S - 15.8)%float.

(* ------------------------------------------------------------------ *)
(** ** The object literal [{}] used as a word-to-count table *)
(* ------------------------------------------------------------------ *)

(** The own properties of an ordinary object, in the order in which they
    were created. *)
Definition jsobject : Type := list (jsstring * value).

Definition keyEqb (a b : jsstring) : bool :=
  if list_eq_dec ascii_dec a b then true else false.

Definition isDigit (c : ascii) : bool := inRange 48 57 c.

Definition digitValue (c : ascii) : N := N.of_nat (code c - 48).

(** The number an array index key denotes: a key is an array index when it
    is the canonical decimal form (no leading zero) of an integer below
    2^32 - 1. *)
Definition arrayIndex (k : jsstring) : option N :=
  match k with
  | [] => None
  | c :: k' =>
      if forallb isDigit k
         && (negb (Ascii.eqb c "0") || match k' with [] => true | _ => false end)
         && (length k <=? 10)
      then
        let n := fold_left (fun acc d => (10 * acc + digitValue d)%N) k 0%N in
        if (n <? 4294967295)%N then Some n else None
      else None
  end.

Definition isArrayIndex (k : jsstring) : bool :=
  match arrayIndex k with Some _ => true | None => false end.

Definition indexOf (k : jsstring) : N :=
  match arrayIndex k with Some n => n | None => 0%N end.

Fixpoint insertByIndex (e : jsstring * value) (l : list (jsstring * value))
  : list (jsstring * value) :=
  match l with
  | [] => [e]
  | f :: l' =>
      if (indexOf (fst e) <=? indexOf (fst f))%N then e :: l
      else f :: insertByIndex e l'
  end.

(** [Object.entries]: the own properties whose key is an array index come
    first, in ascending numeric order; the others follow in creation
    order. *)
Definition entries (o : jsobject) : list (jsstring * value) :=
  fold_right insertByIndex [] (filter (fun e => isArrayIndex (fst e)) o)
  ++ filter (fun e => negb (isArrayIndex (fst e))) o.

Fixpoint getOwn (o : jsobject) (k : jsstring) : option value :=
  match o with
  | [] => None
  | (k', v) :: o' => if keyEqb k k' then Some v else getOwn o' k
  end.

(** The methods that [{}] inherits from [Object.prototype]. *)
Definition inheritedMethods : list jsstring :=
  map str ["constructor"; "hasOwnProperty"; "isPrototypeOf";
           "propertyIsEnumerable"; "toLocaleString"; "toString"; "valueOf";
           "__defineGetter__"; "__defineSetter__"; "__lookupGetter__";
           "__lookupSetter__"]%string.

(** What a key that the object does not own yields through the prototype
    chain, as the string that [+] turns it into: a built-in function
    (the constructor is named [Object], a method has its own name), or
    [Object.prototype] itself for [__proto__].  [None] is [undefined]. *)
Definition inheritedAsString (k : jsstring) : option jsstring :=
  if keyEqb k (str "__proto__") then Some (str "[object Object]")
  else if keyEqb k (str "constructor") then
    Some (str "function Object() { [native code] }")
  else if existsb (keyEqb k) inheritedMethods then
    Some (str "function " ++ k ++ str "() { [native code] }")
  else None.

(** [(wordFreq[word] || 0) + 1].  An own count [n] becomes [n + 1]; a string
    (always non-empty here, hence truthy) gets ["1"] appended; an inherited
    object is truthy and [+] concatenates its string form with ["1"];
    [undefined] gives [0 + 1]. *)
Definition incremented (o : jsobject) (k : jsstring) : value :=
  match getOwn o k with
  | Some (VNum 0) => VNum 1
  | Some (VNum n) => VNum (n + 1)
  | Some (VStr []) => VNum 1
  | Some (VStr s) => VStr (s ++ str "1")
  | None =>
      match inheritedAsString k with
      | Some s => VStr (s ++ str "1")
      | None => VNum 1
      end
  end.

Fixpoint updateOwn (o : jsobject) (k : jsstring) (v : value) : jsobject :=
  match o with
  | [] => []
  | (k', v') :: o' =>
      if keyEqb k k' then (k', v) :: o' else (k', v') :: updateOwn o' k v
  end.

(** [wordFreq[word] = v] for a number or a string [v]: an own property is
    overwritten in place, a new one is created last; the inherited
    [__proto__] setter ignores a value that is not an object. *)
Definition setProperty (o : jsobject) (k : jsstring) (v : value) : jsobject :=
  match getOwn o k with
  | Some _ => updateOwn o k v
  | None => if keyEqb k (str "__proto__") then o else o ++ [(k, v)]
  end.

(** [b - a] on two counts, NaN (which [sort] reads as 0) when one of them is
    a string: the strings stored above begin with the text of an inherited
    object and do not denote numbers. *)
Definition compareCounts (a b : value) : Z :=
  match a, b with
  | VNum x, VNum y => (Z.of_nat y - Z.of_nat x)%Z
  | _, _ => 0%Z
  end.

Fixpoint insertSorted (e : jsstring * value) (l : list (jsstring * value))
  : list (jsstring * value) :=
  match l with
  | [] => [e]
  | f :: l' =>
      if (compareCounts (snd e) (snd f) <=? 0)%Z then e :: l
      else f :: insertSorted e l'
  end.

(** [Array.prototype.sort] with the comparator [([,a], [,b]) => b - a]: the
    sort is stable.  (With a comparator that is not consistent, which takes
    a string among the counts, the language leaves the order to the
    implementation; the stable insertion order is then one admissible
    outcome, and engines differ.  Nothing below is stated about the order
    of a result that has a string among its counts.) *)
Definition sortByCount (l : list (jsstring * value)) : list (jsstring * value) :=
  fold_right insertSorted [] l.

(** The body of the [forEach] callback, for an integer [minLength]. *)
Definition countWord (minLength : Z) (wordFreq : jsobject) (word : jsstring)
  : jsobject :=
  if (minLength <? Z.of_nat (length word))%Z then
    setProperty wordFreq word (incremented wordFreq word)
  else wordFreq.

(** [Array.prototype.slice(0, e)] for an integer [e]: a negative [e] counts
    from the end of the array. *)
Definition arraySlice {A : Type} (l : list A) (e : Z) : list A :=
  let len := Z.of_nat (length l) in
  let final := if (e <? 0)%Z then Z.max (len + e) 0 else Z.min e len in
  firstn (Z.to_nat final) l.

(** [analyzeWordFrequency(text, minLength = 2, maxWords = 10)]; the two
    bounds are integers, of either sign. *)
Definition analyzeWordFrequency (text : jsstring) (minLength maxWords : Z)
  : list (jsstring * value) :=
  let words := matchOrEmpty WORD_REGEX (normalizeText text) in
  let wordFreq := fold_left (countWord minLength) words [] in
  arraySlice (sortByCount (entries wordFreq)) maxWords.

(* ================================================================== *)
(** * Statements of the specification *)
(* ================================================================== *)

(** A message states a limit when it contains the limit's decimal form. *)
Definition statesLimit (n : nat) (msg : jsstring) : bool :=
  includes msg (natToString n).

(** The validator as the specification words it: everything below the
    minimum, the empty string included, is reported as too short with the
    minimum stated. *)
Definition ValidatesAsSpecified (t : jsstring) (r : ValidationResult.t)
  : Prop :=
  (length t < MIN_TEXT_LENGTH ->
     ValidationResult.isValid r = false
     /\ includes (ValidationResult.message r) (str "too short") = true
     /\ statesLimit MIN_TEXT_LENGTH (ValidationResult.message r) = true)
  /\ (MAX_TEXT_LENGTH < length t ->
        ValidationResult.isValid r = false
        /\ includes (ValidationResult.message r) (str "too long") = true
        /\ statesLimit MAX_TEXT_LENGTH (ValidationResult.message r) = true)
  /\ (MIN_TEXT_LENGTH <= length t <= MAX_TEXT_LENGTH ->
        r = ValidationResult.mk true []).

(** The ending rule of the syllable estimator in the specification's words,
    for a given notion of consonant: a consonant followed by "es", or "ed",
    or a consonant followed by a final "e", is removed from the end. *)
Definition stripEnding (consonant : ascii -> bool) (w : jsstring) : jsstring :=
  match rev w with
  | z :: y :: r =>
      if Ascii.eqb "s" z && Ascii.eqb "e" y
         && match r with x :: _ => consonant x | [] => false end
      then rev (tl r)
      else if Ascii.eqb "d" z && Ascii.eqb "e" y then rev r
      else if Ascii.eqb "e" z && consonant y then rev r
      else w
  | _ => w
  end.

(** What [countSyllablesInWord] does after the ending rule: the leading "y"
    goes, the vowel groups are counted, and no group counts as one. *)
Definition countVowelGroups (w : jsstring) : nat :=
  match jsMatch VOWEL_GROUP (replaceFirst LEADING_Y [] w) with
  | Some syllables => length syllables
  | None => 1
  end.

(** The estimator with the ending rule of the specification, for a word
    longer than three letters. *)
Definition syllablesByEndingRule (consonant : ascii -> bool) (w : jsstring)
  : nat :=
  countVowelGroups (stripEnding consonant w).

Definition isLowerWord (w : jsstring) : bool := forallb isLowerAlpha w.

(** The position at which a word is first met in the token stream. *)
Fixpoint firstIndex (w : jsstring) (tokens : list jsstring) : nat :=
  match tokens with
  | [] => 0
  | t :: tokens' => if keyEqb w t then 0 else S (firstIndex w tokens')
  end.

(** Every entry of a sequence stands in relation [R] to every later one. *)
Definition AllPairs {A : Type} (R : A -> A -> Prop) (l : list A) : Prop :=
  forall i j e f,
    i < j -> nth_error l i = Some e -> nth_error l j = Some f -> R e f.

(** Entries with equal counts stand in the order in which their words were
    first met. *)
Definition TiesInEncounterOrder (tokens : list jsstring)
  (l : list (jsstring * value)) : Prop :=
  AllPairs
    (fun e f =>
       snd e = snd f ->
       firstIndex (fst e) tokens < firstIndex (fst f) tokens)
    l.

(** The order in which [Object.entries] lists two words of the table:
    array indices first, by their numeric value; then the other words, by
    first encounter. *)
Definition listedBefore (tokens : list jsstring) (a b : jsstring) : Prop :=
  match arrayIndex a, arrayIndex b with
  | Some m, Some n => (m <= n)%N
  | Some _, None => True
  | None, Some _ => False
  | None, None => firstIndex a tokens < firstIndex b tokens
  end.

(** An entry and a later one: both counts are numbers, the later one is
    not the greater, and with equal counts the words stand as
    [Object.entries] lists them. *)
Definition EntryOrder (tokens : list jsstring) (e f : jsstring * value)
  : Prop :=
  exists x y,
    snd e = VNum x /\ snd f = VNum y /\ y <= x
    /\ (x = y -> listedBefore tokens (fst e) (fst f)).

(** A word that names nothing inherited from [Object.prototype]. *)
Definition notInherited (w : jsstring) : bool :=
  match inheritedAsString w with
  | None => true
  | Some _ => false
  end.

(* ================================================================== *)
(** * Auxiliary notions for the proofs *)
(* ================================================================== *)

(** The length of the match of the ending pattern that starts exactly at
    [s], for a given class in the place of [[^laeiouy]]: the pattern is
    anchored at the end, so [s] is then the whole match. *)
Definition endingAt (consonant : ascii -> bool) (s : jsstring) : option nat :=
  match s with
  | [c1; c2; c3] =>
      if consonant c1 && Ascii.eqb "e" c2 && Ascii.eqb "s" c3 then Some 3
      else None
  | [c1; c2] =>
      if (Ascii.eqb "e" c1 && Ascii.eqb "d" c2)
         || (consonant c1 && Ascii.eqb "e" c2)
      then Some 2
      else None
  | _ => None
  end.

(** Every key of a table has a given property. *)
Definition keysSatisfy (P : jsstring -> Prop) (o : list (jsstring * value))
  : Prop :=
  forall e, In e o -> P (fst e).

(** The number of characters of class [p] at the start of [s]. *)
Fixpoint runLength (p : ascii -> bool) (s : jsstring) : nat :=
  match s with
  | c :: s' => if p c then S (runLength p s') else 0
  | [] => 0
  end.

(** The length of the match of [[p]+] that starts exactly at [s]. *)
Definition plusAt (p : ascii -> bool) (s : jsstring) : option nat :=
  match s with
  | c :: s' => if p c then Some (S (runLength p s')) else None
  | [] => None
  end.

Definition startsIn (p : ascii -> bool) (s : jsstring) : bool :=
  match s with
  | c :: _ => p c
  | [] => false
  end.

(** Every character of class [p] in [s] is [d] and stands alone: the next
    character, if any, is not of class [p]. *)
Fixpoint normalRuns (p : ascii -> bool) (d : ascii) (s : jsstring) : bool :=
  match s with
  | [] => true
  | c :: s' =>
      (if p c then Ascii.eqb d c && negb (startsIn p s') else true)
      && normalRuns p d s'
  end.

(** What is left of the input after the first of the possible ends. *)
Definition firstRest (l : list pos) : option jsstring :=
  match l with
  | (_, rest) :: _ => Some rest
  | [] => None
  end.

(** The length of a match, from what is left after it. *)
Definition lengthFromRest (mr : jsstring -> option jsstring) (s : jsstring)
  : option nat :=
  option_map (fun rest => length s - length rest) (mr s).

(** What follows the first ">". *)
Fixpoint afterGt (s : jsstring) : option jsstring :=
  match s with
  | [] => None
  | c :: s' => if Ascii.eqb ">" c then Some s' else afterGt s'
  end.

(** What is left after the tag that starts exactly at [s]. *)
Definition tagRest (s : jsstring) : option jsstring :=
  match s with
  | c :: s' => if Ascii.eqb "<" c then afterGt s' else None
  | [] => None
  end.

Definition hasGt (s : jsstring) : bool := existsb (Ascii.eqb ">") s.

(** No "<" of [s] has a ">" somewhere after it. *)
Fixpoint noTag (s : jsstring) : bool :=
  match s with
  | [] => true
  | c :: s' => negb (Ascii.eqb "<" c && hasGt s') && noTag s'
  end.

Definition isAngle (c : ascii) : bool := Ascii.eqb "<" c || Ascii.eqb ">" c.

(** [o] comes from [s] by dropping characters and by adding characters
    other than "<" and ">". *)
Inductive thins : jsstring -> jsstring -> Prop :=
| thins_nil : thins [] []
| thins_drop (c : ascii) (o s : jsstring) : thins o s -> thins o (c :: s)
| thins_keep (c : ascii) (o s : jsstring) : thins o s -> thins (c :: o) (c :: s)
| thins_add (c : ascii) (o s : jsstring) :
    isAngle c = false -> thins o s -> thins (c :: o) s.

Fixpoint stripPrefix (pat s : jsstring) : option jsstring :=
  match pat, s with
  | [], _ => Some s
  | p :: pat', c :: s' => if Ascii.eqb p c then stripPrefix pat' s' else None
  | _ :: _, [] => None
  end.

(** The character before the position reached by reading [l]. *)
Definition lastOr (prev : option ascii) (l : jsstring) : option ascii :=
  fold_left (fun _ c => Some c) l prev.

(** What is left after a non-empty run of class [p] at the start. *)
Definition runRest (p : ascii -> bool) (s : jsstring) : option jsstring :=
  match s with
  | c :: s' => if p c then Some (dropWhile p s') else None
  | [] => None
  end.

(** What is left after "://" and the characters up to the next white
    space, of which there must be one at least. *)
Definition urlTailRest (s : jsstring) : option jsstring :=
  match stripPrefix (str "://") s with
  | Some rest => runRest notSpace rest
  | None => None
  end.

(** What is left after the URL that starts exactly at [s]; the "s" of
    "https" is tried first. *)
Definition urlRest (s : jsstring) : option jsstring :=
  match stripPrefix (str "http") s with
  | Some r1 =>
      match
        match r1 with
        | c :: r2 => if Ascii.eqb "s" c then urlTailRest r2 else None
        | [] => None
        end
      with
      | Some rest => Some rest
      | None => urlTailRest r1
      end
  | None => None
  end.

(** No URL starts anywhere in [s]. *)
Fixpoint noUrl (s : jsstring) : bool :=
  match s with
  | [] => true
  | c :: s' =>
      match urlRest (c :: s') with
      | Some _ => false
      | None => noUrl s'
      end
  end.

(** [o] and [s] are the same up to the first white space of [o], or up to
    the end of [o]. *)
Inductive agree : jsstring -> jsstring -> Prop :=
| agree_nil (s : jsstring) : agree [] s
| agree_space (c : ascii) (o s : jsstring) :
    isSpace c = true -> agree (c :: o) s
| agree_cons (c : ascii) (o s : jsstring) :
    agree o s -> agree (c :: o) (c :: s).

Definition byFirstIndex (tokens : list jsstring) (a b : jsstring) : Prop :=
  firstIndex a tokens < firstIndex b tokens.

Definition isCount (v : value) : Prop := exists n, v = VNum n.

(** What holds of the table once the tokens have been counted: its values
    are numbers, its keys are the tokens longer than [minLength], and they
    stand in the order of their first encounter. *)
Record TableInvariant (minLength : Z) (tokens : list jsstring)
  (table : jsobject) : Prop := mkTableInvariant {
  table_counts : Forall (fun e => isCount (snd e)) table;
  table_keys_met : forall k, In k (map fst table) -> In k tokens;
  table_words_kept :
    forall w,
      In w tokens -> (minLength < Z.of_nat (length w))%Z ->
      In w (map fst table);
  table_keys_ordered : StronglySorted (byFirstIndex tokens) (map fst table)
}.

(* ================================================================== *)
(** * Further functions of the sources *)
(* ================================================================== *)

(* ------------------------------------------------------------------ *)
(** ** utils/textValidation.js: truncateText *)
(* ------------------------------------------------------------------ *)

(** [s.slice(0, e)] for an integer [e]: a negative [e] counts from the end
    of the string. *)
Definition sliceFromStart (s : jsstring) (e : Z) : jsstring :=
  let len := Z.of_nat (length s) in
  let final := if (e <? 0)%Z then Z.max (len + e) 0 else Z.min e len in
  firstn (Z.to_nat final) s.

(** [truncateText(text, maxLength = MAX_TEXT_LENGTH)], for an integer
    [maxLength]. *)
Definition truncateText (text : jsstring) (maxLength : Z) : jsstring :=
  if (Z.of_nat (length text) <=? maxLength)%Z then text
  else sliceFromStart text maxLength ++ str "...".

(** The call with the default value of [maxLength]. *)
Definition truncateTextDefault (text : jsstring) : jsstring :=
  truncateText text (Z.of_nat MAX_TEXT_LENGTH).

(* ------------------------------------------------------------------ *)
(** ** Notions for the further properties *)
(* ------------------------------------------------------------------ *)

(** The length of the match of a one-character class that starts exactly
    at [s]. *)
Definition classAt (p : ascii -> bool) (s : jsstring) : option nat :=
  match s with
  | c :: _ => if p c then Some 1 else None
  | [] => None
  end.

(** The text has a "<" with a ">" somewhere after it. *)
Definition ContainsTag (t : jsstring) : Prop :=
  exists a b c, t = a ++ "<"%char :: b ++ ">"%char :: c.

(** The text has "http://" or "https://" followed by a character that is
    not white space. *)
Definition ContainsUrl (t : jsstring) : Prop :=
  exists a pre c b,
    (pre = str "http://" \/ pre = str "https://")
    /\ t = a ++ pre ++ c :: b
    /\ isSpace c = false.

(** The class of [SPECIAL_CHARS_REGEX]. *)
Definition isSpecial (c : ascii) : bool :=
  negb (isWord c || isSpace c || oneOf ".,!?-" c).

(** What is left after one character of class [p]. *)
Definition classRest (p : ascii -> bool) (s : jsstring) : option jsstring :=
  match s with
  | c :: s' => if p c then Some s' else None
  | [] => None
  end.

(* ------------------------------------------------------------------ *)
(** ** Words *)
(* ------------------------------------------------------------------ *)

Definition consHead (c : ascii) (l : list jsstring) : list jsstring :=
  match l with
  | w :: ws => (c :: w) :: ws
  | [] => [[c]]
  end.

(** The maximal runs of word characters of a text, in order. *)
Fixpoint wordsOf (s : jsstring) : list jsstring :=
  match s with
  | [] => []
  | c :: s' =>
      if isWord c then
        if startsIn isWord s' then consHead c (wordsOf s')
        else [c] :: wordsOf s'
      else wordsOf s'
  end.

(** The character before the position is a word character. *)
Definition afterWord (prev : option ascii) : bool :=
  match prev with
  | Some c => isWord c
  | None => false
  end.

(** The length of the run of class [p] that starts exactly at [s] and is
    not followed by a word character. *)
Definition boundedRunAt (p : ascii -> bool) (s : jsstring) : option nat :=
  match s with
  | c :: s' =>
      if p c && negb (startsIn isWord (dropWhile p s'))
      then Some (S (runLength p s'))
      else None
  | [] => None
  end.

(* ------------------------------------------------------------------ *)
(** ** utils/textAnalysis.js: analyzeSentiment *)
(* ------------------------------------------------------------------ *)

(** [SENTIMENT_WORDS.positive] *)
Definition SENTIMENT_WORDS_positive : list jsstring :=
  map str
    ["good"; "great"; "excellent"; "amazing"; "wonderful"; "fantastic";
     "terrific"; "outstanding"; "superb"; "brilliant"; "awesome"; "fabulous";
     "spectacular"; "perfect"; "delightful"; "pleasant"; "happy"; "joyful";
     "love"; "like"; "beautiful"; "best"; "better"; "impressive"; "positive";
     "recommended"; "worth"; "helpful"; "success"; "successful"; "succeed";
     "pleased"; "enjoy"; "enjoyed"; "glad"; "thrilled"]%string.

(** [SENTIMENT_WORDS.negative] *)
Definition SENTIMENT_WORDS_negative : list jsstring :=
  map str
    ["bad"; "terrible"; "awful"; "horrible"; "poor"; "disappointing";
     "disappointed"; "worst"; "waste"; "useless"; "difficult"; "hard"; "ugly";
     "boring"; "annoying"; "hate"; "dislike"; "negative"; "problem"; "issue";
     "fail"; "failed"; "failure"; "wrong"; "error"; "mistake"; "concern";
     "worried"; "worry"; "sad"; "unhappy"; "unfortunate"; "trouble";
     "unreliable"; "frustrating"; "frustration"; "frustrate"]%string.

(** [Array.prototype.includes] on an array of strings. *)
Definition arrayIncludes (l : list jsstring) (w : jsstring) : bool :=
  existsb (keyEqb w) l.

Record SentimentResult : Type := mkSentimentResult {
  sentiment : jsstring;
  positiveCount : nat;
  negativeCount : nat;
  score : Z
}.

(** The body of the [for ... of] loop, on the two counters. *)
Definition countSentiment (positive negative : list jsstring)
  (counts : nat * nat) (word : jsstring) : nat * nat :=
  let positiveCount :=
    if arrayIncludes positive word then fst counts + 1 else fst counts in
  let negativeCount :=
    if arrayIncludes negative word then snd counts + 1 else snd counts in
  (positiveCount, negativeCount).

(** [analyzeSentiment] *)
Definition analyzeSentiment (text : jsstring) : SentimentResult :=
  let wordList := matchOrEmpty WORD_REGEX (normalizeText text) in
  let counts :=
    fold_left (countSentiment SENTIMENT_WORDS_positive SENTIMENT_WORDS_negative)
      wordList (0, 0) in
  let positiveCount := fst counts in
  let negativeCount := snd counts in
  let sentiment :=
    if negativeCount <? positiveCount then str "positive"
    else if positiveCount <? negativeCount then str "negative"
    else str "neutral" in
  {| sentiment := sentiment;
     positiveCount := positiveCount;
     negativeCount := negativeCount;
     score := (Z.of_nat positiveCount - Z.of_nat negativeCount)%Z |}.

(* ------------------------------------------------------------------ *)
(** ** script.js, the single-file version of the application *)
(* ------------------------------------------------------------------ *)

Module Legacy.

Definition positiveWords : list jsstring :=
  map str
    ["good"; "great"; "excellent"; "amazing"; "wonderful"; "fantastic";
     "terrific"; "outstanding"; "superb"; "brilliant"; "awesome"; "fabulous";
     "spectacular"; "perfect"; "delightful"; "pleasant"; "happy"; "joyful";
     "love"; "like"; "beautiful"; "best"; "better"; "impressive"; "positive";
     "recommended"; "worth"; "helpful"; "success"; "successful"; "succeed";
     "pleased"; "enjoy"; "enjoyed"; "glad"; "thrilled"]%string.

Definition negativeWords : list jsstring :=
  map str
    ["bad"; "terrible"; "awful"; "horrible"; "poor"; "disappointing";
     "disappointed"; "worst"; "waste"; "useless"; "difficult"; "hard"; "ugly";
     "boring"; "annoying"; "hate"; "dislike"; "negative"; "problem"; "issue";
     "fail"; "failed"; "failure"; "wrong"; "error"; "mistake"; "concern";
     "worried"; "worry"; "sad"; "unhappy"; "unfortunate"; "trouble";
     "unreliable"; "frustrating"; "frustration"; "frustrate"]%string.

(** [validateInput]: the message that [showError] is given, or [None] when
    the input is accepted and the error is hidden. *)
Definition validateInput (text : jsstring) : option jsstring :=
  if length text =? 0 then Some (str "Please enter some text to analyze.")
  else if MAX_TEXT_LENGTH <? length text then
    Some (str "Text is too long. Maximum length is "
          ++ natToString MAX_TEXT_LENGTH ++ str " characters.")
  else None.

(** [calculateBasicMetrics]: the words are those of the text as it is. *)
Definition calculateBasicMetrics (text : jsstring) : BasicMetrics :=
  let words := matchOrEmpty WORD_REGEX text in
  let sentences := filterBoolean (split SENTENCE_END text) in
  let paragraphs := filterBoolean (split BLANK_LINE text) in
  {| charCount := length text;
     charNoSpacesCount := length (replaceAll ONE_SPACE [] text);
     wordCount := length words;
     sentenceCount := length sentences;
     paragraphCount := length paragraphs;
     avgWordLength :=
       if 0 <? length words then
         VStr (toFixed2
                 (ofNat (length (replaceAll ONE_SPACE [] text))
                  / ofNat (length words))%float)
       else VNum 0 |}.

(** [updateSentimentAnalysis]: the two counts that it displays. *)
Definition updateSentimentAnalysis (text : jsstring) : nat * nat :=
  let wordList := matchOrEmpty WORD_REGEX (toLowerCase text) in
  fold_left (countSentiment positiveWords negativeWords) wordList (0, 0).

(** [updateWordFrequency]: the [sortedWords] that it displays. *)
Definition updateWordFrequency (text : jsstring) : list (jsstring * value) :=
  let words := matchOrEmpty WORD_REGEX (toLowerCase text) in
  let wordFreq := fold_left (countWord 2) words [] in
  arraySlice (sortByCount (entries wordFreq)) 10.

End Legacy.

(* ------------------------------------------------------------------ *)
(** ** utils/textAnalysis.js: the grade level and the interpretation *)
(* ------------------------------------------------------------------ *)

(** The value of [Math.round]: an integer, NaN, or an infinity.  (A zero
    stands for both zeros: what follows only compares the value.) *)
Inductive rounded : Type :=
| RInt (z : Z)
| RNaN
| RInf (negative : bool).

(** [Math.round]: the integer closest to the number, the greater one when
    two are equally close (the floor of the number plus one half).  A
    finite number [m * 2^e] with [e >= 0] is an integer already. *)
Definition mathRound (x : float) : rounded :=
  match Prim2SF x with
  | S754_zero _ => RInt 0
  | S754_nan => RNaN
  | S754_infinity negative => RInf negative
  | S754_finite negative m e =>
      let v := if negative then Z.neg m else Z.pos m in
      if (0 <=? e)%Z then RInt (v * 2 ^ e)
      else RInt ((2 * v + 2 ^ (- e)) / 2 ^ (1 - e))
  end.

(** [num <= 0] and [num >= 13]; a comparison with NaN is false. *)
Definition atMostZero (num : rounded) : bool :=
  match num with
  | RInt z => (z <=? 0)%Z
  | RNaN => false
  | RInf negative => negative
  end.

Definition atLeastThirteen (num : rounded) : bool :=
  match num with
  | RInt z => (13 <=? z)%Z
  | RNaN => false
  | RInf negative => negb negative
  end.

(** The string that [+] turns such a number into.  (An integer of
    magnitude 1e21 or more is written with an exponent, which is not
    reproduced here: the only caller has a number between 1 and 12.) *)
Definition roundedToString (num : rounded) : jsstring :=
  match num with
  | RInt z => (if (z <? 0)%Z then str "-" else []) ++ digitsOfZ (Z.abs z)
  | RNaN => str "NaN"
  | RInf negative => (if negative then str "-" else []) ++ str "Infinity"
  end.

(** [getOrdinalSuffix]: [%] takes the sign of the dividend, and gives NaN
    on NaN and on an infinity, which equals nothing. *)
Definition getOrdinalSuffix (num : rounded) : jsstring :=
  match num with
  | RInt z =>
      let j := Z.rem z 10 in
      let k := Z.rem z 100 in
      if (j =? 1)%Z && negb (k =? 11)%Z then str "st"
      else if (j =? 2)%Z && negb (k =? 12)%Z then str "nd"
      else if (j =? 3)%Z && negb (k =? 13)%Z then str "rd"
      else str "th"
  | _ => str "th"
  end.

(** [determineGradeLevel] *)
Definition determineGradeLevel (fleschKincaidGrade colemanLiauIndex : float)
  : jsstring :=
  let averageGrade := ((fleschKincaidGrade + colemanLiauIndex) / 2)%float in
  let roundedGrade := mathRound averageGrade in
  if atMostZero roundedGrade then str "Kindergarten"
  else if atLeastThirteen roundedGrade then str "College level"
  else roundedToString roundedGrade ++ getOrdinalSuffix roundedGrade
       ++ str " grade".

(** [getReadabilityInterpretation]; [score >= 90] is false on NaN. *)
Definition getReadabilityInterpretation (score : float) : jsstring :=
  if (90 <=? score)%float then
    str "Very easy to read. Easily understood by an average 11-year-old student."
  else if (80 <=? score)%float then
    str "Easy to read. Conversational English for consumers."
  else if (70 <=? score)%float then str "Fairly easy to read."
  else if (60 <=? score)%float then
    str "Plain English. Easily understood by 13- to 15-year-old students."
  else if (50 <=? score)%float then str "Fairly difficult to read."
  else if (30 <=? score)%float then
    str "Difficult to read. Best understood by college graduates."
  else str "Very difficult to read. Best understood by university graduates.".

(* ------------------------------------------------------------------ *)
(** ** app.js: handleAnalyze *)
(* ------------------------------------------------------------------ *)

(** The object that [handleAnalyze] passes to [updateResults]. *)
Module AnalysisResults.
Record t : Type := mk {
  basicMetrics : BasicMetrics;
  fleschScore : float;
  fleschKincaidGrade : float;
  colemanLiauIndex : float;
  sentiment : SentimentResult;
  wordFreq : list (jsstring * value)
}.
End AnalysisResults.

(** The body of the [try] block of [handleAnalyze], up to the call of
    [updateResults]. *)
Definition analysisResults (sanitizedText : jsstring) : AnalysisResults.t :=
  let basicMetrics := calculateBasicMetrics sanitizedText in
  let syllableCount := countSyllables sanitizedText in
  let fleschScore :=
    calculateFleschReadingEase
      (ofNat (wordCount basicMetrics))
      (ofNat (sentenceCount basicMetrics))
      (ofNat syllableCount) in
  let fleschKincaidGrade :=
    calculateFleschKincaidGrade
      (ofNat (wordCount basicMetrics))
      (ofNat (sentenceCount basicMetrics))
      (ofNat syllableCount) in
  let colemanLiauIndex :=
    calculateColemanLiauIndex
      (ofNat (charCount basicMetrics))
      (ofNat (wordCount basicMetrics))
      (ofNat (sentenceCount basicMetrics)) in
  let sentiment := analyzeSentiment sanitizedText in
  let wordFreq := analyzeWordFrequency sanitizedText 2 10 in
  AnalysisResults.mk basicMetrics fleschScore fleschKincaidGrade
    colemanLiauIndex sentiment wordFreq.

(** What one click on Analyze leads to: an error message is shown, or the
    results are. *)
Inductive Outcome : Type :=
| ShowError (message : jsstring)
| ShowResults (results : AnalysisResults.t).

(** [handleAnalyze], on the content of the text area and the [lastIndex]
    slots of the module-level regular expressions.  What it does to the
    page (the loading state, the progress bar, the display of the results)
    is left out; none of the analysis functions called in the [try] block
    throws. *)
Definition handleAnalyze (st : RegexState) (value : jsstring)
  : Outcome * RegexState :=
  let text := trim value in
  let validation := validateText text in
  if negb (ValidationResult.isValid validation) then
    (ShowError (ValidationResult.message validation), st)
  else
    let safetyCheck := checkTextSafety st text in
    if negb (SafetyResult.isSafe (fst safetyCheck)) then
      (ShowError (SafetyResult.message (fst safetyCheck)), snd safetyCheck)
    else
      let sanitizedText := sanitizeText text in
      (ShowResults (analysisResults sanitizedText), snd safetyCheck).

(** How many times a word stands in a list of words. *)
Definition occurrences (w : jsstring) (tokens : list jsstring) : nat :=
  count_occ (list_eq_dec ascii_dec) tokens w.

(** What holds of the table once the words [tokens] have been counted, as
    far as the counts go: no key stands twice, and the table holds, for each
    of the words longer than [minLength], the number of its occurrences. *)
Record CountInvariant (minLength : Z) (tokens : list jsstring)
  (table : jsobject) : Prop := mkCountInvariant {
  count_keys : NoDup (map fst table);
  count_values :
    forall k,
      getOwn table k
      = if (minLength <? Z.of_nat (length k))%Z
           && (0 <? occurrences k tokens)
        then Some (VNum (occurrences k tokens))
        else None
}.

(** What is left after the sentence end that starts exactly at [s]: a run
    of [.!?] and the white space after it. *)
Definition sentenceEndRest (s : jsstring) : option jsstring :=
  match s with
  | c :: s' =>
      if oneOf ".!?" c
      then Some (dropWhile isSpace (dropWhile (oneOf ".!?") s'))
      else None
  | [] => None
  end.

(** The text is made of sentence ends only: it does not start with white
    space, and each of its characters is one of [.!?] or white space. *)
Definition onlySentenceEnds (s : jsstring) : bool :=
  negb (startsIn isSpace s)
  && forallb (fun c => oneOf ".!?" c || isSpace c) s.

(* ================================================================== *)
(** * Properties *)
(* ================================================================== *)

(* ------------------------------------------------------------------ *)
(** ** validateText *)
(* ------------------------------------------------------------------ *)

(** C3 fails on the empty string: the specification, and the test "handles
    empty text" of the repository, want the too-short message there, with
    the minimum stated; the validator answers with the "please enter some
    text" message, which neither says "too short" nor states the minimum. *)
Lemma validateText_empty_not_as_specified :
  ~ ValidatesAsSpecified [] (validateText []).
Proof.
  intros (Hshort & _ & _).
  assert (Hlt : length (@nil ascii) < MIN_TEXT_LENGTH)
    by (apply Nat.ltb_lt; vm_compute; reflexivity).
  destruct (Hshort Hlt) as (_ & Hincl & _).
  vm_compute in Hincl. discriminate.
Qed.

(** What [validateText] does, case by case: the empty string is rejected
    with the message
    "Please enter some text to analyze."; a non-empty string shorter than
    MIN_TEXT_LENGTH is rejected with the too-short message, which states
    the minimum; a string longer than MAX_TEXT_LENGTH is rejected with the
    too-long message, which states the maximum; every other string is
    valid with an empty message. *)
Theorem validateText_cases (t : jsstring) :
  ((t = [] /\ validateText t = ValidationResult.mk false emptyMessage)
   \/ (0 < length t < MIN_TEXT_LENGTH
       /\ validateText t = ValidationResult.mk false tooShortMessage)
   \/ (MAX_TEXT_LENGTH < length t
       /\ validateText t = ValidationResult.mk false tooLongMessage)
   \/ (MIN_TEXT_LENGTH <= length t <= MAX_TEXT_LENGTH
       /\ validateText t = ValidationResult.mk true []))
  /\ statesLimit MIN_TEXT_LENGTH emptyMessage = false
  /\ statesLimit MIN_TEXT_LENGTH tooShortMessage = true
  /\ statesLimit MAX_TEXT_LENGTH tooLongMessage = true.
Proof.
  split; [| repeat split; vm_compute; reflexivity].
  destruct t as [| c t']; [left; split; reflexivity |].
  right. unfold validateText.
  destruct (length (c :: t') <? MIN_TEXT_LENGTH) eqn:Hmin.
  - left. apply Nat.ltb_lt in Hmin. simpl in *. split; [lia | reflexivity].
  - right. apply Nat.ltb_ge in Hmin.
    destruct (MAX_TEXT_LENGTH <? length (c :: t')) eqn:Hmax.
    + left. apply Nat.ltb_lt in Hmax. split; [exact Hmax | reflexivity].
    + right. apply Nat.ltb_ge in Hmax. split; [split; assumption | reflexivity].
Qed.

(* ------------------------------------------------------------------ *)
(** ** checkTextSafety *)
(* ------------------------------------------------------------------ *)

(** C1: [checkTextSafety] is not a function of its argument alone.  The
    text "Hello world <b>" passes validation; checked twice in a row from
    the state in which the module is loaded, it is first reported as
    unsafe and then let through with the special-characters advice.  The
    first call leaves the [lastIndex] of the tag pattern at 15, the end of
    the text, and the second call searches for a tag from there. *)
Theorem checkTextSafety_repeated_call_differs :
  let text := str "Hello world <b>" in
  let first := checkTextSafety initialState text in
  let second := checkTextSafety (snd first) text in
  ValidationResult.isValid (validateText text) = true
  /\ fst first = SafetyResult.mk false unsafeMessage
  /\ snd first = mkRegexState 0 15 13
  /\ fst second = SafetyResult.mk true specialCharsMessage
  /\ fst first <> fst second.
Proof.
  vm_compute. repeat split. discriminate.
Qed.

(* ------------------------------------------------------------------ *)
(** ** calculateBasicMetrics *)
(* ------------------------------------------------------------------ *)

(** C2, as the specification states it, fails: the text has 28
    characters, not 29. *)
Lemma calculateBasicMetrics_scenario_not_as_specified :
  calculateBasicMetrics (str "Hello world. This is a test.")
  <> mkBasicMetrics 29 24 6 2 1 (VStr (str "4.00")).
Proof.
  intros H. apply (f_equal charCount) in H. vm_compute in H. discriminate.
Qed.

(** C2 (amended): on "Hello world. This is a test." the metrics are
    charCount 28, charNoSpacesCount 23, wordCount 6, sentenceCount 2,
    paragraphCount 1 and avgWordLength "3.83" (23/6 to two places). *)
Theorem calculateBasicMetrics_scenario :
  calculateBasicMetrics (str "Hello world. This is a test.")
  = mkBasicMetrics 28 23 6 2 1 (VStr (str "3.83")).
Proof. vm_compute. reflexivity. Qed.

(* ------------------------------------------------------------------ *)
(** ** The readability formulas *)
(* ------------------------------------------------------------------ *)

(** C6: when the word count or the sentence count is zero, the three
    readability formulas return 0, whatever the other arguments are (not a
    number and the infinities included); no division takes place. *)
Theorem readability_zero_guard
  (wordCount sentenceCount syllableCount charCount : float) :
  (wordCount =? 0)%float = true \/ (sentenceCount =? 0)%float = true ->
  calculateFleschReadingEase wordCount sentenceCount syllableCount = 0%float
  /\ calculateFleschKincaidGrade wordCount sentenceCount syllableCount
     = 0%float
  /\ calculateColemanLiauIndex charCount wordCount sentenceCount = 0%float.
Proof.
  intros H.
  assert (G : (wordCount =? 0)%float || (sentenceCount =? 0)%float = true).
  { destruct H as [H | H]; rewrite H; [reflexivity | apply orb_true_r]. }
  unfold calculateFleschReadingEase, calculateFleschKincaidGrade,
    calculateColemanLiauIndex.
  rewrite G. repeat split.
Qed.

(** The guard at work: no words, five sentences, and not-a-number for the
    syllable and character counts. *)
Lemma readability_zero_guard_witness :
  calculateFleschReadingEase 0 5 nan = 0%float
  /\ calculateFleschKincaidGrade 0 5 nan = 0%float
  /\ calculateColemanLiauIndex nan 0 5 = 0%float.
Proof.
  apply (readability_zero_guard 0 5 nan nan). left. reflexivity.
Defined.

(* ------------------------------------------------------------------ *)
(** ** countSyllablesInWord *)
(* ------------------------------------------------------------------ *)

Lemma jsMatch_nonempty (r : regex) (s : jsstring) (ms : list jsstring) :
  jsMatch r s = Some ms -> 1 <= length ms.
Proof.
  unfold jsMatch. destruct (matchGo r None 0 s) as [| m ms'].
  - discriminate.
  - intros H. injection H as <-. simpl. lia.
Qed.

(** C9: [countSyllablesInWord] returns at least 1 on every word; "tsked",
    whose only vowel goes with the ending "ed", is counted as one
    syllable. *)
Theorem countSyllablesInWord_at_least_one (word : jsstring) :
  1 <= countSyllablesInWord word
  /\ replaceFirst SILENT_ENDING [] (str "tsked") = str "tsk"
  /\ countSyllablesInWord (str "tsked") = 1.
Proof.
  split; [| split; vm_compute; reflexivity].
  unfold countSyllablesInWord.
  destruct (length (toLowerCase word) <=? 3); [lia |].
  destruct (jsMatch VOWEL_GROUP _) as [ms |] eqn:E; [| lia].
  exact (jsMatch_nonempty _ _ _ E).
Qed.

(* ------------------------------------------------------------------ *)
(** ** The ending rule of the syllable estimator *)
(* ------------------------------------------------------------------ *)

Ltac split_ifs :=
  repeat first
    [ progress cbn -[Ascii.eqb noneOf oneOf isSpace isWord]
    | match goal with
      | |- context [Ascii.eqb ?a ?b] => destruct (Ascii.eqb a b) eqn:?
      | |- context [noneOf ?l ?c] => destruct (noneOf l c) eqn:?
      | |- context [oneOf ?l ?c] => destruct (oneOf l c) eqn:?
      | |- context [if ?b then _ else _] => destruct b eqn:?
      end ].

Ltac clash_chars :=
  repeat match goal with
    | H : Ascii.eqb _ _ = true |- _ => apply Ascii.eqb_eq in H; subst
    end;
  try discriminate; try congruence.

Lemma matchAt_SILENT_ENDING (prev : option ascii) (s : jsstring) :
  matchAt SILENT_ENDING prev s = endingAt (noneOf "laeiouy") s.
Proof.
  unfold matchAt, SILENT_ENDING, endingAt.
  destruct s as [| c1 [| c2 [| c3 [| c4 s']]]];
    split_ifs; try reflexivity; clash_chars.
Qed.

Lemma replaceFirstGo_SILENT_ENDING_long (prev : option ascii) (c : ascii)
  (s : jsstring) :
  3 <= length s ->
  replaceFirstGo SILENT_ENDING [] prev (c :: s)
  = c :: replaceFirstGo SILENT_ENDING [] (Some c) s.
Proof.
  intros H. cbn [replaceFirstGo]. rewrite matchAt_SILENT_ENDING.
  destruct s as [| c1 [| c2 [| c3 s']]]; simpl in H; try lia.
  reflexivity.
Qed.

Lemma stripEnding_long (consonant : ascii -> bool) (c : ascii) (s : jsstring) :
  3 <= length s ->
  stripEnding consonant (c :: s) = c :: stripEnding consonant s.
Proof.
  intros H. unfold stripEnding. cbn [rev].
  destruct (rev s) as [| z [| y [| x r]]] eqn:E;
    try (apply (f_equal (@Datatypes.length ascii)) in E;
         rewrite length_rev in E; simpl in E; lia).
  cbn [app tl].
  assert (Hr : rev r ++ [x] = rev (x :: r)) by reflexivity.
  destruct (Ascii.eqb "s" z && Ascii.eqb "e" y && consonant x).
  - apply rev_unit.
  - destruct (Ascii.eqb "d" z && Ascii.eqb "e" y).
    + change (x :: r ++ [c]) with ((x :: r) ++ [c]). apply rev_unit.
    + destruct (Ascii.eqb "e" z && consonant y); [| reflexivity].
      change (x :: r ++ [c]) with ((x :: r) ++ [c]). apply rev_unit.
Qed.

Lemma replaceFirstGo_SILENT_ENDING (s : jsstring) (prev : option ascii) :
  replaceFirstGo SILENT_ENDING [] prev s = stripEnding (noneOf "laeiouy") s.
Proof.
  revert prev. induction s as [| c s IH]; intros prev.
  - reflexivity.
  - destruct (le_lt_dec 3 (length s)) as [Hlong | Hshort].
    + rewrite replaceFirstGo_SILENT_ENDING_long, stripEnding_long by assumption.
      rewrite IH. reflexivity.
    + clear IH.
      destruct s as [| c1 [| c2 [| c3 s']]]; simpl in Hshort; try lia;
        cbn [replaceFirstGo]; rewrite !matchAt_SILENT_ENDING;
        unfold endingAt, stripEnding;
        split_ifs; try reflexivity; clash_chars.
Qed.

Lemma toLowerChar_lower (c : ascii) :
  isLowerAlpha c = true -> toLowerChar c = c.
Proof.
  unfold isLowerAlpha, toLowerChar, inRange. intros H.
  apply andb_prop in H as [H1 H2].
  apply Nat.leb_le in H1. apply Nat.leb_le in H2.
  replace (code c <=? 90) with false by (symmetry; apply Nat.leb_gt; lia).
  replace (192 <=? code c) with false by (symmetry; apply Nat.leb_gt; lia).
  rewrite andb_false_r. reflexivity.
Qed.

Lemma toLowerCase_lower_word (w : jsstring) :
  isLowerWord w = true -> toLowerCase w = w.
Proof.
  unfold isLowerWord, toLowerCase.
  induction w as [| c w IH]; simpl; intros H; [reflexivity |].
  apply andb_prop in H as [Hc Hw].
  rewrite (toLowerChar_lower c Hc), (IH Hw). reflexivity.
Qed.

(** C4, as the specification states it, fails on "table": with "l" taken
    for a consonant the ending "le" would go and one vowel group would be
    left, but the source counts two. *)
Lemma ending_rule_with_l_as_consonant_fails :
  isLowerWord (str "table") = true
  /\ 3 < length (str "table")
  /\ countSyllablesInWord (str "table")
     <> syllablesByEndingRule (noneOf "aeiouy") (str "table").
Proof.
  split; [reflexivity | split; [simpl; lia |]].
  vm_compute. discriminate.
Qed.

(** C4 (amended): on a lower-case alphabetic word of more than three
    letters, [countSyllablesInWord] first removes a final letter-"es",
    a final "ed", or a final letter-"e", where the letter is none of
    l, a, e, i, o, u, y (so "l" does not count as a consonant here), and
    then counts the vowel groups. *)
Theorem countSyllablesInWord_ending_rule (w : jsstring) :
  isLowerWord w = true ->
  3 < length w ->
  countSyllablesInWord w = syllablesByEndingRule (noneOf "laeiouy") w.
Proof.
  intros Hlow Hlen. unfold countSyllablesInWord.
  rewrite (toLowerCase_lower_word w Hlow).
  replace (length w <=? 3) with false by (symmetry; apply Nat.leb_gt; lia).
  unfold replaceFirst at 2. rewrite replaceFirstGo_SILENT_ENDING.
  reflexivity.
Qed.

Lemma countSyllablesInWord_ending_rule_witness :
  countSyllablesInWord (str "makes")
  = syllablesByEndingRule (noneOf "laeiouy") (str "makes").
Proof.
  apply (countSyllablesInWord_ending_rule (str "makes")).
  - reflexivity.
  - simpl. lia.
Defined.

(* ------------------------------------------------------------------ *)
(** ** What the engines keep of their input *)
(* ------------------------------------------------------------------ *)

Lemma In_firstn_In {A : Type} (n : nat) (l : list A) (x : A) :
  In x (firstn n l) -> In x l.
Proof.
  intros H. rewrite <- (firstn_skipn n l). apply in_or_app. left. exact H.
Qed.

(** Every character of the result of a replacement comes from the
    replacement text or from the input. *)
Lemma replaceGo_In (r : regex) (rep s : jsstring) :
  forall prev skip c,
    In c (replaceGo r rep prev skip s) -> In c rep \/ In c s.
Proof.
  induction s as [| a s IH]; intros prev skip c.
  - destruct skip; cbn [replaceGo]; [| intros []].
    destruct (matchAt r prev []) as [[| n] |];
      rewrite ?app_nil_r; intros H; auto.
  - destruct skip; cbn [replaceGo].
    + destruct (matchAt r prev (a :: s)) as [[| n] |]; intros H.
      * apply in_app_or in H as [H | [H | H]]; [auto | subst; simpl; auto |].
        destruct (IH _ _ _ H); simpl; auto.
      * apply in_app_or in H as [H | H]; [auto |].
        destruct (IH _ _ _ H); simpl; auto.
      * destruct H as [H | H]; [subst; simpl; auto |].
        destruct (IH _ _ _ H); simpl; auto.
    + intros H. destruct (IH _ _ _ H); simpl; auto.
Qed.

Lemma replaceAll_In (r : regex) (rep s : jsstring) (c : ascii) :
  In c (replaceAll r rep s) -> In c rep \/ In c s.
Proof. apply replaceGo_In. Qed.

(** Every character of a match comes from the input. *)
Lemma matchGo_In (r : regex) (s : jsstring) :
  forall prev skip w c,
    In w (matchGo r prev skip s) -> In c w -> In c s.
Proof.
  induction s as [| a s IH]; intros prev skip w c.
  - destruct skip; cbn [matchGo]; [| intros []].
    destruct (matchAt r prev []) as [[| n] |]; simpl; intros H Hc;
      try contradiction;
      destruct H as [H | H]; try contradiction; subst; simpl in Hc;
      contradiction.
  - destruct skip; cbn [matchGo].
    + destruct (matchAt r prev (a :: s)) as [[| n] |]; intros H Hc.
      * destruct H as [H | H]; [subst; contradiction |].
        right. exact (IH _ _ _ _ H Hc).
      * destruct H as [H | H].
        -- subst. exact (In_firstn_In _ _ _ Hc).
        -- right. exact (IH _ _ _ _ H Hc).
      * right. exact (IH _ _ _ _ H Hc).
    + intros H Hc. right. exact (IH _ _ _ _ H Hc).
Qed.

Lemma matchOrEmpty_In (r : regex) (s w : jsstring) (c : ascii) :
  In w (matchOrEmpty r s) -> In c w -> In c s.
Proof.
  unfold matchOrEmpty, jsMatch.
  destruct (matchGo r None 0 s) as [| m ms] eqn:E; [intros [] |].
  rewrite <- E. apply matchGo_In.
Qed.

Lemma dropWhile_In (p : ascii -> bool) (s : jsstring) (c : ascii) :
  In c (dropWhile p s) -> In c s.
Proof.
  induction s as [| a s IH]; simpl; [auto |].
  destruct (p a); auto.
Qed.

Lemma dropEnd_In (p : ascii -> bool) (s : jsstring) (c : ascii) :
  In c (dropEnd p s) -> In c s.
Proof.
  induction s as [| a s IH]; simpl; [auto |].
  destruct (dropEnd p s) as [| b kept].
  - destruct (p a); simpl; tauto.
  - intros [H | H]; auto.
Qed.

Lemma trim_In (s : jsstring) (c : ascii) : In c (trim s) -> In c s.
Proof.
  unfold trim. intros H. apply dropEnd_In in H. exact (dropWhile_In _ _ _ H).
Qed.

(* ------------------------------------------------------------------ *)
(** ** Lower case *)
(* ------------------------------------------------------------------ *)

Lemma toLowerChar_idempotent (c : ascii) :
  toLowerChar (toLowerChar c) = toLowerChar c.
Proof.
  destruct c as [[] [] [] [] [] [] [] []]; reflexivity.
Qed.

Lemma toLowerCase_fixed (s : jsstring) :
  Forall (fun c => toLowerChar c = c) s -> toLowerCase s = s.
Proof.
  unfold toLowerCase. induction 1 as [| c s Hc _ IH]; simpl; congruence.
Qed.

Lemma toLowerCase_chars (s : jsstring) :
  Forall (fun c => toLowerChar c = c) (toLowerCase s).
Proof.
  unfold toLowerCase. induction s as [| c s IH]; simpl; constructor;
    [apply toLowerChar_idempotent | exact IH].
Qed.

(** The normal form holds lower-case characters only. *)
Lemma normalizeText_chars (text : jsstring) :
  Forall (fun c => toLowerChar c = c) (normalizeText text).
Proof.
  apply Forall_forall. intros c H. unfold normalizeText in H.
  apply trim_In in H.
  apply replaceAll_In in H as [[<- | []] | H]; [reflexivity |].
  apply replaceAll_In in H as [[<- | []] | H]; [reflexivity |].
  exact (proj1 (Forall_forall _ _) (toLowerCase_chars text) c H).
Qed.

(* ------------------------------------------------------------------ *)
(** ** analyzeWordFrequency *)
(* ------------------------------------------------------------------ *)

Section Keys.

(** A property of the keys of the table. *)
Variable P : jsstring -> Prop.

Lemma keysSatisfy_updateOwn (o : jsobject) (k : jsstring) (v : value) :
  keysSatisfy P o -> keysSatisfy P (updateOwn o k v).
Proof.
  unfold keysSatisfy. induction o as [| [k' v'] o IH]; simpl; intros H e He.
  - contradiction.
  - destruct (keyEqb k k').
    + destruct He as [<- | He]; [exact (H (k', v') (or_introl eq_refl)) |].
      apply H. right. exact He.
    + destruct He as [<- | He]; [exact (H (k', v') (or_introl eq_refl)) |].
      apply IH; [| exact He]. intros f Hf. apply H. right. exact Hf.
Qed.

Lemma keysSatisfy_setProperty (o : jsobject) (k : jsstring) (v : value) :
  P k -> keysSatisfy P o -> keysSatisfy P (setProperty o k v).
Proof.
  intros Hk Ho. unfold setProperty. destruct (getOwn o k).
  - apply keysSatisfy_updateOwn. exact Ho.
  - destruct (keyEqb k (str "__proto__")); [exact Ho |].
    intros e He. apply in_app_or in He as [He | [<- | []]];
      [exact (Ho e He) | exact Hk].
Qed.

Lemma keysSatisfy_insertByIndex (e : jsstring * value)
  (l : list (jsstring * value)) :
  P (fst e) -> keysSatisfy P l -> keysSatisfy P (insertByIndex e l).
Proof.
  unfold keysSatisfy. induction l as [| f l IH]; simpl; intros He Hl x Hx.
  - destruct Hx as [<- | []]. exact He.
  - destruct (indexOf (fst e) <=? indexOf (fst f))%N.
    + destruct Hx as [<- | Hx]; [exact He | exact (Hl x Hx)].
    + destruct Hx as [<- | Hx]; [exact (Hl f (or_introl eq_refl)) |].
      apply IH; auto.
Qed.

Lemma keysSatisfy_entries (o : jsobject) :
  keysSatisfy P o -> keysSatisfy P (entries o).
Proof.
  intros Ho e He. unfold entries in He. apply in_app_or in He as [He | He].
  - revert e He. change (keysSatisfy P (fold_right insertByIndex []
      (filter (fun e => isArrayIndex (fst e)) o))).
    assert (Hf : keysSatisfy P (filter (fun e => isArrayIndex (fst e)) o)).
    { intros e He. apply filter_In in He as [He _]. exact (Ho e He). }
    induction (filter (fun e => isArrayIndex (fst e)) o) as [| f l IH];
      simpl; [intros e [] |].
    apply keysSatisfy_insertByIndex.
    + exact (Hf f (or_introl eq_refl)).
    + apply IH. intros x Hx. apply Hf. right. exact Hx.
  - apply filter_In in He as [He _]. exact (Ho e He).
Qed.

Lemma keysSatisfy_insertSorted (e : jsstring * value)
  (l : list (jsstring * value)) :
  P (fst e) -> keysSatisfy P l -> keysSatisfy P (insertSorted e l).
Proof.
  unfold keysSatisfy. induction l as [| f l IH]; simpl; intros He Hl x Hx.
  - destruct Hx as [<- | []]. exact He.
  - destruct (compareCounts (snd e) (snd f) <=? 0)%Z.
    + destruct Hx as [<- | Hx]; [exact He | exact (Hl x Hx)].
    + destruct Hx as [<- | Hx]; [exact (Hl f (or_introl eq_refl)) |].
      apply IH; auto.
Qed.

Lemma keysSatisfy_sortByCount (l : list (jsstring * value)) :
  keysSatisfy P l -> keysSatisfy P (sortByCount l).
Proof.
  unfold sortByCount. induction l as [| f l IH]; simpl; intros Hl.
  - intros e [].
  - apply keysSatisfy_insertSorted.
    + exact (Hl f (or_introl eq_refl)).
    + apply IH. intros x Hx. apply Hl. right. exact Hx.
Qed.

Lemma keysSatisfy_countWords (minLength : Z) (words : list jsstring) :
  (forall w, In w words -> (minLength < Z.of_nat (length w))%Z -> P w) ->
  forall o, keysSatisfy P o ->
    keysSatisfy P (fold_left (countWord minLength) words o).
Proof.
  induction words as [| w words IH]; simpl; intros Hw o Ho; [exact Ho |].
  apply IH; [intros x Hx; apply Hw; right; exact Hx |].
  unfold countWord.
  destruct (minLength <? Z.of_nat (length w))%Z eqn:E; [| exact Ho].
  apply keysSatisfy_setProperty; [| exact Ho].
  apply Hw; [left; reflexivity | apply Z.ltb_lt; exact E].
Qed.

End Keys.

Lemma arraySlice_prefix {A : Type} (l : list A) (e : Z) :
  exists n, arraySlice l e = firstn n l.
Proof. unfold arraySlice. eexists. reflexivity. Qed.

Lemma arraySlice_length {A : Type} (l : list A) (e : Z) :
  (0 <= e)%Z -> (Z.of_nat (length (arraySlice l e)) <= e)%Z.
Proof.
  intro H. unfold arraySlice.
  replace (e <? 0)%Z with false by (symmetry; apply Z.ltb_ge; exact H).
  rewrite length_firstn. lia.
Qed.

Lemma arraySlice_all {A : Type} (l : list A) (e : Z) :
  (Z.of_nat (length l) <= e)%Z -> arraySlice l e = l.
Proof.
  intro H. unfold arraySlice.
  replace (e <? 0)%Z with false by (symmetry; apply Z.ltb_ge; lia).
  apply firstn_all2. lia.
Qed.

Lemma arraySlice_In {A : Type} (l : list A) (e : Z) (x : A) :
  In x (arraySlice l e) -> In x l.
Proof. unfold arraySlice. apply In_firstn_In. Qed.

(** C8, as the specification states it, fails for a negative [maxWords]:
    [slice(0, -1)] drops the last entry only, so that two of the three
    words of "aaa bbb ccc" are returned, which is more than -1. *)
Lemma analyzeWordFrequency_negative_maxWords :
  analyzeWordFrequency (str "aaa bbb ccc") 2 (-1)
  = [(str "aaa", VNum 1); (str "bbb", VNum 1)]
  /\ ~ (Z.of_nat (length (analyzeWordFrequency (str "aaa bbb ccc") 2 (-1)))
        <= -1)%Z.
Proof.
  split; [vm_compute; reflexivity |].
  intro H. vm_compute in H. apply H. reflexivity.
Qed.

(** C8 (amended): for integer bounds, the result of [analyzeWordFrequency]
    has at most [maxWords] entries when [maxWords] is not negative;
    whatever the sign of the bounds, every word in it is longer than
    [minLength] and is its own lower-case form, and the empty text gives
    the empty sequence. *)
Theorem analyzeWordFrequency_bounds
  (text : jsstring) (minLength maxWords : Z) :
  ((0 <= maxWords)%Z ->
   (Z.of_nat (length (analyzeWordFrequency text minLength maxWords))
    <= maxWords)%Z)
  /\ Forall (fun e => (minLength < Z.of_nat (length (fst e)))%Z
                      /\ toLowerCase (fst e) = fst e)
       (analyzeWordFrequency text minLength maxWords)
  /\ analyzeWordFrequency [] minLength maxWords = [].
Proof.
  split; [intro H; apply arraySlice_length; exact H | split].
  - apply Forall_forall. intros e He. unfold analyzeWordFrequency in He.
    apply arraySlice_In in He. revert e He.
    apply (keysSatisfy_sortByCount
             (fun k => (minLength < Z.of_nat (length k))%Z
                       /\ toLowerCase k = k)).
    apply keysSatisfy_entries, keysSatisfy_countWords; [| intros e []].
    intros w Hw Hlen. split; [exact Hlen |].
    apply toLowerCase_fixed, Forall_forall. intros c Hc.
    apply (proj1 (Forall_forall _ _) (normalizeText_chars text)).
    exact (matchOrEmpty_In _ _ _ _ Hw Hc).
  - unfold analyzeWordFrequency, arraySlice. apply firstn_nil.
Qed.

Lemma analyzeWordFrequency_bounds_witness :
  (Z.of_nat
     (length (analyzeWordFrequency (str "one two three two three three") 2 2))
   <= 2)%Z.
Proof.
  apply (proj1 (analyzeWordFrequency_bounds
                  (str "one two three two three three") 2 2)).
  lia.
Defined.

(** C5: on the text "abc 123" the word "123" is met after "abc", both
    occur once, and "123" comes first in the result, so the tie is not
    broken by first encounter.  The table is an object literal: the keys
    of an object that are array indices are listed before its other keys,
    and a key that the object inherits, such as "constructor", is not
    counted from zero: its count comes out as a string. *)
Theorem analyzeWordFrequency_numeric_word_first :
  let text := str "abc 123" in
  let tokens := matchOrEmpty WORD_REGEX (normalizeText text) in
  tokens = [str "abc"; str "123"]
  /\ analyzeWordFrequency text 2 10
     = [(str "123", VNum 1); (str "abc", VNum 1)]
  /\ ~ TiesInEncounterOrder tokens (analyzeWordFrequency text 2 10)
  /\ In (str "constructor",
         VStr (str "function Object() { [native code] }1"))
       (analyzeWordFrequency (str "apple constructor apple") 2 10).
Proof.
  cbv zeta.
  split; [vm_compute; reflexivity | split; [vm_compute; reflexivity |]].
  split; [| vm_compute; auto].
  intros H.
  specialize (H 0 1 (str "123", VNum 1) (str "abc", VNum 1)).
  assert (Hlt : 0 < 1) by lia.
  specialize (H Hlt).
  assert (E : firstIndex (str "123")
                (matchOrEmpty WORD_REGEX (normalizeText (str "abc 123")))
              < firstIndex (str "abc")
                  (matchOrEmpty WORD_REGEX (normalizeText (str "abc 123")))).
  { apply H; vm_compute; reflexivity. }
  vm_compute in E. lia.
Qed.

(* ------------------------------------------------------------------ *)
(** ** Global replacement, one match at a time *)
(* ------------------------------------------------------------------ *)

Section ReplaceAll.

(** A pattern whose match at a position is given by [m], whatever
    precedes the position, and which never matches the empty string. *)
Variable r : regex.
Variable rep : jsstring.
Variable m : jsstring -> option nat.
Hypothesis matchAt_m : forall prev s, matchAt r prev s = m s.
Hypothesis m_nil : m [] = None.
Hypothesis m_positive : forall s, m s <> Some 0.

Lemma replaceAll_nil : replaceAll r rep [] = [].
Proof.
  unfold replaceAll. cbn [replaceGo]. rewrite matchAt_m, m_nil. reflexivity.
Qed.

Lemma replaceGo_skip (s : jsstring) :
  forall skip prev,
    replaceGo r rep prev skip s = replaceAll r rep (skipn skip s).
Proof.
  induction s as [| c s IH]; intros skip prev.
  - rewrite skipn_nil, replaceAll_nil.
    destruct skip; cbn [replaceGo]; [| reflexivity].
    rewrite matchAt_m, m_nil. reflexivity.
  - destruct skip.
    + unfold replaceAll. cbn [skipn replaceGo]. rewrite !matchAt_m.
      reflexivity.
    + cbn [replaceGo skipn]. apply IH.
Qed.

Lemma replaceAll_cons (c : ascii) (s : jsstring) :
  replaceAll r rep (c :: s)
  = match m (c :: s) with
    | Some n => rep ++ replaceAll r rep (skipn (pred n) s)
    | None => c :: replaceAll r rep s
    end.
Proof.
  unfold replaceAll at 1. cbn [replaceGo]. rewrite matchAt_m.
  destruct (m (c :: s)) as [[| n] |] eqn:E.
  - exfalso. exact (m_positive _ E).
  - rewrite replaceGo_skip. reflexivity.
  - rewrite replaceGo_skip. reflexivity.
Qed.

(** Induction along the way the replacement walks through its input. *)
Lemma replace_ind (Q : jsstring -> Prop) :
  Q [] ->
  (forall c s n, m (c :: s) = Some (S n) -> Q (skipn n s) -> Q (c :: s)) ->
  (forall c s, m (c :: s) = None -> Q s -> Q (c :: s)) ->
  forall s, Q s.
Proof.
  intros Hnil Hhit Hmiss s.
  assert (H : forall n s, length s <= n -> Q s).
  { clear s. induction n as [| n IH]; intros s Hlen.
    - destruct s; [exact Hnil | simpl in Hlen; lia].
    - destruct s as [| c s]; [exact Hnil |].
      simpl in Hlen.
      destruct (m (c :: s)) as [[| k] |] eqn:E.
      + exfalso. exact (m_positive _ E).
      + apply (Hhit c s k E). apply IH.
        rewrite length_skipn. lia.
      + apply (Hmiss c s E). apply IH. lia. }
  exact (H (length s) s (le_n _)).
Qed.

End ReplaceAll.

(* ------------------------------------------------------------------ *)
(** ** Runs of a character class *)
(* ------------------------------------------------------------------ *)

Lemma runLength_dropWhile (p : ascii -> bool) (s : jsstring) :
  skipn (runLength p s) s = dropWhile p s.
Proof.
  induction s as [| c s IH]; simpl; [reflexivity |].
  destruct (p c); [exact IH | reflexivity].
Qed.

Lemma runLength_le (p : ascii -> bool) (s : jsstring) :
  runLength p s <= length s.
Proof.
  induction s as [| c s IH]; simpl; [lia |]. destruct (p c); lia.
Qed.

Lemma starEnds_head (p : ascii -> bool) (s : jsstring) :
  forall prev, exists q rest,
    starEnds p prev s = (q, dropWhile p s) :: rest.
Proof.
  induction s as [| c s IH]; intros prev; simpl.
  - exists prev, []. reflexivity.
  - destruct (p c).
    + destruct (IH (Some c)) as (q & rest & E). rewrite E.
      exists q, (rest ++ [(prev, c :: s)]). reflexivity.
    + exists prev, []. reflexivity.
Qed.

Lemma matchAt_Plus (p : ascii -> bool) (prev : option ascii) (s : jsstring) :
  matchAt (Plus p) prev s = plusAt p s.
Proof.
  unfold matchAt, Plus, plusAt. cbn [ends snd].
  destruct s as [| c s]; [reflexivity |].
  destruct (p c); [| reflexivity].
  cbn [flat_map ends fst snd]. rewrite app_nil_r.
  destruct (starEnds_head p s (Some c)) as (q & rest & E). rewrite E.
  f_equal. rewrite <- runLength_dropWhile, length_skipn.
  pose proof (runLength_le p s). cbn [length]. lia.
Qed.

Lemma plusAt_nil (p : ascii -> bool) : plusAt p [] = None.
Proof. reflexivity. Qed.

Lemma plusAt_positive (p : ascii -> bool) (s : jsstring) :
  plusAt p s <> Some 0.
Proof.
  destruct s as [| c s]; simpl; [discriminate |].
  destruct (p c); discriminate.
Qed.

(** How the replacement of the runs of [p] by [d] unfolds. *)
Lemma collapse_nil (p : ascii -> bool) (d : ascii) :
  replaceAll (Plus p) [d] [] = [].
Proof. exact (replaceAll_nil _ _ _ (matchAt_Plus p) (plusAt_nil p)). Qed.

Lemma collapse_cons (p : ascii -> bool) (d c : ascii) (s : jsstring) :
  replaceAll (Plus p) [d] (c :: s)
  = if p c then d :: replaceAll (Plus p) [d] (dropWhile p s)
    else c :: replaceAll (Plus p) [d] s.
Proof.
  rewrite (replaceAll_cons _ _ _ (matchAt_Plus p) (plusAt_nil p)
             (plusAt_positive p)).
  unfold plusAt. destruct (p c); [| reflexivity].
  cbn [Nat.pred app]. rewrite runLength_dropWhile. reflexivity.
Qed.

Lemma collapse_ind (p : ascii -> bool) (Q : jsstring -> Prop) :
  Q [] ->
  (forall c s, p c = true -> Q (dropWhile p s) -> Q (c :: s)) ->
  (forall c s, p c = false -> Q s -> Q (c :: s)) ->
  forall s, Q s.
Proof.
  intros Hnil Hrun Hother.
  apply (replace_ind (plusAt p) (plusAt_positive p)); [exact Hnil | |].
  - intros c s n E HQ. simpl in E. destruct (p c) eqn:Hc; [| discriminate].
    injection E as <-. rewrite runLength_dropWhile in HQ.
    exact (Hrun c s Hc HQ).
  - intros c s E HQ. simpl in E. destruct (p c) eqn:Hc; [discriminate |].
    exact (Hother c s Hc HQ).
Qed.

(* ------------------------------------------------------------------ *)
(** ** Trimming *)
(* ------------------------------------------------------------------ *)

Lemma startsIn_dropWhile (p : ascii -> bool) (s : jsstring) :
  startsIn p (dropWhile p s) = false.
Proof.
  induction s as [| c s IH]; simpl; [reflexivity |].
  destruct (p c) eqn:E; [exact IH | simpl; exact E].
Qed.

Lemma dropWhile_fixed (p : ascii -> bool) (s : jsstring) :
  startsIn p s = false -> dropWhile p s = s.
Proof.
  destruct s as [| c s]; simpl; [reflexivity |].
  intros ->. reflexivity.
Qed.

(** What [dropEnd] leaves starts like its argument, or is empty. *)
Lemma dropEnd_head (f : ascii -> bool) (s : jsstring) :
  dropEnd f s = [] \/ exists c s' k, s = c :: s' /\ dropEnd f s = c :: k.
Proof.
  destruct s as [| c s]; simpl; [left; reflexivity |].
  destruct (dropEnd f s) as [| b kept].
  - destruct (f c); [left; reflexivity |].
    right. exists c, s, []. split; reflexivity.
  - right. exists c, s, (b :: kept). split; reflexivity.
Qed.

Lemma startsIn_dropEnd (p f : ascii -> bool) (s : jsstring) :
  startsIn p s = false -> startsIn p (dropEnd f s) = false.
Proof.
  intros H. destruct (dropEnd_head f s) as [-> | (c & s' & k & -> & ->)];
    [reflexivity | exact H].
Qed.

Lemma dropEnd_idempotent (f : ascii -> bool) (s : jsstring) :
  dropEnd f (dropEnd f s) = dropEnd f s.
Proof.
  induction s as [| c s IH]; simpl; [reflexivity |].
  destruct (dropEnd f s) as [| b kept] eqn:E.
  - destruct (f c) eqn:Hc; simpl; [reflexivity |]. rewrite Hc. reflexivity.
  - change (dropEnd f (c :: b :: kept))
      with (match dropEnd f (b :: kept) with
            | [] => if f c then [] else [c]
            | k => c :: k
            end).
    rewrite IH. reflexivity.
Qed.

Lemma trim_idempotent (s : jsstring) : trim (trim s) = trim s.
Proof.
  unfold trim.
  rewrite (dropWhile_fixed isSpace (dropEnd isSpace (dropWhile isSpace s))).
  - apply dropEnd_idempotent.
  - apply startsIn_dropEnd, startsIn_dropWhile.
Qed.

(* ------------------------------------------------------------------ *)
(** ** Strings in which the runs of a class are already collapsed *)
(* ------------------------------------------------------------------ *)

Lemma normalRuns_cons (p : ascii -> bool) (d c : ascii) (s : jsstring) :
  normalRuns p d (c :: s) = true ->
  (p c = true -> c = d /\ startsIn p s = false) /\ normalRuns p d s = true.
Proof.
  simpl. intros H. apply andb_prop in H as [H1 H2]. split; [| exact H2].
  intros Hc. rewrite Hc in H1. apply andb_prop in H1 as [Hd Hs].
  apply Ascii.eqb_eq in Hd. apply negb_true_iff in Hs. auto.
Qed.

Lemma normalRuns_intro (p : ascii -> bool) (d c : ascii) (s : jsstring) :
  (p c = true -> c = d /\ startsIn p s = false) ->
  normalRuns p d s = true ->
  normalRuns p d (c :: s) = true.
Proof.
  intros H Hs. simpl. rewrite Hs, andb_true_r.
  destruct (p c); [| reflexivity].
  destruct (H eq_refl) as [-> ->]. rewrite Ascii.eqb_refl. reflexivity.
Qed.

Lemma normalRuns_dropWhile (p f : ascii -> bool) (d : ascii) (s : jsstring) :
  normalRuns p d s = true -> normalRuns p d (dropWhile f s) = true.
Proof.
  induction s as [| c s IH]; [auto |].
  intros H. cbn [dropWhile]. destruct (f c); [| exact H].
  apply IH. exact (proj2 (normalRuns_cons _ _ _ _ H)).
Qed.

Lemma normalRuns_dropEnd (p f : ascii -> bool) (d : ascii) (s : jsstring) :
  normalRuns p d s = true -> normalRuns p d (dropEnd f s) = true.
Proof.
  induction s as [| c s IH]; [auto |].
  intros H. destruct (normalRuns_cons _ _ _ _ H) as [Hc Hs].
  cbn [dropEnd]. destruct (dropEnd f s) as [| b kept] eqn:E.
  - destruct (f c); [reflexivity |].
    apply normalRuns_intro; [| reflexivity].
    intros Hp. destruct (Hc Hp). auto.
  - apply normalRuns_intro; [| exact (IH Hs)].
    intros Hp. destruct (Hc Hp) as [-> Hstart]. split; [reflexivity |].
    rewrite <- E. apply startsIn_dropEnd. exact Hstart.
Qed.

Lemma normalRuns_trim (p : ascii -> bool) (d : ascii) (s : jsstring) :
  normalRuns p d s = true -> normalRuns p d (trim s) = true.
Proof.
  intros H. unfold trim. apply normalRuns_dropEnd, normalRuns_dropWhile, H.
Qed.

(** When [s] does not start in class [p], neither does what a replacement
    of the runs of [q] by a character outside [p] makes of it. *)
Lemma startsIn_collapse (p q : ascii -> bool) (e : ascii) (s : jsstring) :
  p e = false ->
  startsIn p s = false ->
  startsIn p (replaceAll (Plus q) [e] s) = false.
Proof.
  intros He H. destruct s as [| c s].
  - rewrite collapse_nil. reflexivity.
  - rewrite collapse_cons. destruct (q c); simpl; [exact He | exact H].
Qed.

(** The replacement of the runs of [p] by [d] collapses them. *)
Lemma normalRuns_collapse (p : ascii -> bool) (d : ascii) (s : jsstring) :
  normalRuns p d (replaceAll (Plus p) [d] s) = true.
Proof.
  induction s as [| c s Hc IH | c s Hc IH] using (collapse_ind p).
  - rewrite collapse_nil. reflexivity.
  - rewrite collapse_cons, Hc. apply normalRuns_intro; [| exact IH].
    intros _. split; [reflexivity |].
    pose proof (startsIn_dropWhile p s) as Hs.
    destruct (dropWhile p s) as [| b t].
    + rewrite collapse_nil. reflexivity.
    + rewrite collapse_cons. simpl in Hs. rewrite Hs. simpl. exact Hs.
  - rewrite collapse_cons, Hc. apply normalRuns_intro; [| exact IH].
    intros Hp. congruence.
Qed.

(** A string whose runs are collapsed is left as it is. *)
Lemma collapse_fixed (p : ascii -> bool) (d : ascii) (s : jsstring) :
  normalRuns p d s = true -> replaceAll (Plus p) [d] s = s.
Proof.
  induction s as [| c s IH]; intros H.
  - apply collapse_nil.
  - destruct (normalRuns_cons _ _ _ _ H) as [Hc Hs].
    rewrite collapse_cons. destruct (p c) eqn:E.
    + destruct (Hc eq_refl) as [-> Hstart].
      rewrite (dropWhile_fixed p s Hstart), (IH Hs). reflexivity.
    + rewrite (IH Hs). reflexivity.
Qed.

(** Collapsing the runs of a second class, disjoint from [p], into a
    character outside [p] keeps the runs of [p] collapsed. *)
Lemma normalRuns_collapse_other (p q : ascii -> bool) (d e : ascii)
  (s : jsstring) :
  (forall c, q c = true -> p c = false) ->
  p e = false ->
  normalRuns p d s = true ->
  normalRuns p d (replaceAll (Plus q) [e] s) = true.
Proof.
  intros Hdisj He.
  induction s as [| c s Hc IH | c s Hc IH] using (collapse_ind q); intros H.
  - rewrite collapse_nil. reflexivity.
  - rewrite collapse_cons, Hc. apply normalRuns_intro.
    + intros Hp. congruence.
    + apply IH, normalRuns_dropWhile.
      exact (proj2 (normalRuns_cons _ _ _ _ H)).
  - destruct (normalRuns_cons _ _ _ _ H) as [Hpc Hs].
    rewrite collapse_cons, Hc. apply normalRuns_intro; [| exact (IH Hs)].
    intros Hp. destruct (Hpc Hp) as [-> Hstart]. split; [reflexivity |].
    apply startsIn_collapse; assumption.
Qed.

(* ------------------------------------------------------------------ *)
(** ** normalizeText *)
(* ------------------------------------------------------------------ *)

Lemma punctuation_not_space (c : ascii) :
  oneOf ".,!?" c = true -> isSpace c = false.
Proof.
  destruct c as [[] [] [] [] [] [] [] []]; vm_compute; congruence.
Qed.

Lemma normalizeText_spaces (text : jsstring) :
  normalRuns isSpace " " (normalizeText text) = true.
Proof.
  unfold normalizeText. apply normalRuns_trim.
  apply (normalRuns_collapse_other isSpace (oneOf ".,!?") " " ".").
  - exact punctuation_not_space.
  - reflexivity.
  - apply (normalRuns_collapse isSpace " ").
Qed.

Lemma normalizeText_punctuation (text : jsstring) :
  normalRuns (oneOf ".,!?") "." (normalizeText text) = true.
Proof.
  unfold normalizeText. apply normalRuns_trim.
  apply (normalRuns_collapse (oneOf ".,!?") ".").
Qed.

(** C10: [normalizeText] is idempotent: for every text, normalizing the
    normal form gives it back.  Lower-casing, collapsing the white space,
    collapsing the runs of . , ! ? into one "." and trimming reach a fixed
    point in one application. *)
Theorem normalizeText_idempotent (text : jsstring) :
  normalizeText (normalizeText text) = normalizeText text.
Proof.
  unfold normalizeText at 1.
  rewrite (toLowerCase_fixed _ (normalizeText_chars text)).
  unfold WHITESPACE_RUN, PUNCTUATION_RUN.
  change (str " ") with [" "%char]. change (str ".") with ["."%char].
  rewrite (collapse_fixed isSpace " " _ (normalizeText_spaces text)).
  rewrite (collapse_fixed (oneOf ".,!?") "." _ (normalizeText_punctuation text)).
  unfold normalizeText. apply trim_idempotent.
Qed.

(* ------------------------------------------------------------------ *)
(** ** Patterns described by what is left after a match *)
(* ------------------------------------------------------------------ *)

Lemma firstRest_app (a b : list pos) :
  firstRest (a ++ b)
  = match firstRest a with Some rest => Some rest | None => firstRest b end.
Proof. destruct a as [| [q rest] a]; reflexivity. Qed.

Section RestMatcher.

Variable r : regex.
Variable rep : jsstring.
Variable mr : jsstring -> option jsstring.
Hypothesis ends_mr : forall prev s, firstRest (ends r (prev, s)) = mr s.
Hypothesis mr_suffix :
  forall s rest, mr s = Some rest -> exists pre, pre <> [] /\ s = pre ++ rest.

Lemma matchAt_mr (prev : option ascii) (s : jsstring) :
  matchAt r prev s = lengthFromRest mr s.
Proof.
  unfold matchAt, lengthFromRest. rewrite <- (ends_mr prev s).
  destruct (ends r (prev, s)) as [| [q rest] l]; reflexivity.
Qed.

Lemma lengthFromRest_nil : lengthFromRest mr [] = None.
Proof.
  unfold lengthFromRest. destruct (mr []) as [rest |] eqn:E; [| reflexivity].
  destruct (mr_suffix _ _ E) as (pre & Hpre & Hs).
  destruct pre; [congruence | discriminate].
Qed.

Lemma lengthFromRest_positive (s : jsstring) : lengthFromRest mr s <> Some 0.
Proof.
  unfold lengthFromRest. destruct (mr s) as [rest |] eqn:E; [| discriminate].
  destruct (mr_suffix _ _ E) as (pre & Hpre & ->).
  destruct pre as [| a pre]; [congruence |].
  assert (Hlen : length ((a :: pre) ++ rest) - length rest <> 0)
    by (rewrite length_app; cbn [length]; lia).
  cbn [option_map]. congruence.
Qed.

Lemma replaceAll_rest_nil : replaceAll r rep [] = [].
Proof. exact (replaceAll_nil _ _ _ matchAt_mr lengthFromRest_nil). Qed.

Lemma replaceAll_rest_cons (c : ascii) (s : jsstring) :
  replaceAll r rep (c :: s)
  = match mr (c :: s) with
    | Some rest => rep ++ replaceAll r rep rest
    | None => c :: replaceAll r rep s
    end.
Proof.
  rewrite (replaceAll_cons _ _ _ matchAt_mr lengthFromRest_nil
             lengthFromRest_positive).
  unfold lengthFromRest. destruct (mr (c :: s)) as [rest |] eqn:E;
    [| reflexivity].
  cbn [option_map]. do 2 f_equal.
  destruct (mr_suffix _ _ E) as (pre & Hpre & Hs).
  destruct pre as [| a pre]; [congruence |].
  injection Hs as -> ->.
  replace (Nat.pred (length (a :: pre ++ rest) - length rest))
    with (length pre + 0)
    by (cbn [length]; rewrite length_app; lia).
  rewrite skipn_app, Nat.add_0_r, skipn_all.
  replace (length pre - length pre) with 0 by lia. reflexivity.
Qed.

Lemma replace_rest_ind (Q : jsstring -> Prop) :
  Q [] ->
  (forall c s rest, mr (c :: s) = Some rest -> Q rest -> Q (c :: s)) ->
  (forall c s, mr (c :: s) = None -> Q s -> Q (c :: s)) ->
  forall s, Q s.
Proof.
  intros Hnil Hhit Hmiss.
  apply (replace_ind (lengthFromRest mr) lengthFromRest_positive);
    [exact Hnil | |].
  - intros c s n E HQ. unfold lengthFromRest in E.
    destruct (mr (c :: s)) as [rest |] eqn:Er; [| discriminate].
    apply (Hhit c s rest Er).
    destruct (mr_suffix _ _ Er) as (pre & Hpre & Hs).
    destruct pre as [| a pre]; [congruence |].
    injection Hs as -> ->.
    assert (Hn : length (a :: pre ++ rest) - length rest = S (length pre))
      by (cbn [length]; rewrite length_app; lia).
    cbn [option_map] in E. rewrite Hn in E. injection E as <-.
    rewrite <- (Nat.add_0_r (length pre)) in HQ.
    rewrite skipn_app, Nat.add_0_r, skipn_all in HQ.
    replace (length pre - length pre) with 0 in HQ by lia. exact HQ.
  - intros c s E HQ. unfold lengthFromRest in E.
    destruct (mr (c :: s)) as [rest |] eqn:Er; [discriminate |].
    exact (Hmiss c s Er HQ).
Qed.

End RestMatcher.

(* ------------------------------------------------------------------ *)
(** ** The tag pattern *)
(* ------------------------------------------------------------------ *)

Lemma noneOf_gt (c : ascii) : noneOf ">" c = negb (Ascii.eqb ">" c).
Proof.
  unfold noneOf, oneOf. cbn [str list_ascii_of_string existsb].
  rewrite orb_false_r, Ascii.eqb_sym. reflexivity.
Qed.

Lemma ends_close (s : jsstring) :
  forall prev,
    flat_map (ends (Chr ">")) (starEnds (noneOf ">") prev s)
    = match afterGt s with
      | Some rest => [(Some ">"%char, rest)]
      | None => []
      end.
Proof.
  induction s as [| c s IH]; intros prev; cbn [starEnds afterGt].
  - reflexivity.
  - rewrite noneOf_gt. destruct (Ascii.eqb ">" c) eqn:E; cbn [negb].
    + cbn [flat_map ends Chr snd]. rewrite E.
      apply Ascii.eqb_eq in E. subst c. reflexivity.
    + rewrite flat_map_app, IH. cbn [flat_map ends Chr snd]. rewrite E.
      rewrite !app_nil_r. reflexivity.
Qed.

Lemma ends_HTML_TAG_REGEX (prev : option ascii) (s : jsstring) :
  firstRest (ends HTML_TAG_REGEX (prev, s)) = tagRest s.
Proof.
  unfold HTML_TAG_REGEX, tagRest.
  change (ends (Seq (Chr "<") (Seq (Star (noneOf ">")) (Chr ">"))) (prev, s))
    with (flat_map
            (fun x => flat_map (ends (Chr ">"))
                        (starEnds (noneOf ">") (fst x) (snd x)))
            (ends (Chr "<") (prev, s))).
  destruct s as [| c s]; [reflexivity |].
  cbn [ends Chr snd]. destruct (Ascii.eqb "<" c); [| reflexivity].
  cbn [flat_map fst snd]. rewrite ends_close, app_nil_r.
  destruct (afterGt s); reflexivity.
Qed.

Lemma afterGt_suffix (s rest : jsstring) :
  afterGt s = Some rest -> exists pre, s = pre ++ rest.
Proof.
  revert rest. induction s as [| c s IH]; cbn [afterGt]; intros rest H.
  - discriminate.
  - destruct (Ascii.eqb ">" c).
    + injection H as <-. exists [c]. reflexivity.
    + destruct (IH _ H) as (pre & ->). exists (c :: pre). reflexivity.
Qed.

Lemma tagRest_suffix (s rest : jsstring) :
  tagRest s = Some rest -> exists pre, pre <> [] /\ s = pre ++ rest.
Proof.
  destruct s as [| c s]; cbn [tagRest]; [discriminate |].
  destruct (Ascii.eqb "<" c); [| discriminate].
  intros H. destruct (afterGt_suffix _ _ H) as (pre & ->).
  exists (c :: pre). split; [discriminate | reflexivity].
Qed.

Lemma afterGt_hasGt (s : jsstring) :
  afterGt s = None <-> hasGt s = false.
Proof.
  unfold hasGt. induction s as [| c s IH]; cbn [afterGt existsb]; [tauto |].
  destruct (Ascii.eqb ">" c); cbn [orb]; [split; discriminate | exact IH].
Qed.

Lemma tagRest_None (c : ascii) (s : jsstring) :
  tagRest (c :: s) = None <-> Ascii.eqb "<" c && hasGt s = false.
Proof.
  cbn [tagRest]. destruct (Ascii.eqb "<" c); cbn [andb];
    [apply afterGt_hasGt | tauto].
Qed.

(** How the removal of the tags unfolds. *)
Lemma removeTags_nil : replaceAll HTML_TAG_REGEX [] [] = [].
Proof.
  exact (replaceAll_rest_nil _ _ _ ends_HTML_TAG_REGEX tagRest_suffix).
Qed.

Lemma removeTags_cons (c : ascii) (s : jsstring) :
  replaceAll HTML_TAG_REGEX [] (c :: s)
  = match tagRest (c :: s) with
    | Some rest => replaceAll HTML_TAG_REGEX [] rest
    | None => c :: replaceAll HTML_TAG_REGEX [] s
    end.
Proof.
  exact (replaceAll_rest_cons _ [] _ ends_HTML_TAG_REGEX tagRest_suffix c s).
Qed.

Lemma hasGt_In (s : jsstring) : hasGt s = true <-> In ">"%char s.
Proof.
  unfold hasGt. rewrite existsb_exists. split.
  - intros (c & Hc & E). apply Ascii.eqb_eq in E. subst c. exact Hc.
  - intros H. exists ">"%char. split; [exact H | apply Ascii.eqb_refl].
Qed.

Lemma hasGt_removeTags (s : jsstring) :
  hasGt s = false -> hasGt (replaceAll HTML_TAG_REGEX [] s) = false.
Proof.
  intros H. apply not_true_is_false. intros H'.
  apply hasGt_In in H'. apply replaceAll_In in H' as [[] | H'].
  apply hasGt_In in H'. congruence.
Qed.

(** Once the tags are removed there is no tag left. *)
Lemma noTag_removeTags (s : jsstring) :
  noTag (replaceAll HTML_TAG_REGEX [] s) = true.
Proof.
  induction s as [| c s rest E IH | c s E IH]
    using (replace_rest_ind tagRest tagRest_suffix).
  - rewrite removeTags_nil. reflexivity.
  - rewrite removeTags_cons, E. exact IH.
  - rewrite removeTags_cons, E. cbn [noTag]. rewrite IH, andb_true_r.
    apply tagRest_None in E. apply negb_true_iff.
    destruct (Ascii.eqb "<" c); [| reflexivity].
    cbn [andb] in *. apply hasGt_removeTags. exact E.
Qed.

(** A string without tags is left as it is. *)
Lemma removeTags_fixed (s : jsstring) :
  noTag s = true -> replaceAll HTML_TAG_REGEX [] s = s.
Proof.
  induction s as [| c s IH]; intros H.
  - apply removeTags_nil.
  - cbn [noTag] in H. apply andb_prop in H as [Hc Hs].
    apply negb_true_iff in Hc. apply tagRest_None in Hc.
    rewrite removeTags_cons, Hc, (IH Hs). reflexivity.
Qed.

(* ------------------------------------------------------------------ *)
(** ** Operations that create no tag *)
(* ------------------------------------------------------------------ *)

Lemma thins_refl (s : jsstring) : thins s s.
Proof. induction s; constructor; assumption. Qed.

Lemma thins_add_all (rep o s : jsstring) :
  forallb (fun c => negb (isAngle c)) rep = true ->
  thins o s -> thins (rep ++ o) s.
Proof.
  induction rep as [| a rep IH]; simpl; intros H Ho; [exact Ho |].
  apply andb_prop in H as [Ha Hrep]. apply negb_true_iff in Ha.
  apply thins_add; [exact Ha | exact (IH Hrep Ho)].
Qed.

Lemma thins_replaceGo (r : regex) (rep s : jsstring) :
  forallb (fun c => negb (isAngle c)) rep = true ->
  forall prev skip, thins (replaceGo r rep prev skip s) s.
Proof.
  intros Hrep. induction s as [| a s IH]; intros prev skip.
  - destruct skip; cbn [replaceGo]; [| constructor].
    destruct (matchAt r prev []) as [[| n] |];
      try (apply thins_add_all; [exact Hrep |]); constructor.
  - destruct skip; cbn [replaceGo].
    + destruct (matchAt r prev (a :: s)) as [[| n] |].
      * apply thins_add_all; [exact Hrep |]. apply thins_keep, IH.
      * apply thins_add_all; [exact Hrep |]. apply thins_drop, IH.
      * apply thins_keep, IH.
    + apply thins_drop, IH.
Qed.

Lemma thins_dropWhile (f : ascii -> bool) (s : jsstring) :
  thins (dropWhile f s) s.
Proof.
  induction s as [| c s IH]; cbn [dropWhile]; [constructor |].
  destruct (f c); [apply thins_drop, IH | apply thins_refl].
Qed.

Lemma thins_dropEnd (f : ascii -> bool) (s : jsstring) :
  thins (dropEnd f s) s.
Proof.
  induction s as [| c s IH]; cbn [dropEnd]; [constructor |].
  destruct (dropEnd f s) as [| b kept].
  - destruct (f c); [apply thins_drop, IH | apply thins_keep, IH].
  - apply thins_keep, IH.
Qed.

Lemma thins_hasGt (o s : jsstring) :
  thins o s -> hasGt o = true -> hasGt s = true.
Proof.
  unfold hasGt. induction 1 as [| c o s _ IH | c o s _ IH | c o s Hc _ IH];
    cbn [existsb]; intros H.
  - exact H.
  - rewrite (IH H). apply orb_true_r.
  - apply orb_prop in H as [H | H]; [rewrite H; reflexivity |].
    rewrite (IH H). apply orb_true_r.
  - apply orb_prop in H as [H | H]; [| exact (IH H)].
    unfold isAngle in Hc. rewrite H, orb_true_r in Hc. discriminate.
Qed.

Lemma noTag_thins (o s : jsstring) :
  thins o s -> noTag s = true -> noTag o = true.
Proof.
  induction 1 as [| c o s _ IH | c o s Ht IH | c o s Hc _ IH];
    cbn [noTag]; intros H.
  - reflexivity.
  - apply andb_prop in H as [_ H]. exact (IH H).
  - apply andb_prop in H as [H1 H2]. rewrite (IH H2), andb_true_r.
    apply negb_true_iff in H1. apply negb_true_iff.
    destruct (Ascii.eqb "<" c); [| reflexivity].
    cbn [andb] in *. apply not_true_is_false. intros Hgt.
    rewrite (thins_hasGt _ _ Ht Hgt) in H1. discriminate.
  - rewrite (IH H), andb_true_r.
    unfold isAngle in Hc. apply orb_false_elim in Hc as [-> _]. reflexivity.
Qed.

(* ------------------------------------------------------------------ *)
(** ** The URL pattern *)
(* ------------------------------------------------------------------ *)

Lemma ends_Seq (r1 r2 : regex) (x : pos) :
  ends (Seq r1 r2) x = flat_map (ends r2) (ends r1 x).
Proof. reflexivity. Qed.

Lemma ends_Opt (r : regex) (x : pos) : ends (Opt r) x = ends r x ++ [x].
Proof. reflexivity. Qed.

Lemma ends_Chr (a : ascii) (prev : option ascii) (s : jsstring) :
  ends (Chr a) (prev, s)
  = match s with
    | c :: s' => if Ascii.eqb a c then [(Some c, s')] else []
    | [] => []
    end.
Proof. reflexivity. Qed.

Lemma ends_Lit (l : jsstring) :
  forall prev s,
    ends (Lit l) (prev, s)
    = match stripPrefix l s with
      | Some rest => [(lastOr prev l, rest)]
      | None => []
      end.
Proof.
  induction l as [| a l IH]; intros prev s.
  - reflexivity.
  - cbn [Lit]. rewrite ends_Seq, ends_Chr. cbn [stripPrefix lastOr fold_left].
    destruct s as [| c s]; [reflexivity |].
    destruct (Ascii.eqb a c) eqn:E; [| reflexivity].
    cbn [flat_map]. rewrite app_nil_r, IH.
    apply Ascii.eqb_eq in E. subst c. reflexivity.
Qed.

Lemma ends_Plus_rest (p : ascii -> bool) (prev : option ascii) (s : jsstring) :
  firstRest (ends (Plus p) (prev, s)) = runRest p s.
Proof.
  unfold Plus, runRest. rewrite ends_Seq. cbn [ends snd].
  destruct s as [| c s]; [reflexivity |].
  destruct (p c); [| reflexivity].
  cbn [flat_map ends fst snd]. rewrite app_nil_r.
  destruct (starEnds_head p s (Some c)) as (q & rest & ->). reflexivity.
Qed.

Lemma ends_url_tail (prev : option ascii) (s : jsstring) :
  firstRest (ends (Seq (Lit (str "://")) (Plus notSpace)) (prev, s))
  = urlTailRest s.
Proof.
  unfold urlTailRest. rewrite ends_Seq, ends_Lit.
  destruct (stripPrefix (str "://") s) as [rest |]; [| reflexivity].
  cbn [flat_map]. rewrite app_nil_r. apply ends_Plus_rest.
Qed.

Lemma ends_URL_REGEX (prev : option ascii) (s : jsstring) :
  firstRest (ends URL_REGEX (prev, s)) = urlRest s.
Proof.
  unfold URL_REGEX, urlRest. rewrite ends_Seq, ends_Lit.
  destruct (stripPrefix (str "http") s) as [r1 |]; [| reflexivity].
  cbn [flat_map]. rewrite app_nil_r, ends_Seq, ends_Opt, flat_map_app.
  rewrite firstRest_app. cbn [flat_map]. rewrite app_nil_r, ends_url_tail.
  rewrite ends_Chr. destruct r1 as [| c r2]; [reflexivity |].
  destruct (Ascii.eqb "s" c); [| reflexivity].
  cbn [flat_map]. rewrite app_nil_r, ends_url_tail. reflexivity.
Qed.

Lemma stripPrefix_Some (pat s rest : jsstring) :
  stripPrefix pat s = Some rest -> s = pat ++ rest.
Proof.
  revert s. induction pat as [| a pat IH]; intros s; cbn [stripPrefix].
  - intros H. injection H as ->. reflexivity.
  - destruct s as [| c s]; [discriminate |].
    destruct (Ascii.eqb a c) eqn:E; [| discriminate].
    apply Ascii.eqb_eq in E. subst c. intros H.
    rewrite (IH _ H). reflexivity.
Qed.

Lemma dropWhile_suffix (p : ascii -> bool) (s : jsstring) :
  exists mid, s = mid ++ dropWhile p s.
Proof.
  induction s as [| c s (mid & IH)]; cbn [dropWhile].
  - exists []. reflexivity.
  - destruct (p c).
    + exists (c :: mid). cbn [app]. rewrite <- IH. reflexivity.
    + exists []. reflexivity.
Qed.

Lemma urlTailRest_shape (s rest : jsstring) :
  urlTailRest s = Some rest ->
  exists c mid,
    s = str "://" ++ c :: mid ++ rest
    /\ isSpace c = false /\ startsIn notSpace rest = false.
Proof.
  unfold urlTailRest.
  destruct (stripPrefix (str "://") s) as [r3 |] eqn:E; [| discriminate].
  apply stripPrefix_Some in E. subst s.
  destruct r3 as [| c x]; cbn [runRest]; [discriminate |].
  destruct (notSpace c) eqn:Hc; [| discriminate].
  intros H. injection H as <-.
  destruct (dropWhile_suffix notSpace x) as (mid & Hx).
  exists c, mid. split; [rewrite <- Hx; reflexivity | split].
  - unfold notSpace in Hc. apply negb_true_iff in Hc. exact Hc.
  - apply startsIn_dropWhile.
Qed.

(** A URL is "http://" or "https://", one character that is not white
    space, and what follows up to the next white space. *)
Lemma urlRest_shape (s rest : jsstring) :
  urlRest s = Some rest ->
  exists pre c mid,
    (pre = str "http://" \/ pre = str "https://")
    /\ s = pre ++ c :: mid ++ rest
    /\ isSpace c = false /\ startsIn notSpace rest = false.
Proof.
  unfold urlRest.
  destruct (stripPrefix (str "http") s) as [r1 |] eqn:E; [| discriminate].
  apply stripPrefix_Some in E. subst s.
  assert (Hplain : urlTailRest r1 = Some rest ->
    exists pre c mid,
      (pre = str "http://" \/ pre = str "https://")
      /\ str "http" ++ r1 = pre ++ c :: mid ++ rest
      /\ isSpace c = false /\ startsIn notSpace rest = false).
  { intros H. destruct (urlTailRest_shape _ _ H) as (c & mid & -> & Hc & Hr).
    exists (str "http://"), c, mid. repeat split; auto. }
  destruct r1 as [| c r2]; [exact Hplain |].
  destruct (Ascii.eqb "s" c) eqn:Es; [| exact Hplain].
  destruct (urlTailRest r2) as [rest' |] eqn:Et; [| exact Hplain].
  intros H. injection H as ->.
  apply Ascii.eqb_eq in Es. subst c.
  destruct (urlTailRest_shape _ _ Et) as (c & mid & -> & Hc & Hr).
  exists (str "https://"), c, mid. repeat split; auto.
Qed.

Lemma urlRest_suffix (s rest : jsstring) :
  urlRest s = Some rest -> exists pre, pre <> [] /\ s = pre ++ rest.
Proof.
  intros H. destruct (urlRest_shape _ _ H) as (pre & c & mid & Hpre & -> & _).
  exists (pre ++ c :: mid). split.
  - destruct Hpre as [-> | ->]; discriminate.
  - rewrite <- app_assoc. reflexivity.
Qed.

Lemma urlRest_intro (pre : jsstring) (c : ascii) (x : jsstring) :
  pre = str "http://" \/ pre = str "https://" ->
  isSpace c = false ->
  urlRest (pre ++ c :: x) = Some (dropWhile notSpace x).
Proof.
  intros Hpre Hc.
  assert (Hn : notSpace c = true) by (unfold notSpace; rewrite Hc; reflexivity).
  destruct Hpre as [-> | ->]; unfold urlRest, urlTailRest;
    cbn -[notSpace dropWhile]; rewrite Hn; reflexivity.
Qed.

(** How the removal of the URLs unfolds. *)
Lemma removeUrls_nil : replaceAll URL_REGEX [] [] = [].
Proof. exact (replaceAll_rest_nil _ _ _ ends_URL_REGEX urlRest_suffix). Qed.

Lemma removeUrls_cons (c : ascii) (s : jsstring) :
  replaceAll URL_REGEX [] (c :: s)
  = match urlRest (c :: s) with
    | Some rest => replaceAll URL_REGEX [] rest
    | None => c :: replaceAll URL_REGEX [] s
    end.
Proof.
  exact (replaceAll_rest_cons _ [] _ ends_URL_REGEX urlRest_suffix c s).
Qed.

(** No URL starts with white space. *)
Lemma urlRest_space (c : ascii) (s : jsstring) :
  isSpace c = true -> urlRest (c :: s) = None.
Proof.
  intros Hc. destruct (urlRest (c :: s)) as [rest |] eqn:E; [| reflexivity].
  destruct (urlRest_shape _ _ E) as (pre & a & mid & Hpre & Hs & _).
  destruct Hpre as [-> | ->]; injection Hs as -> _; discriminate.
Qed.

(* ------------------------------------------------------------------ *)
(** ** Operations that create no URL *)
(* ------------------------------------------------------------------ *)

Lemma agree_prefix (a o s : jsstring) :
  forallb notSpace a = true ->
  agree (a ++ o) s -> exists s', s = a ++ s' /\ agree o s'.
Proof.
  revert s. induction a as [| b a IH]; intros s Ha H.
  - exists s. split; [reflexivity | exact H].
  - cbn [forallb] in Ha. apply andb_prop in Ha as [Hb Ha].
    unfold notSpace in Hb. apply negb_true_iff in Hb.
    inversion H as [| c o' s0 Hc | c o' s0 Hagree]; subst.
    + congruence.
    + destruct (IH _ Ha Hagree) as (s' & -> & Hs').
      exists s'. split; [reflexivity | exact Hs'].
Qed.

(** If a URL starts at [o], and [s] is the same as [o] up to the first
    white space of [o], a URL starts at [s]. *)
Lemma urlRest_agree (o s : jsstring) :
  agree o s -> urlRest s = None -> urlRest o = None.
Proof.
  intros Hag Hs. destruct (urlRest o) as [rest |] eqn:E; [| reflexivity].
  destruct (urlRest_shape _ _ E) as (pre & c & mid & Hpre & -> & Hc & _).
  assert (Hns : forallb notSpace (pre ++ [c]) = true).
  { rewrite forallb_app. cbn [forallb]. unfold notSpace at 2. rewrite Hc.
    destruct Hpre as [-> | ->]; reflexivity. }
  change (pre ++ c :: mid ++ rest) with (pre ++ [c] ++ mid ++ rest) in Hag.
  rewrite app_assoc in Hag.
  destruct (agree_prefix _ _ _ Hns Hag) as (s' & -> & _).
  rewrite <- app_assoc in Hs. cbn [app] in Hs.
  rewrite (urlRest_intro _ _ _ Hpre Hc) in Hs. discriminate.
Qed.

Lemma noUrl_cons (c : ascii) (s : jsstring) :
  noUrl (c :: s) = true <-> urlRest (c :: s) = None /\ noUrl s = true.
Proof.
  cbn [noUrl]. destruct (urlRest (c :: s)); split.
  - discriminate.
  - intros [H _]. discriminate.
  - auto.
  - tauto.
Qed.

Lemma noUrl_dropWhile (f : ascii -> bool) (s : jsstring) :
  noUrl s = true -> noUrl (dropWhile f s) = true.
Proof.
  induction s as [| c s IH]; [auto |].
  intros H. cbn [dropWhile]. destruct (f c); [| exact H].
  apply IH. exact (proj2 (proj1 (noUrl_cons c s) H)).
Qed.

Lemma agree_dropEnd (f : ascii -> bool) (s : jsstring) :
  agree (dropEnd f s) s.
Proof.
  induction s as [| c s IH]; cbn [dropEnd]; [constructor |].
  destruct (dropEnd f s) as [| b kept].
  - destruct (f c); [apply agree_nil | apply agree_cons, agree_nil].
  - apply agree_cons, IH.
Qed.

Lemma noUrl_dropEnd (f : ascii -> bool) (s : jsstring) :
  noUrl s = true -> noUrl (dropEnd f s) = true.
Proof.
  induction s as [| c s IH]; [auto |].
  intros H. apply noUrl_cons in H as [Hc Hs].
  pose proof (agree_dropEnd f s) as Hag. specialize (IH Hs).
  cbn [dropEnd]. destruct (dropEnd f s) as [| b kept].
  - destruct (f c); [reflexivity |].
    apply noUrl_cons. split; [| reflexivity].
    apply (urlRest_agree _ _ (agree_cons c _ _ Hag) Hc).
  - apply noUrl_cons. split; [| exact IH].
    apply (urlRest_agree _ _ (agree_cons c _ _ Hag) Hc).
Qed.

Lemma noUrl_trim (s : jsstring) : noUrl s = true -> noUrl (trim s) = true.
Proof.
  intros H. unfold trim. apply noUrl_dropEnd, noUrl_dropWhile, H.
Qed.

Lemma agree_removeUrls (s : jsstring) : agree (replaceAll URL_REGEX [] s) s.
Proof.
  induction s as [| c s IH].
  - rewrite removeUrls_nil. constructor.
  - rewrite removeUrls_cons. destruct (urlRest (c :: s)) as [rest |] eqn:E.
    + destruct (urlRest_shape _ _ E) as (_ & _ & _ & _ & _ & _ & Hrest).
      destruct rest as [| b rest]; [rewrite removeUrls_nil; constructor |].
      cbn [startsIn] in Hrest. unfold notSpace in Hrest.
      apply negb_false_iff in Hrest.
      rewrite removeUrls_cons, (urlRest_space _ _ Hrest).
      apply agree_space. exact Hrest.
    + apply agree_cons, IH.
Qed.

(** Once the URLs are removed there is no URL left. *)
Lemma noUrl_removeUrls (s : jsstring) :
  noUrl (replaceAll URL_REGEX [] s) = true.
Proof.
  induction s as [| c s rest E IH | c s E IH]
    using (replace_rest_ind urlRest urlRest_suffix).
  - rewrite removeUrls_nil. reflexivity.
  - rewrite removeUrls_cons, E. exact IH.
  - rewrite removeUrls_cons, E. apply noUrl_cons. split; [| exact IH].
    exact (urlRest_agree _ _ (agree_cons c _ _ (agree_removeUrls s)) E).
Qed.

(** A string without URLs is left as it is. *)
Lemma removeUrls_fixed (s : jsstring) :
  noUrl s = true -> replaceAll URL_REGEX [] s = s.
Proof.
  induction s as [| c s IH]; intros H.
  - apply removeUrls_nil.
  - apply noUrl_cons in H as [Hc Hs].
    rewrite removeUrls_cons, Hc, (IH Hs). reflexivity.
Qed.

Lemma agree_collapse_spaces (s : jsstring) :
  agree (replaceAll (Plus isSpace) [" "%char] s) s.
Proof.
  induction s as [| c s IH].
  - rewrite collapse_nil. constructor.
  - rewrite collapse_cons. destruct (isSpace c).
    + apply agree_space. reflexivity.
    + apply agree_cons, IH.
Qed.

Lemma noUrl_collapse_spaces (s : jsstring) :
  noUrl s = true -> noUrl (replaceAll (Plus isSpace) [" "%char] s) = true.
Proof.
  induction s as [| c s Hc IH | c s Hc IH] using (collapse_ind isSpace);
    intros H.
  - rewrite collapse_nil. reflexivity.
  - rewrite collapse_cons, Hc. apply noUrl_cons. split.
    + apply urlRest_space. reflexivity.
    + apply IH, noUrl_dropWhile. exact (proj2 (proj1 (noUrl_cons c s) H)).
  - apply noUrl_cons in H as [Hurl Hs].
    rewrite collapse_cons, Hc. apply noUrl_cons. split; [| exact (IH Hs)].
    exact (urlRest_agree _ _ (agree_cons c _ _ (agree_collapse_spaces s)) Hurl).
Qed.

(* ------------------------------------------------------------------ *)
(** ** sanitizeText *)
(* ------------------------------------------------------------------ *)

(** The early return for the empty text agrees with the general path. *)
Lemma sanitizeText_unfold (text : jsstring) :
  sanitizeText text
  = trim
      (replaceAll (Plus isSpace) [" "%char]
         (replaceAll URL_REGEX []
            (replaceAll HTML_TAG_REGEX [] text))).
Proof.
  destruct text as [| c text]; [| reflexivity].
  rewrite removeTags_nil, removeUrls_nil, collapse_nil. reflexivity.
Qed.

Lemma sanitizeText_noTag (text : jsstring) :
  noTag (sanitizeText text) = true.
Proof.
  rewrite sanitizeText_unfold. unfold trim.
  apply (noTag_thins _ _ (thins_dropEnd _ _)).
  apply (noTag_thins _ _ (thins_dropWhile _ _)).
  apply (noTag_thins _ _
           (thins_replaceGo (Plus isSpace) [" "%char] _ eq_refl None 0)).
  apply (noTag_thins _ _ (thins_replaceGo URL_REGEX [] _ eq_refl None 0)).
  apply noTag_removeTags.
Qed.

Lemma sanitizeText_noUrl (text : jsstring) :
  noUrl (sanitizeText text) = true.
Proof.
  rewrite sanitizeText_unfold.
  apply noUrl_trim, noUrl_collapse_spaces, noUrl_removeUrls.
Qed.

Lemma sanitizeText_spaces (text : jsstring) :
  normalRuns isSpace " " (sanitizeText text) = true.
Proof.
  rewrite sanitizeText_unfold. apply normalRuns_trim, normalRuns_collapse.
Qed.

(** C7: [sanitizeText] is idempotent: for every string [x],
    sanitizing the sanitized string gives it back.  Removing the tags,
    removing the URLs, collapsing the white space and trimming a second
    time leave the result unchanged. *)
Theorem sanitizeText_idempotent (x : jsstring) :
  sanitizeText (sanitizeText x) = sanitizeText x.
Proof.
  rewrite (sanitizeText_unfold (sanitizeText x)).
  rewrite (removeTags_fixed _ (sanitizeText_noTag x)).
  rewrite (removeUrls_fixed _ (sanitizeText_noUrl x)).
  rewrite (collapse_fixed isSpace " " _ (sanitizeText_spaces x)).
  rewrite (sanitizeText_unfold x). apply trim_idempotent.
Qed.

(* ------------------------------------------------------------------ *)
(** ** The order of the word table *)
(* ------------------------------------------------------------------ *)

Lemma keyEqb_eq (a b : jsstring) : keyEqb a b = true <-> a = b.
Proof.
  unfold keyEqb. destruct (list_eq_dec ascii_dec a b); split; congruence.
Qed.

Lemma keyEqb_neq (a b : jsstring) : keyEqb a b = false <-> a <> b.
Proof.
  unfold keyEqb. destruct (list_eq_dec ascii_dec a b); split; congruence.
Qed.

Lemma firstIndex_lt (w : jsstring) (l : list jsstring) :
  In w l -> firstIndex w l < length l.
Proof.
  induction l as [| t l IH]; cbn [firstIndex length]; intros H.
  - contradiction.
  - destruct (keyEqb w t) eqn:E; [lia |].
    apply keyEqb_neq in E. destruct H as [H | H]; [congruence |].
    specialize (IH H). lia.
Qed.

Lemma firstIndex_app_In (w : jsstring) (l l' : list jsstring) :
  In w l -> firstIndex w (l ++ l') = firstIndex w l.
Proof.
  induction l as [| t l IH]; cbn [firstIndex app]; intros H.
  - contradiction.
  - destruct (keyEqb w t) eqn:E; [reflexivity |].
    apply keyEqb_neq in E. destruct H as [H | H]; [congruence |].
    rewrite (IH H). reflexivity.
Qed.

Lemma firstIndex_app_new (w : jsstring) (l : list jsstring) :
  ~ In w l -> firstIndex w (l ++ [w]) = length l.
Proof.
  induction l as [| t l IH]; cbn [firstIndex app length]; intros H.
  - replace (keyEqb w w) with true by (symmetry; apply keyEqb_eq; reflexivity).
    reflexivity.
  - destruct (keyEqb w t) eqn:E.
    + apply keyEqb_eq in E. subst t. exfalso. apply H. left. reflexivity.
    + rewrite IH; [reflexivity |]. intros Hin. apply H. right. exact Hin.
Qed.

Section Sortedness.

Context {A : Type}.

Lemma StronglySorted_app (R : A -> A -> Prop) (l1 l2 : list A) :
  StronglySorted R l1 -> StronglySorted R l2 ->
  (forall x y, In x l1 -> In y l2 -> R x y) ->
  StronglySorted R (l1 ++ l2).
Proof.
  induction l1 as [| a l1 IH]; cbn [app]; intros H1 H2 H12; [exact H2 |].
  apply StronglySorted_inv in H1 as [H1 Ha]. constructor.
  - apply IH; [exact H1 | exact H2 |].
    intros x y Hx Hy. apply H12; [right; exact Hx | exact Hy].
  - apply Forall_app. split; [exact Ha |].
    apply Forall_forall. intros y Hy. apply H12; [left; reflexivity | exact Hy].
Qed.

(** The relation may be exchanged for one that holds of the elements of
    the list whenever the first one does. *)
Lemma StronglySorted_impl_In (R R' : A -> A -> Prop) (l : list A) :
  (forall x y, In x l -> In y l -> R x y -> R' x y) ->
  StronglySorted R l -> StronglySorted R' l.
Proof.
  induction l as [| a l IH]; intros Himp H; [constructor |].
  apply StronglySorted_inv in H as [H Ha]. constructor.
  - apply IH; [| exact H]. intros x y Hx Hy. apply Himp; right; assumption.
  - apply Forall_forall. intros y Hy.
    apply Himp; [left; reflexivity | right; exact Hy |].
    exact (proj1 (Forall_forall _ _) Ha y Hy).
Qed.

Lemma StronglySorted_filter (R : A -> A -> Prop) (p : A -> bool)
  (l : list A) :
  StronglySorted R l -> StronglySorted R (filter p l).
Proof.
  induction l as [| a l IH]; cbn [filter]; intros H; [constructor |].
  apply StronglySorted_inv in H as [H Ha]. destruct (p a); [| exact (IH H)].
  constructor; [exact (IH H) |].
  apply Forall_forall. intros y Hy. apply filter_In in Hy as [Hy _].
  exact (proj1 (Forall_forall _ _) Ha y Hy).
Qed.

Lemma StronglySorted_firstn (R : A -> A -> Prop) (n : nat) (l : list A) :
  StronglySorted R l -> StronglySorted R (firstn n l).
Proof.
  revert l. induction n as [| n IH]; intros l H; [constructor |].
  destruct l as [| a l]; [constructor |].
  apply StronglySorted_inv in H as [H Ha]. cbn [firstn]. constructor.
  - exact (IH l H).
  - apply Forall_forall. intros y Hy. apply In_firstn_In in Hy.
    exact (proj1 (Forall_forall _ _) Ha y Hy).
Qed.

Lemma StronglySorted_AllPairs (R : A -> A -> Prop) (l : list A) :
  StronglySorted R l -> AllPairs R l.
Proof.
  unfold AllPairs. induction l as [| a l IH]; intros H i j e f Hij Hi Hj.
  - destruct i; discriminate.
  - apply StronglySorted_inv in H as [H Ha].
    destruct j as [| j]; [lia |]. cbn [nth_error] in Hj.
    destruct i as [| i].
    + cbn [nth_error] in Hi. injection Hi as <-.
      exact (proj1 (Forall_forall _ _) Ha f (nth_error_In _ _ Hj)).
    + cbn [nth_error] in Hi. apply (IH H i j); [lia | exact Hi | exact Hj].
Qed.

End Sortedness.

Lemma StronglySorted_map_fst (R : jsstring -> jsstring -> Prop)
  (l : list (jsstring * value)) :
  StronglySorted R (map fst l) ->
  StronglySorted (fun e f => R (fst e) (fst f)) l.
Proof.
  induction l as [| a l IH]; cbn [map]; intros H; [constructor |].
  apply StronglySorted_inv in H as [H Ha]. constructor; [exact (IH H) |].
  apply Forall_forall. intros y Hy.
  exact (proj1 (Forall_forall _ _) Ha (fst y) (in_map fst _ _ Hy)).
Qed.

Lemma getOwn_Some (o : jsobject) (k : jsstring) (v : value) :
  getOwn o k = Some v -> In (k, v) o.
Proof.
  induction o as [| [k' v'] o IH]; cbn [getOwn]; [discriminate |].
  destruct (keyEqb k k') eqn:E.
  - apply keyEqb_eq in E. subst k'. intros H. injection H as ->.
    left. reflexivity.
  - intros H. right. exact (IH H).
Qed.

Lemma getOwn_None (o : jsobject) (k : jsstring) :
  getOwn o k = None -> ~ In k (map fst o).
Proof.
  induction o as [| [k' v'] o IH]; cbn [getOwn map fst]; [tauto |].
  destruct (keyEqb k k') eqn:E; [discriminate |].
  apply keyEqb_neq in E. intros H [Hk | Hk]; [congruence | exact (IH H Hk)].
Qed.

Lemma updateOwn_keys (o : jsobject) (k : jsstring) (v : value) :
  map fst (updateOwn o k v) = map fst o.
Proof.
  induction o as [| [k' v'] o IH]; cbn [updateOwn map fst]; [reflexivity |].
  destruct (keyEqb k k'); cbn [map fst]; [reflexivity |].
  rewrite IH. reflexivity.
Qed.

Lemma updateOwn_In (o : jsobject) (k : jsstring) (v : value)
  (e : jsstring * value) :
  In e (updateOwn o k v) -> In e o \/ snd e = v.
Proof.
  induction o as [| [k' v'] o IH]; cbn [updateOwn]; [tauto |].
  destruct (keyEqb k k').
  - intros [<- | H]; [right; reflexivity | left; right; exact H].
  - intros [<- | H]; [left; left; reflexivity |].
    destruct (IH H); [left; right; assumption | right; assumption].
Qed.

Lemma notInherited_no_proto (w : jsstring) :
  notInherited w = true ->
  inheritedAsString w = None /\ keyEqb w (str "__proto__") = false.
Proof.
  unfold notInherited, inheritedAsString.
  destruct (keyEqb w (str "__proto__")); [discriminate |].
  destruct (keyEqb w (str "constructor")); [discriminate |].
  destruct (existsb (keyEqb w) inheritedMethods); [discriminate |].
  split; reflexivity.
Qed.

Lemma byFirstIndex_app (init : list jsstring) (w a b : jsstring) :
  In a init -> In b init ->
  byFirstIndex init a b -> byFirstIndex (init ++ [w]) a b.
Proof.
  unfold byFirstIndex. intros Ha Hb H.
  rewrite !firstIndex_app_In by assumption. exact H.
Qed.

(** The table after one more token. *)
Lemma TableInvariant_step (minLength : Z) (init : list jsstring)
  (w : jsstring) (table : jsobject) :
  notInherited w = true ->
  TableInvariant minLength init table ->
  TableInvariant minLength (init ++ [w]) (countWord minLength table w).
Proof.
  intros Hw [Hcounts Hmet Hkept Hord].
  assert (Hord' : StronglySorted (byFirstIndex (init ++ [w])) (map fst table)).
  { apply (StronglySorted_impl_In (byFirstIndex init)); [| exact Hord].
    intros a b Ha Hb. apply byFirstIndex_app; auto. }
  unfold countWord. destruct (minLength <? Z.of_nat (length w))%Z eqn:Hlen.
  - apply Z.ltb_lt in Hlen. unfold setProperty.
    destruct (getOwn table w) as [v |] eqn:Hget.
    + pose proof (getOwn_Some _ _ _ Hget) as Hin.
      constructor.
      * apply Forall_forall. intros e He.
        apply updateOwn_In in He as [He | He].
        -- exact (proj1 (Forall_forall _ _) Hcounts e He).
        -- rewrite He. unfold incremented. rewrite Hget.
           destruct (proj1 (Forall_forall _ _) Hcounts _ Hin) as (n & Hn).
           cbn [snd] in Hn. subst v.
           destruct n; [exists 1 | exists (S n + 1)]; reflexivity.
      * rewrite updateOwn_keys. intros k Hk.
        apply in_or_app. left. exact (Hmet k Hk).
      * rewrite updateOwn_keys. intros x Hx Hlx.
        apply in_app_or in Hx as [Hx | [<- | []]]; [exact (Hkept x Hx Hlx) |].
        exact (in_map fst _ _ Hin).
      * rewrite updateOwn_keys. exact Hord'.
    + destruct (notInherited_no_proto _ Hw) as [Hinh Hproto].
      rewrite Hproto.
      assert (Hnew : ~ In w init).
      { intros Hin. exact (getOwn_None _ _ Hget (Hkept w Hin Hlen)). }
      constructor.
      * apply Forall_app. split; [exact Hcounts |].
        constructor; [| constructor].
        unfold incremented. rewrite Hget, Hinh. exists 1. reflexivity.
      * rewrite map_app. intros k Hk.
        apply in_app_or in Hk as [Hk | [<- | []]]; apply in_or_app;
          [left; exact (Hmet k Hk) | right; left; reflexivity].
      * rewrite map_app. intros x Hx Hlx. apply in_or_app.
        apply in_app_or in Hx as [Hx | [<- | []]];
          [left; exact (Hkept x Hx Hlx) | right; left; reflexivity].
      * rewrite map_app. cbn [map fst].
        apply StronglySorted_app; [exact Hord' | |].
        -- constructor; constructor.
        -- intros a b Ha [Hb | []]. subst b. unfold byFirstIndex.
           rewrite (firstIndex_app_In _ _ _ (Hmet a Ha)).
           rewrite (firstIndex_app_new _ _ Hnew).
           exact (firstIndex_lt _ _ (Hmet a Ha)).
  - apply Z.ltb_ge in Hlen. constructor.
    + exact Hcounts.
    + intros k Hk. apply in_or_app. left. exact (Hmet k Hk).
    + intros x Hx Hlx.
      apply in_app_or in Hx as [Hx | [<- | []]]; [exact (Hkept x Hx Hlx) | lia].
    + exact Hord'.
Qed.

Lemma TableInvariant_countWords (minLength : Z) (tokens : list jsstring) :
  forallb notInherited tokens = true ->
  TableInvariant minLength tokens (fold_left (countWord minLength) tokens []).
Proof.
  induction tokens as [| w init IH] using rev_ind; intros H.
  - constructor; cbn; try constructor; intros; contradiction.
  - rewrite forallb_app in H. apply andb_prop in H as [Hinit Hw].
    cbn [forallb] in Hw. rewrite andb_true_r in Hw.
    rewrite fold_left_app. cbn [fold_left].
    apply TableInvariant_step; [exact Hw | exact (IH Hinit)].
Qed.

(* ------------------------------------------------------------------ *)
(** ** The order of [Object.entries] *)
(* ------------------------------------------------------------------ *)

Lemma listedBefore_indices (tokens : list jsstring) (a b : jsstring) :
  isArrayIndex a = true -> isArrayIndex b = true ->
  (listedBefore tokens a b <-> (indexOf a <= indexOf b)%N).
Proof.
  unfold isArrayIndex, listedBefore, indexOf.
  destruct (arrayIndex a); [| discriminate].
  destruct (arrayIndex b); [| discriminate]. tauto.
Qed.

Lemma insertByIndex_In (e x : jsstring * value) (l : list (jsstring * value)) :
  In x (insertByIndex e l) -> x = e \/ In x l.
Proof.
  induction l as [| f l IH]; cbn [insertByIndex].
  - intros [<- | []]. left. reflexivity.
  - destruct (indexOf (fst e) <=? indexOf (fst f))%N.
    + intros [<- | H]; [left; reflexivity | right; exact H].
    + intros [<- | H]; [right; left; reflexivity |].
      destruct (IH H); [left; assumption | right; right; assumption].
Qed.

Lemma insertByIndex_sorted (tokens : list jsstring) (e : jsstring * value)
  (l : list (jsstring * value)) :
  isArrayIndex (fst e) = true ->
  Forall (fun f => isArrayIndex (fst f) = true) l ->
  StronglySorted (fun x y => listedBefore tokens (fst x) (fst y)) l ->
  StronglySorted (fun x y => listedBefore tokens (fst x) (fst y))
    (insertByIndex e l).
Proof.
  intros He. induction l as [| f l IH]; intros Hl Hs; cbn [insertByIndex].
  - constructor; constructor.
  - apply Forall_cons_iff in Hl as [Hf Hl].
    pose proof (StronglySorted_inv Hs) as [Hs' Hfl].
    destruct (indexOf (fst e) <=? indexOf (fst f))%N eqn:E.
    + apply N.leb_le in E. constructor; [exact Hs |].
      constructor; [apply listedBefore_indices; assumption |].
      apply Forall_forall. intros x Hx.
      pose proof (proj1 (Forall_forall _ _) Hl x Hx) as Hxi. cbn beta in Hxi.
      pose proof (proj1 (Forall_forall _ _) Hfl x Hx) as Hfx. cbn beta in Hfx.
      apply listedBefore_indices in Hfx; [| assumption | assumption].
      apply listedBefore_indices; [assumption | assumption | lia].
    + apply N.leb_gt in E. constructor; [exact (IH Hl Hs') |].
      apply Forall_forall. intros x Hx.
      apply insertByIndex_In in Hx as [-> | Hx].
      * apply listedBefore_indices; [assumption | assumption | lia].
      * exact (proj1 (Forall_forall _ _) Hfl x Hx).
Qed.

Lemma sortByIndex_In (x : jsstring * value) (l : list (jsstring * value)) :
  In x (fold_right insertByIndex [] l) -> In x l.
Proof.
  induction l as [| e l IH]; cbn [fold_right]; [auto |].
  intros H. apply insertByIndex_In in H as [-> | H];
    [left; reflexivity | right; exact (IH H)].
Qed.

Lemma sortByIndex_sorted (tokens : list jsstring)
  (l : list (jsstring * value)) :
  Forall (fun f => isArrayIndex (fst f) = true) l ->
  StronglySorted (fun x y => listedBefore tokens (fst x) (fst y))
    (fold_right insertByIndex [] l).
Proof.
  induction l as [| e l IH]; intros Hl; cbn [fold_right]; [constructor |].
  apply Forall_cons_iff in Hl as [He Hl].
  apply insertByIndex_sorted; [exact He | | exact (IH Hl)].
  apply Forall_forall. intros x Hx. apply sortByIndex_In in Hx.
  exact (proj1 (Forall_forall _ _) Hl x Hx).
Qed.

(** The entries of the table stand as [listedBefore] says. *)
Lemma entries_listed (minLength : Z) (tokens : list jsstring)
  (table : jsobject) :
  TableInvariant minLength tokens table ->
  StronglySorted (fun x y => listedBefore tokens (fst x) (fst y))
    (entries table).
Proof.
  intros [_ _ _ Hord]. unfold entries. apply StronglySorted_app.
  - apply sortByIndex_sorted, Forall_forall. intros x Hx.
    apply filter_In in Hx as [_ Hx]. exact Hx.
  - apply StronglySorted_map_fst in Hord.
    apply (StronglySorted_filter _ (fun e => negb (isArrayIndex (fst e))))
      in Hord.
    revert Hord. apply StronglySorted_impl_In.
    intros x y Hx Hy H.
    apply filter_In in Hx as [_ Hx]. apply filter_In in Hy as [_ Hy].
    apply negb_true_iff in Hx. apply negb_true_iff in Hy.
    unfold isArrayIndex in Hx, Hy. unfold listedBefore.
    destruct (arrayIndex (fst x)); [discriminate |].
    destruct (arrayIndex (fst y)); [discriminate |]. exact H.
  - intros x y Hx Hy. apply sortByIndex_In in Hx.
    apply filter_In in Hx as [_ Hx]. apply filter_In in Hy as [_ Hy].
    apply negb_true_iff in Hy. unfold isArrayIndex in Hx, Hy.
    unfold listedBefore.
    destruct (arrayIndex (fst x)); [| discriminate].
    destruct (arrayIndex (fst y)); [discriminate | exact I].
Qed.

Lemma entries_In (x : jsstring * value) (table : jsobject) :
  In x (entries table) -> In x table.
Proof.
  unfold entries. intros H. apply in_app_or in H as [H | H].
  - apply sortByIndex_In in H. apply filter_In in H as [H _]. exact H.
  - apply filter_In in H as [H _]. exact H.
Qed.

(* ------------------------------------------------------------------ *)
(** ** The sort by count is stable *)
(* ------------------------------------------------------------------ *)

Lemma insertSorted_In (e x : jsstring * value) (l : list (jsstring * value)) :
  In x (insertSorted e l) -> x = e \/ In x l.
Proof.
  induction l as [| f l IH]; cbn [insertSorted].
  - intros [<- | []]. left. reflexivity.
  - destruct (compareCounts (snd e) (snd f) <=? 0)%Z.
    + intros [<- | H]; [left; reflexivity | right; exact H].
    + intros [<- | H]; [right; left; reflexivity |].
      destruct (IH H); [left; assumption | right; right; assumption].
Qed.

Lemma sortByCount_In (x : jsstring * value) (l : list (jsstring * value)) :
  In x (sortByCount l) -> In x l.
Proof.
  unfold sortByCount. induction l as [| e l IH]; cbn [fold_right]; [auto |].
  intros H. apply insertSorted_In in H as [-> | H];
    [left; reflexivity | right; exact (IH H)].
Qed.

Lemma insertSorted_sorted (tokens : list jsstring) (e : jsstring * value)
  (l : list (jsstring * value)) :
  isCount (snd e) ->
  Forall (fun f => isCount (snd f)) l ->
  Forall (fun f => listedBefore tokens (fst e) (fst f)) l ->
  StronglySorted (EntryOrder tokens) l ->
  StronglySorted (EntryOrder tokens) (insertSorted e l).
Proof.
  intros [x Hx]. induction l as [| f l IH]; intros Hc Hl Hs;
    cbn [insertSorted].
  - constructor; constructor.
  - apply Forall_cons_iff in Hc as [[y Hy] Hc].
    apply Forall_cons_iff in Hl as [Hef Hl].
    pose proof (StronglySorted_inv Hs) as [Hs' Hfl].
    rewrite Hx, Hy. cbn [compareCounts].
    destruct (Z.of_nat y - Z.of_nat x <=? 0)%Z eqn:E.
    + apply Z.leb_le in E. constructor; [exact Hs |].
      constructor.
      * exists x, y. repeat split; [assumption | assumption | lia |].
        intros _. exact Hef.
      * apply Forall_forall. intros z Hz.
        destruct (proj1 (Forall_forall _ _) Hfl z Hz)
          as (y' & n & Hy' & Hn & Hle & _).
        rewrite Hy in Hy'. injection Hy' as <-.
        exists x, n. repeat split; [assumption | assumption | lia |].
        intros _. exact (proj1 (Forall_forall _ _) Hl z Hz).
    + apply Z.leb_gt in E. constructor; [exact (IH Hc Hl Hs') |].
      apply Forall_forall. intros z Hz.
      apply insertSorted_In in Hz as [-> | Hz].
      * exists y, x. repeat split; [assumption | assumption | lia | lia].
      * exact (proj1 (Forall_forall _ _) Hfl z Hz).
Qed.

Lemma sortByCount_sorted (tokens : list jsstring)
  (l : list (jsstring * value)) :
  Forall (fun f => isCount (snd f)) l ->
  StronglySorted (fun x y => listedBefore tokens (fst x) (fst y)) l ->
  StronglySorted (EntryOrder tokens) (sortByCount l).
Proof.
  unfold sortByCount.
  induction l as [| e l IH]; intros Hc Hs; cbn [fold_right]; [constructor |].
  apply Forall_cons_iff in Hc as [He Hc].
  pose proof (StronglySorted_inv Hs) as [Hs' Hel].
  apply insertSorted_sorted; [exact He | | | exact (IH Hc Hs')].
  - apply Forall_forall. intros x Hx. apply (sortByCount_In x l) in Hx.
    exact (proj1 (Forall_forall _ _) Hc x Hx).
  - apply Forall_forall. intros x Hx. apply (sortByCount_In x l) in Hx.
    exact (proj1 (Forall_forall _ _) Hel x Hx).
Qed.

Lemma analyzeWordFrequency_sorted
  (text : jsstring) (minLength maxWords : Z) :
  forallb notInherited (matchOrEmpty WORD_REGEX (normalizeText text)) = true ->
  StronglySorted (EntryOrder (matchOrEmpty WORD_REGEX (normalizeText text)))
    (analyzeWordFrequency text minLength maxWords).
Proof.
  intros H. unfold analyzeWordFrequency, arraySlice.
  apply StronglySorted_firstn.
  pose proof (TableInvariant_countWords minLength _ H) as Hinv.
  apply sortByCount_sorted.
  - apply Forall_forall. intros x Hx. apply entries_In in Hx.
    exact (proj1 (Forall_forall _ _) (table_counts _ _ _ Hinv) x Hx).
  - exact (entries_listed _ _ _ Hinv).
Qed.

(** X26: Where the order of the result comes from.  When no word of the text
    names something that objects inherit, the result of
    [analyzeWordFrequency] is sorted by count descending, and entries with
    equal counts stand in the order in which the table lists its keys:
    words that are array indices first, in ascending numeric order, then
    the other words in the order of their first encounter.  So ties are
    broken by first encounter among the words that are not numbers. *)
Theorem analyzeWordFrequency_order
  (text : jsstring) (minLength maxWords : Z) :
  forallb notInherited (matchOrEmpty WORD_REGEX (normalizeText text)) = true ->
  AllPairs (EntryOrder (matchOrEmpty WORD_REGEX (normalizeText text)))
    (analyzeWordFrequency text minLength maxWords).
Proof.
  intros H. apply StronglySorted_AllPairs.
  exact (analyzeWordFrequency_sorted text minLength maxWords H).
Qed.

Example analyzeWordFrequency_order_example :
  AllPairs
    (EntryOrder
       (matchOrEmpty WORD_REGEX
          (normalizeText (str "fox 10 the 9 dog the 007"))))
    (analyzeWordFrequency (str "fox 10 the 9 dog the 007") 0 10).
Proof.
  apply (analyzeWordFrequency_order (str "fox 10 the 9 dog the 007") 0 10).
  vm_compute. reflexivity.
Defined.

(** X27: In particular, in a text without numbers among its words (and without
    inherited names) ties are broken by first encounter. *)
Corollary analyzeWordFrequency_ties_without_numbers
  (text : jsstring) (minLength maxWords : Z) :
  let tokens := matchOrEmpty WORD_REGEX (normalizeText text) in
  forallb notInherited tokens = true ->
  forallb (fun w => negb (isArrayIndex w)) tokens = true ->
  TiesInEncounterOrder tokens (analyzeWordFrequency text minLength maxWords).
Proof.
  cbv zeta. intros Hinh Hnum i j e f Hij Hi Hj Heq.
  destruct (StronglySorted_AllPairs _ _
              (analyzeWordFrequency_sorted text minLength maxWords Hinh)
              i j e f Hij Hi Hj) as (x & y & Hx & Hy & _ & Hties).
  assert (Hkeys : keysSatisfy
                    (fun k => In k (matchOrEmpty WORD_REGEX (normalizeText text)))
                    (analyzeWordFrequency text minLength maxWords)).
  { intros a Ha. unfold analyzeWordFrequency in Ha.
    apply arraySlice_In in Ha. revert a Ha.
    apply (keysSatisfy_sortByCount
             (fun k => In k (matchOrEmpty WORD_REGEX (normalizeText text)))).
    apply keysSatisfy_entries, keysSatisfy_countWords; [| intros a []].
    intros w Hw _. exact Hw. }
  assert (Hnot : forall a,
             In a (analyzeWordFrequency text minLength maxWords) ->
             arrayIndex (fst a) = None).
  { intros a Ha.
    pose proof (proj1 (forallb_forall _ _) Hnum (fst a) (Hkeys a Ha)) as Hn.
    apply negb_true_iff in Hn. unfold isArrayIndex in Hn.
    destruct (arrayIndex (fst a)); [discriminate | reflexivity]. }
  assert (Hxy : x = y) by congruence.
  specialize (Hties Hxy). unfold listedBefore in Hties.
  rewrite (Hnot e (nth_error_In _ _ Hi)), (Hnot f (nth_error_In _ _ Hj))
    in Hties.
  exact Hties.
Qed.

Lemma analyzeWordFrequency_ties_without_numbers_witness :
  TiesInEncounterOrder
    (matchOrEmpty WORD_REGEX
       (normalizeText (str "the quick fox and the lazy dog")))
    (analyzeWordFrequency (str "the quick fox and the lazy dog") 2 10).
Proof.
  apply (analyzeWordFrequency_ties_without_numbers
           (str "the quick fox and the lazy dog") 2 10);
    vm_compute; reflexivity.
Defined.

(* ================================================================== *)
(** * Further properties of the sources *)
(* ================================================================== *)

(* ------------------------------------------------------------------ *)
(** ** truncateText *)
(* ------------------------------------------------------------------ *)

Lemma sliceFromStart_nonneg (s : jsstring) (n : Z) :
  (0 <= n)%Z -> sliceFromStart s n = firstn (Z.to_nat n) s.
Proof.
  intros Hn. unfold sliceFromStart.
  replace (n <? 0)%Z with false by (symmetry; apply Z.ltb_ge; exact Hn).
  destruct (Z.le_ge_cases n (Z.of_nat (length s))) as [H | H].
  - rewrite Z.min_l by exact H. reflexivity.
  - rewrite Z.min_r by lia. rewrite Nat2Z.id.
    rewrite !firstn_all2 by lia. reflexivity.
Qed.

Lemma truncateText_long (text : jsstring) (maxLength : Z) :
  (0 <= maxLength < Z.of_nat (length text))%Z ->
  truncateText text maxLength = firstn (Z.to_nat maxLength) text ++ str "...".
Proof.
  intros [H0 Hlt]. unfold truncateText.
  replace (Z.of_nat (length text) <=? maxLength)%Z with false
    by (symmetry; apply Z.leb_gt; exact Hlt).
  rewrite sliceFromStart_nonneg by exact H0. reflexivity.
Qed.

Lemma truncateText_long_length (text : jsstring) (maxLength : Z) :
  (0 <= maxLength < Z.of_nat (length text))%Z ->
  Z.of_nat (length (truncateText text maxLength)) = (maxLength + 3)%Z.
Proof.
  intros H. rewrite (truncateText_long text maxLength H).
  rewrite length_app, length_firstn. cbn [str list_ascii_of_string length].
  lia.
Qed.

(** X1: A text longer than a non-negative [maxLength] is cut to its first
    [maxLength] characters and "..." is appended, so that the result is
    three characters longer than [maxLength]. *)
Theorem truncateText_cut (text : jsstring) (maxLength : Z) :
  (0 <= maxLength < Z.of_nat (length text))%Z ->
  truncateText text maxLength
  = firstn (Z.to_nat maxLength) text ++ str "..."
  /\ Z.of_nat (length (truncateText text maxLength)) = (maxLength + 3)%Z.
Proof.
  intros H. split.
  - exact (truncateText_long text maxLength H).
  - exact (truncateText_long_length text maxLength H).
Qed.

Lemma truncateText_cut_witness :
  truncateText (str "This is a long text that needs to be truncated.") 20
  = firstn (Z.to_nat 20)
      (str "This is a long text that needs to be truncated.")
    ++ str "..."
  /\ Z.of_nat
       (length
          (truncateText
             (str "This is a long text that needs to be truncated.") 20))
     = (20 + 3)%Z.
Proof.
  apply (truncateText_cut
           (str "This is a long text that needs to be truncated.") 20).
  vm_compute. split; [discriminate | reflexivity].
Defined.

(** X2: Truncating twice to the same non-negative length is truncating once. *)
Theorem truncateText_idempotent (text : jsstring) (maxLength : Z) :
  (0 <= maxLength)%Z ->
  truncateText (truncateText text maxLength) maxLength
  = truncateText text maxLength.
Proof.
  intros H0.
  destruct (Z.leb_spec (Z.of_nat (length text)) maxLength) as [Hle | Hgt].
  - assert (E : truncateText text maxLength = text).
    { unfold truncateText.
      replace (Z.of_nat (length text) <=? maxLength)%Z with true
        by (symmetry; apply Z.leb_le; exact Hle).
      reflexivity. }
    rewrite !E. reflexivity.
  - pose proof (truncateText_long text maxLength (conj H0 Hgt)) as E.
    pose proof (truncateText_long_length text maxLength (conj H0 Hgt)) as Hlen.
    assert (Hcut : (0 <= maxLength
                    < Z.of_nat (length (truncateText text maxLength)))%Z)
      by lia.
    pose proof (truncateText_long _ maxLength Hcut) as E'.
    rewrite E'. rewrite E at 1.
    rewrite firstn_app, firstn_firstn, Nat.min_id, length_firstn.
    replace (Z.to_nat maxLength - Nat.min (Z.to_nat maxLength) (length text))
      with 0 by lia.
    cbn [firstn]. rewrite app_nil_r. symmetry. exact E.
Qed.

Lemma truncateText_idempotent_witness :
  truncateText (truncateText (str "Any text") 0) 0
  = truncateText (str "Any text") 0.
Proof.
  apply (truncateText_idempotent (str "Any text") 0). lia.
Defined.

(** X3: A text that is too long is still too long for [validateText] after
    [truncateText] with the default length: the three dots come on top of
    the MAX_TEXT_LENGTH characters that are kept. *)
Theorem truncateText_default_still_too_long (text : jsstring) :
  MAX_TEXT_LENGTH < length text ->
  validateText (truncateTextDefault text)
  = ValidationResult.mk false tooLongMessage.
Proof.
  assert (Hmin : MIN_TEXT_LENGTH <= MAX_TEXT_LENGTH)
    by (apply Nat.leb_le; vm_compute; reflexivity).
  unfold truncateTextDefault, validateText.
  revert Hmin. generalize MAX_TEXT_LENGTH as M. intros M Hmin H.
  assert (Hcut : (0 <= Z.of_nat M < Z.of_nat (length text))%Z) by lia.
  pose proof (truncateText_long_length text _ Hcut) as Hlen.
  assert (Hl : length (truncateText text (Z.of_nat M)) = M + 3) by lia.
  destruct (truncateText text (Z.of_nat M)) as [| c r] eqn:Er;
    [simpl in Hl; lia |].
  rewrite Hl.
  replace (M + 3 <? MIN_TEXT_LENGTH) with false
    by (symmetry; apply Nat.ltb_ge; lia).
  replace (M <? M + 3) with true by (symmetry; apply Nat.ltb_lt; lia).
  reflexivity.
Qed.

Lemma truncateText_default_still_too_long_witness :
  validateText (truncateTextDefault (repeat "a"%char 100001))
  = ValidationResult.mk false tooLongMessage.
Proof.
  apply (truncateText_default_still_too_long (repeat "a"%char 100001)).
  apply Nat.ltb_lt. vm_compute. reflexivity.
Defined.

(* ------------------------------------------------------------------ *)
(** ** Replacements that do not lengthen *)
(* ------------------------------------------------------------------ *)

Lemma replaceAll_length (r : regex) (rep : jsstring)
  (m : jsstring -> option nat) :
  (forall prev s, matchAt r prev s = m s) ->
  m [] = None ->
  (forall s, m s <> Some 0) ->
  length rep <= 1 ->
  forall s, length (replaceAll r rep s) <= length s.
Proof.
  intros Hm Hnil Hpos Hrep.
  apply (replace_ind m Hpos).
  - rewrite (replaceAll_nil r rep m Hm Hnil). apply le_n.
  - intros c s n E IH. rewrite (replaceAll_cons r rep m Hm Hnil Hpos), E.
    cbn [Nat.pred]. rewrite length_app. rewrite length_skipn in IH.
    cbn [length]. lia.
  - intros c s E IH. rewrite (replaceAll_cons r rep m Hm Hnil Hpos), E.
    cbn [length]. lia.
Qed.

Lemma collapse_length (p : ascii -> bool) (d : ascii) (s : jsstring) :
  length (replaceAll (Plus p) [d] s) <= length s.
Proof.
  apply (replaceAll_length (Plus p) [d] (plusAt p));
    [apply matchAt_Plus | apply plusAt_nil | apply plusAt_positive |].
  apply le_n.
Qed.

Lemma removeTags_length (s : jsstring) :
  length (replaceAll HTML_TAG_REGEX [] s) <= length s.
Proof.
  apply (replaceAll_length HTML_TAG_REGEX [] (lengthFromRest tagRest)).
  - apply matchAt_mr, ends_HTML_TAG_REGEX.
  - apply lengthFromRest_nil, tagRest_suffix.
  - apply lengthFromRest_positive, tagRest_suffix.
  - cbn. lia.
Qed.

Lemma removeUrls_length (s : jsstring) :
  length (replaceAll URL_REGEX [] s) <= length s.
Proof.
  apply (replaceAll_length URL_REGEX [] (lengthFromRest urlRest)).
  - apply matchAt_mr, ends_URL_REGEX.
  - apply lengthFromRest_nil, urlRest_suffix.
  - apply lengthFromRest_positive, urlRest_suffix.
  - cbn. lia.
Qed.

Lemma dropWhile_length (p : ascii -> bool) (s : jsstring) :
  length (dropWhile p s) <= length s.
Proof.
  induction s as [| c s IH]; cbn [dropWhile length]; [lia |].
  destruct (p c); cbn [length]; lia.
Qed.

Lemma dropEnd_length (p : ascii -> bool) (s : jsstring) :
  length (dropEnd p s) <= length s.
Proof.
  induction s as [| c s IH]; cbn [dropEnd length]; [lia |].
  destruct (dropEnd p s) as [| b kept].
  - destruct (p c); cbn [length]; lia.
  - cbn [length] in *. lia.
Qed.

Lemma trim_length (s : jsstring) : length (trim s) <= length s.
Proof.
  unfold trim. pose proof (dropEnd_length isSpace (dropWhile isSpace s)).
  pose proof (dropWhile_length isSpace s). lia.
Qed.

(** X4: [sanitizeText] never returns more characters than it is given. *)
Theorem sanitizeText_length (text : jsstring) :
  length (sanitizeText text) <= length text.
Proof.
  rewrite sanitizeText_unfold.
  pose proof (trim_length
                (replaceAll (Plus isSpace) [" "%char]
                   (replaceAll URL_REGEX []
                      (replaceAll HTML_TAG_REGEX [] text)))).
  pose proof (collapse_length isSpace " "
                (replaceAll URL_REGEX [] (replaceAll HTML_TAG_REGEX [] text))).
  pose proof (removeUrls_length (replaceAll HTML_TAG_REGEX [] text)).
  pose proof (removeTags_length text). lia.
Qed.

(** X5: [normalizeText] returns no more characters than the lower-cased text
    has: collapsing the runs of white space and of punctuation and trimming
    never lengthen.  (Lower-casing itself can lengthen a text that has
    characters beyond U+00FF.) *)
Theorem normalizeText_length (text : jsstring) :
  length (normalizeText text) <= length (toLowerCase text).
Proof.
  unfold normalizeText, WHITESPACE_RUN, PUNCTUATION_RUN.
  change (str " ") with [" "%char]. change (str ".") with ["."%char].
  pose proof (trim_length
                (replaceAll (Plus (oneOf ".,!?")) ["."%char]
                   (replaceAll (Plus isSpace) [" "%char] (toLowerCase text)))).
  pose proof (collapse_length (oneOf ".,!?") "."
                (replaceAll (Plus isSpace) [" "%char] (toLowerCase text))).
  pose proof (collapse_length isSpace " " (toLowerCase text)).
  lia.
Qed.

(* ------------------------------------------------------------------ *)
(** ** calculateBasicMetrics: the characters that are not white space *)
(* ------------------------------------------------------------------ *)

Lemma matchAt_Class (p : ascii -> bool) (prev : option ascii) (s : jsstring) :
  matchAt (Class p) prev s = classAt p s.
Proof.
  unfold matchAt, classAt. cbn [ends snd].
  destruct s as [| c s]; [reflexivity |].
  destruct (p c); [| reflexivity].
  f_equal. cbn [length]. lia.
Qed.

Lemma classAt_positive (p : ascii -> bool) (s : jsstring) :
  classAt p s <> Some 0.
Proof.
  destruct s as [| c s]; cbn [classAt]; [discriminate |].
  destruct (p c); discriminate.
Qed.

(** Deleting the characters of a class one by one is filtering them out. *)
Lemma removeClass_filter (p : ascii -> bool) (s : jsstring) :
  replaceAll (Class p) [] s = filter (fun c => negb (p c)) s.
Proof.
  induction s as [| c s IH].
  - exact (replaceAll_nil _ _ _ (matchAt_Class p) eq_refl).
  - rewrite (replaceAll_cons _ _ _ (matchAt_Class p) eq_refl
               (classAt_positive p)).
    cbn [classAt filter]. destruct (p c); cbn [negb Nat.pred skipn app];
      rewrite IH; reflexivity.
Qed.

(** X6: [charNoSpacesCount] is the number of characters that are not white
    space, and so it is at most [charCount]. *)
Theorem calculateBasicMetrics_charNoSpacesCount (text : jsstring) :
  charNoSpacesCount (calculateBasicMetrics text)
  = length (filter notSpace text)
  /\ charNoSpacesCount (calculateBasicMetrics text)
     <= charCount (calculateBasicMetrics text).
Proof.
  cbn [calculateBasicMetrics charNoSpacesCount charCount].
  unfold ONE_SPACE. rewrite removeClass_filter.
  split; [reflexivity | apply filter_length_le].
Qed.

(* ------------------------------------------------------------------ *)
(** ** checkTextSafety *)
(* ------------------------------------------------------------------ *)

Lemma matchAt_None (r : regex) (prev : option ascii) (s : jsstring) :
  matchAt r prev s = None <-> firstRest (ends r (prev, s)) = None.
Proof.
  unfold matchAt, firstRest.
  destruct (ends r (prev, s)) as [| [q rest] l]; split; intro H;
    try reflexivity; discriminate.
Qed.

(** A search with a regular expression [r] whose matches at a position are
    described by [mr], over texts whose freedom from matches is decided by
    [clean]. *)
Section Search.

Variable r : regex.
Variable mr : jsstring -> option jsstring.
Variable clean : jsstring -> bool.
Hypothesis ends_mr : forall prev s, firstRest (ends r (prev, s)) = mr s.
Hypothesis mr_nil : mr [] = None.
Hypothesis clean_nil : clean [] = true.
Hypothesis clean_cons :
  forall c s, clean (c :: s) = true <-> mr (c :: s) = None /\ clean s = true.

Lemma findFrom_None (s : jsstring) :
  forall prev, findFrom r prev s = None <-> clean s = true.
Proof.
  induction s as [| c s IH]; intro prev.
  - cbn [findFrom].
    rewrite (proj2 (matchAt_None r prev [])) by (rewrite ends_mr; exact mr_nil).
    rewrite clean_nil. split; reflexivity.
  - cbn [findFrom]. destruct (matchAt r prev (c :: s)) as [n |] eqn:E.
    + split; [discriminate |]. intro H. apply clean_cons in H.
      destruct H as [H _]. rewrite <- (ends_mr prev) in H.
      apply matchAt_None in H. congruence.
    + apply matchAt_None in E. rewrite ends_mr in E.
      destruct (findFrom r (Some c) s) as [[i n] |] eqn:F.
      * split; [discriminate |]. intro H. apply clean_cons in H.
        destruct H as [_ H]. apply (IH (Some c)) in H. congruence.
      * split; [| reflexivity]. intros _. apply clean_cons. split.
        -- exact E.
        -- apply (IH (Some c)). exact F.
Qed.

Lemma clean_skipn (n : nat) :
  forall s, clean s = true -> clean (skipn n s) = true.
Proof.
  induction n as [| n IH]; intros [| c s] H; cbn [skipn]; try exact H.
  apply IH. apply clean_cons in H. tauto.
Qed.

Lemma regexTest_clean (lastIndex : nat) (s : jsstring) :
  clean s = true -> regexTest r lastIndex s = (false, 0).
Proof.
  intro H. unfold regexTest. destruct (length s <? lastIndex); [reflexivity |].
  rewrite (proj2 (findFrom_None (skipn lastIndex s) (prevAt lastIndex s))
             (clean_skipn lastIndex s H)).
  reflexivity.
Qed.

Lemma regexTest_fresh (s : jsstring) :
  fst (regexTest r 0 s) = negb (clean s).
Proof.
  unfold regexTest.
  replace (length s <? 0) with false by (symmetry; apply Nat.ltb_ge; lia).
  cbn [prevAt skipn].
  destruct (findFrom r None s) as [[i n] |] eqn:F;
    destruct (clean s) eqn:C; cbn [fst negb]; try reflexivity.
  - apply (findFrom_None s None) in C. congruence.
  - apply (findFrom_None s None) in F. congruence.
Qed.

End Search.

Lemma regexTest_false (r : regex) (lastIndex : nat) (s : jsstring) :
  fst (regexTest r lastIndex s) = false -> snd (regexTest r lastIndex s) = 0.
Proof.
  unfold regexTest. destruct (length s <? lastIndex); [reflexivity |].
  destruct (findFrom r (prevAt lastIndex s) (skipn lastIndex s)) as [[i n] |];
    cbn [fst snd]; [discriminate | reflexivity].
Qed.

Lemma noTag_cons (c : ascii) (s : jsstring) :
  noTag (c :: s) = true <-> tagRest (c :: s) = None /\ noTag s = true.
Proof.
  rewrite tagRest_None. cbn [noTag].
  destruct (Ascii.eqb "<" c && hasGt s); destruct (noTag s); cbn [negb andb];
    split; try tauto; try discriminate; intros [H1 H2]; discriminate.
Qed.

Lemma noSpecial_cons (c : ascii) (s : jsstring) :
  negb (existsb isSpecial (c :: s)) = true
  <-> classRest isSpecial (c :: s) = None
      /\ negb (existsb isSpecial s) = true.
Proof.
  cbn [existsb classRest].
  destruct (isSpecial c); destruct (existsb isSpecial s); cbn [negb orb];
    split; try tauto; try discriminate; intros [H1 H2]; discriminate.
Qed.

Lemma ends_SPECIAL_CHARS_REGEX (prev : option ascii) (s : jsstring) :
  firstRest (ends SPECIAL_CHARS_REGEX (prev, s)) = classRest isSpecial s.
Proof.
  unfold SPECIAL_CHARS_REGEX. cbn [ends snd]. unfold classRest.
  destruct s as [| c s]; [reflexivity |].
  fold (isSpecial c). destruct (isSpecial c); reflexivity.
Qed.

Lemma test_URL_REGEX_clean (lastIndex : nat) (s : jsstring) :
  noUrl s = true -> regexTest URL_REGEX lastIndex s = (false, 0).
Proof.
  apply regexTest_clean with (mr := urlRest).
  - exact ends_URL_REGEX.
  - reflexivity.
  - reflexivity.
  - exact noUrl_cons.
Qed.

Lemma test_HTML_TAG_REGEX_clean (lastIndex : nat) (s : jsstring) :
  noTag s = true -> regexTest HTML_TAG_REGEX lastIndex s = (false, 0).
Proof.
  apply regexTest_clean with (mr := tagRest).
  - exact ends_HTML_TAG_REGEX.
  - reflexivity.
  - reflexivity.
  - exact noTag_cons.
Qed.

Lemma test_URL_REGEX_fresh (s : jsstring) :
  fst (regexTest URL_REGEX 0 s) = negb (noUrl s).
Proof.
  apply regexTest_fresh with (mr := urlRest).
  - exact ends_URL_REGEX.
  - reflexivity.
  - reflexivity.
  - exact noUrl_cons.
Qed.

Lemma test_HTML_TAG_REGEX_fresh (s : jsstring) :
  fst (regexTest HTML_TAG_REGEX 0 s) = negb (noTag s).
Proof.
  apply regexTest_fresh with (mr := tagRest).
  - exact ends_HTML_TAG_REGEX.
  - reflexivity.
  - reflexivity.
  - exact noTag_cons.
Qed.

Lemma test_SPECIAL_CHARS_REGEX_fresh (s : jsstring) :
  fst (regexTest SPECIAL_CHARS_REGEX 0 s) = existsb isSpecial s.
Proof.
  rewrite <- (negb_involutive (existsb isSpecial s)).
  apply regexTest_fresh
    with (mr := classRest isSpecial)
         (clean := fun s => negb (existsb isSpecial s)).
  - exact ends_SPECIAL_CHARS_REGEX.
  - reflexivity.
  - reflexivity.
  - exact noSpecial_cons.
Qed.

Lemma noTag_ContainsTag (s : jsstring) :
  noTag s = false <-> ContainsTag s.
Proof.
  split.
  - induction s as [| c s IH]; [discriminate |].
    cbn [noTag]. destruct (Ascii.eqb "<" c) eqn:Ec.
    + destruct (hasGt s) eqn:Eg.
      * intros _. apply Ascii.eqb_eq in Ec. subst c.
        apply hasGt_In in Eg. apply in_split in Eg.
        destruct Eg as (b & k & ->). exists [], b, k. reflexivity.
      * cbn [andb negb]. intro H. destruct (IH H) as (a & b & k & ->).
        exists (c :: a), b, k. reflexivity.
    + cbn [andb negb]. intro H. destruct (IH H) as (a & b & k & ->).
      exists (c :: a), b, k. reflexivity.
  - intros (a & b & k & ->). induction a as [| x a IH].
    + cbn [app noTag]. rewrite Ascii.eqb_refl.
      rewrite (proj2 (hasGt_In (b ++ ">"%char :: k))) by apply in_elt.
      reflexivity.
    + cbn [app noTag]. rewrite IH. apply andb_false_r.
Qed.

Lemma noUrl_ContainsUrl (s : jsstring) :
  noUrl s = false <-> ContainsUrl s.
Proof.
  split.
  - induction s as [| c s IH]; [discriminate |].
    cbn [noUrl]. destruct (urlRest (c :: s)) as [rest |] eqn:E.
    + intros _. destruct (urlRest_shape (c :: s) rest E)
        as (pre & d & mid & Hpre & Hs & Hd & _).
      exists [], pre, d, (mid ++ rest). cbn [app]. tauto.
    + intro H. destruct (IH H) as (a & pre & d & b & Hpre & -> & Hd).
      exists (c :: a), pre, d, b. cbn [app]. tauto.
  - intros (a & pre & d & b & Hpre & -> & Hd). induction a as [| x a IH].
    + cbn [app]. pose proof (urlRest_intro pre d b Hpre Hd) as E.
      destruct (pre ++ d :: b) as [| h k] eqn:Ek.
      * destruct Hpre as [-> | ->]; discriminate.
      * cbn [noUrl]. rewrite E. reflexivity.
    + cbn [app noUrl]. destruct (urlRest (x :: a ++ pre ++ d :: b));
        [reflexivity | exact IH].
Qed.

Lemma checkTextSafety_isSafe (st : RegexState) (t : jsstring) :
  SafetyResult.isSafe (fst (checkTextSafety st t))
  = negb (fst (regexTest URL_REGEX (urlLastIndex st) t)
          || fst (regexTest HTML_TAG_REGEX (htmlLastIndex st) t)).
Proof.
  unfold checkTextSafety.
  destruct (regexTest URL_REGEX (urlLastIndex st) t) as [bu u].
  destruct (regexTest HTML_TAG_REGEX (htmlLastIndex st) t) as [bh h].
  destruct (regexTest SPECIAL_CHARS_REGEX (specialLastIndex st) t) as [bs p].
  cbn [fst]. destruct (bu || bh); [reflexivity |]. destruct bs; reflexivity.
Qed.

Lemma checkTextSafety_state (st : RegexState) (t : jsstring) :
  snd (checkTextSafety st t)
  = mkRegexState
      (snd (regexTest URL_REGEX (urlLastIndex st) t))
      (snd (regexTest HTML_TAG_REGEX (htmlLastIndex st) t))
      (snd (regexTest SPECIAL_CHARS_REGEX (specialLastIndex st) t)).
Proof.
  unfold checkTextSafety.
  destruct (regexTest URL_REGEX (urlLastIndex st) t) as [bu u].
  destruct (regexTest HTML_TAG_REGEX (htmlLastIndex st) t) as [bh h].
  destruct (regexTest SPECIAL_CHARS_REGEX (specialLastIndex st) t) as [bs p].
  cbn [snd]. destruct (bu || bh); [reflexivity |]. destruct bs; reflexivity.
Qed.

(** X7: From the state in which the module is loaded, a text is reported as
    unsafe exactly when it contains "http://" or "https://" followed by a
    character that is not white space, or a "<" with a ">" somewhere after
    it. *)
Theorem checkTextSafety_fresh_unsafe (t : jsstring) :
  SafetyResult.isSafe (fst (checkTextSafety initialState t)) = false
  <-> ContainsUrl t \/ ContainsTag t.
Proof.
  rewrite checkTextSafety_isSafe. cbn [initialState urlLastIndex htmlLastIndex].
  rewrite test_URL_REGEX_fresh, test_HTML_TAG_REGEX_fresh.
  rewrite <- noUrl_ContainsUrl, <- noTag_ContainsTag.
  destruct (noUrl t); destruct (noTag t); cbn [negb orb]; split;
    try tauto; try discriminate; intros [H | H]; discriminate.
Qed.

(** X8: Whatever the [lastIndex] slots hold, a text that is reported as unsafe
    does contain a URL or a tag: a left-over [lastIndex] makes the check miss
    content, it never makes it report content that is not there. *)
Theorem checkTextSafety_rejection_justified (st : RegexState) (t : jsstring) :
  SafetyResult.isSafe (fst (checkTextSafety st t)) = false ->
  ContainsUrl t \/ ContainsTag t.
Proof.
  rewrite checkTextSafety_isSafe. intro H.
  destruct (noUrl t) eqn:Eu.
  - destruct (noTag t) eqn:Eg.
    + rewrite (test_URL_REGEX_clean (urlLastIndex st) t Eu) in H.
      rewrite (test_HTML_TAG_REGEX_clean (htmlLastIndex st) t Eg) in H.
      discriminate.
    + right. apply noTag_ContainsTag. exact Eg.
  - left. apply noUrl_ContainsUrl. exact Eu.
Qed.

Lemma checkTextSafety_rejection_justified_witness :
  ContainsUrl (str "see <b> here") \/ ContainsTag (str "see <b> here").
Proof.
  apply (checkTextSafety_rejection_justified (mkRegexState 3 2 0)).
  vm_compute. reflexivity.
Defined.



(** X10: From the state in which the module is loaded, an accepted text carries
    the warning about special characters exactly when one of its characters
    is neither a word character, nor white space, nor one of [.,!?-];
    otherwise the message is empty. *)
Theorem checkTextSafety_fresh_warning (t : jsstring) :
  SafetyResult.isSafe (fst (checkTextSafety initialState t)) = true ->
  SafetyResult.message (fst (checkTextSafety initialState t))
  = if existsb isSpecial t then specialCharsMessage else [].
Proof.
  rewrite <- test_SPECIAL_CHARS_REGEX_fresh.
  unfold checkTextSafety. cbn [initialState urlLastIndex htmlLastIndex
                                 specialLastIndex].
  destruct (regexTest URL_REGEX 0 t) as [bu u].
  destruct (regexTest HTML_TAG_REGEX 0 t) as [bh h].
  destruct (regexTest SPECIAL_CHARS_REGEX 0 t) as [bs p].
  cbn [fst]. destruct (bu || bh); [discriminate |].
  destruct bs; reflexivity.
Qed.

Lemma checkTextSafety_fresh_warning_witness :
  SafetyResult.message
    (fst (checkTextSafety initialState (str "Price: 5 < 7 (approx.)")))
  = if existsb isSpecial (str "Price: 5 < 7 (approx.)")
    then specialCharsMessage else [].
Proof.
  apply (checkTextSafety_fresh_warning (str "Price: 5 < 7 (approx.)")).
  vm_compute. reflexivity.
Defined.

(** X11: What [sanitizeText] returns contains neither a URL nor a tag, has no
    white space other than single spaces, none of them at its ends, and is
    accepted by [checkTextSafety] whatever the [lastIndex] slots hold. *)
Theorem sanitizeText_clean (x : jsstring) :
  ~ ContainsUrl (sanitizeText x)
  /\ ~ ContainsTag (sanitizeText x)
  /\ normalRuns isSpace " " (sanitizeText x) = true
  /\ trim (sanitizeText x) = sanitizeText x
  /\ forall st,
       SafetyResult.isSafe (fst (checkTextSafety st (sanitizeText x))) = true.
Proof.
  split; [| split; [| split; [| split]]].
  - intro C. apply noUrl_ContainsUrl in C.
    rewrite (sanitizeText_noUrl x) in C. discriminate.
  - intro C. apply noTag_ContainsTag in C.
    rewrite (sanitizeText_noTag x) in C. discriminate.
  - exact (sanitizeText_spaces x).
  - rewrite sanitizeText_unfold. apply trim_idempotent.
  - intro st. rewrite checkTextSafety_isSafe.
    rewrite (test_URL_REGEX_clean _ _ (sanitizeText_noUrl x)).
    rewrite (test_HTML_TAG_REGEX_clean _ _ (sanitizeText_noTag x)).
    reflexivity.
Qed.

(** X12: On a text that the freshly loaded module accepts, [sanitizeText] has no
    tag and no URL to remove: it only collapses the white space and
    trims. *)
Theorem sanitizeText_of_accepted (t : jsstring) :
  SafetyResult.isSafe (fst (checkTextSafety initialState t)) = true ->
  sanitizeText t = trim (replaceAll WHITESPACE_RUN (str " ") t).
Proof.
  rewrite checkTextSafety_isSafe. cbn [initialState urlLastIndex htmlLastIndex].
  rewrite test_URL_REGEX_fresh, test_HTML_TAG_REGEX_fresh. intro H.
  apply negb_true_iff in H. apply orb_false_iff in H. destruct H as [Hu Hh].
  apply negb_false_iff in Hu. apply negb_false_iff in Hh.
  rewrite sanitizeText_unfold.
  rewrite (removeTags_fixed t Hh), (removeUrls_fixed t Hu). reflexivity.
Qed.

Lemma sanitizeText_of_accepted_witness :
  sanitizeText (str "  two   words and a < sign ")
  = trim (replaceAll WHITESPACE_RUN (str " ")
            (str "  two   words and a < sign ")).
Proof.
  apply (sanitizeText_of_accepted (str "  two   words and a < sign ")).
  vm_compute. reflexivity.
Defined.

(* ------------------------------------------------------------------ *)
(** ** Words: what [/\b\w+\b/g] and [/\b[a-z]+\b/g] match *)
(* ------------------------------------------------------------------ *)

Lemma matchOrEmpty_matchGo (r : regex) (s : jsstring) :
  matchOrEmpty r s = matchGo r None 0 s.
Proof.
  unfold matchOrEmpty, jsMatch. destruct (matchGo r None 0 s); reflexivity.
Qed.

Lemma matchGo_skip (r : regex) (n : nat) :
  forall s prev, n <= length s ->
    exists q, matchGo r prev n s = matchGo r q 0 (skipn n s).
Proof.
  induction n as [| n IH]; intros s prev Hn.
  - exists prev. reflexivity.
  - destruct s as [| c s]; [cbn [length] in Hn; lia |].
    cbn [length] in Hn.
    destruct (IH s (Some c) ltac:(lia)) as (q & E).
    exists q. destruct n; cbn [matchGo skipn]; exact E.
Qed.

Lemma wordsOf_word (s : jsstring) :
  forall c, isWord c = true ->
    wordsOf (c :: s)
    = (c :: firstn (runLength isWord s) s) :: wordsOf (dropWhile isWord s).
Proof.
  induction s as [| d s IH]; intros c Hc.
  - cbn [wordsOf startsIn]. rewrite Hc. reflexivity.
  - change (wordsOf (c :: d :: s))
      with (if isWord c then
              if startsIn isWord (d :: s) then consHead c (wordsOf (d :: s))
              else [c] :: wordsOf (d :: s)
            else wordsOf (d :: s)).
    rewrite Hc. cbn [startsIn runLength dropWhile].
    destruct (isWord d) eqn:Ed.
    + rewrite (IH d Ed). reflexivity.
    + reflexivity.
Qed.

Lemma wordsOf_other (c : ascii) (s : jsstring) :
  isWord c = false -> wordsOf (c :: s) = wordsOf s.
Proof. intro H. cbn [wordsOf]. rewrite H. reflexivity. Qed.

Lemma wordsOf_dropWhile (p : ascii -> bool) (s : jsstring) :
  (forall c, p c = true -> isWord c = false) ->
  wordsOf (dropWhile p s) = wordsOf s.
Proof.
  intro Hp. induction s as [| c s IH]; [reflexivity |].
  cbn [dropWhile]. destruct (p c) eqn:E; [| reflexivity].
  rewrite IH. symmetry. apply wordsOf_other. apply Hp. exact E.
Qed.

Lemma ends_WordB (prev : option ascii) (s : jsstring) :
  ends WordB (prev, s)
  = if xorb (afterWord prev) (startsIn isWord s) then [(prev, s)] else [].
Proof. destruct prev; destruct s; reflexivity. Qed.

Lemma ends_Class (p : ascii -> bool) (prev : option ascii) (s : jsstring) :
  ends (Class p) (prev, s)
  = match s with
    | c :: s' => if p c then [(Some c, s')] else []
    | [] => []
    end.
Proof. reflexivity. Qed.

Lemma ends_Star (p : ascii -> bool) (prev : option ascii) (s : jsstring) :
  ends (Star p) (prev, s) = starEnds p prev s.
Proof. reflexivity. Qed.

Section BoundedRuns.

(** A class of word characters. *)
Variable p : ascii -> bool.
Hypothesis p_word : forall c, p c = true -> isWord c = true.

Lemma ends_run_boundary (s : jsstring) :
  forall prev, afterWord prev = true ->
    exists q,
      flat_map (ends WordB) (starEnds p prev s)
      = if startsIn isWord (dropWhile p s) then []
        else [(q, dropWhile p s)].
Proof.
  induction s as [| c s IH]; intros prev Hprev.
  - exists prev. destruct prev as [d |]; [| discriminate].
    cbn [afterWord] in Hprev.
    cbn [starEnds flat_map ends wordBefore wordAfter fst snd dropWhile
           startsIn app].
    rewrite Hprev. reflexivity.
  - cbn [starEnds dropWhile]. destruct (p c) eqn:Ec.
    + rewrite flat_map_app.
      destruct (IH (Some c) (p_word c Ec)) as (q & E). rewrite E.
      exists q. destruct prev as [d |]; [| discriminate].
      cbn [afterWord] in Hprev.
      cbn [flat_map ends wordBefore wordAfter fst snd].
      rewrite Hprev, (p_word c Ec). cbn [xorb app]. apply app_nil_r.
    + exists prev. destruct prev as [d |]; [| discriminate].
      cbn [afterWord] in Hprev.
      cbn [flat_map ends wordBefore wordAfter fst snd startsIn].
      rewrite Hprev. destruct (isWord c); reflexivity.
Qed.

Lemma matchAt_bounded (prev : option ascii) (s : jsstring) :
  matchAt (Seq WordB (Seq (Plus p) WordB)) prev s
  = if afterWord prev then None else boundedRunAt p s.
Proof.
  unfold matchAt, Plus.
  rewrite ends_Seq, ends_WordB.
  destruct s as [| c s].
  - cbn [startsIn boundedRunAt]. rewrite xorb_false_r.
    destruct (afterWord prev); [| reflexivity].
    cbn [flat_map]. rewrite !ends_Seq, ends_Class. reflexivity.
  - cbn [startsIn boundedRunAt]. destruct (afterWord prev) eqn:Hprev.
    + destruct (isWord c) eqn:Hc; cbn [xorb flat_map]; [reflexivity |].
      rewrite !ends_Seq, ends_Class. destruct (p c) eqn:Ec; [| reflexivity].
      rewrite (p_word c Ec) in Hc. discriminate.
    + destruct (isWord c) eqn:Hc; cbn [xorb flat_map].
      * rewrite !ends_Seq, ends_Class. destruct (p c) eqn:Ec; [| reflexivity].
        cbn [flat_map andb]. rewrite ends_Star, !app_nil_r.
        destruct (ends_run_boundary s (Some c) Hc) as (q & E). rewrite E.
        destruct (startsIn isWord (dropWhile p s)); [reflexivity |].
        cbn [negb]. f_equal.
        rewrite <- runLength_dropWhile, length_skipn.
        pose proof (runLength_le p s). cbn [length]. lia.
      * destruct (p c) eqn:Ec; [| reflexivity].
        rewrite (p_word c Ec) in Hc. discriminate.
Qed.

Lemma run_not_bounded (s : jsstring) :
  startsIn isWord (dropWhile p s) = true ->
  forallb p (firstn (runLength isWord s) s) = false.
Proof.
  induction s as [| c s IH]; [discriminate |].
  cbn [dropWhile runLength]. destruct (p c) eqn:Ec.
  - intro H. rewrite (p_word c Ec). cbn [firstn forallb]. rewrite Ec.
    exact (IH H).
  - cbn [startsIn]. intro H. rewrite H. cbn [firstn forallb]. rewrite Ec.
    reflexivity.
Qed.

Lemma run_bounded (s : jsstring) :
  startsIn isWord (dropWhile p s) = false ->
  runLength isWord s = runLength p s
  /\ dropWhile isWord s = dropWhile p s
  /\ forallb p (firstn (runLength p s) s) = true.
Proof.
  induction s as [| c s IH]; [intros _; repeat split |].
  cbn [dropWhile runLength]. destruct (p c) eqn:Ec.
  - intro H. rewrite (p_word c Ec). destruct (IH H) as (H1 & H2 & H3).
    cbn [firstn forallb]. rewrite Ec, H1, H2, H3. repeat split.
  - cbn [startsIn]. intro H. rewrite H. repeat split.
Qed.

Lemma matchGo_bounded (n : nat) :
  forall s prev, length s <= n ->
    matchGo (Seq WordB (Seq (Plus p) WordB)) prev 0 s
    = filter (forallb p)
        (wordsOf (if afterWord prev then dropWhile isWord s else s)).
Proof.
  induction n as [| n IH]; intros s prev Hlen.
  - destruct s; [| cbn [length] in Hlen; lia].
    cbn [matchGo]. rewrite matchAt_bounded.
    destruct (afterWord prev); reflexivity.
  - destruct s as [| c s].
    + cbn [matchGo]. rewrite matchAt_bounded.
      destruct (afterWord prev); reflexivity.
    + cbn [length] in Hlen. cbn [matchGo]. rewrite matchAt_bounded.
      destruct (afterWord prev) eqn:Hprev.
      * rewrite (IH s (Some c) ltac:(lia)). cbn [afterWord dropWhile].
        destruct (isWord c) eqn:Hc; [reflexivity |].
        rewrite (wordsOf_other c s Hc). reflexivity.
      * cbn [boundedRunAt].
        destruct (p c && negb (startsIn isWord (dropWhile p s))) eqn:E.
        -- apply andb_true_iff in E. destruct E as [Ec Eb].
           apply negb_true_iff in Eb.
           destruct (run_bounded s Eb) as (H1 & H2 & H3).
           rewrite (wordsOf_word s c (p_word c Ec)), H1, H2.
           cbn [filter forallb]. rewrite Ec, H3. cbn [andb firstn].
           f_equal.
           destruct (matchGo_skip (Seq WordB (Seq (Plus p) WordB))
                       (runLength p s) s (Some c) (runLength_le p s))
             as (q & Eq).
           rewrite Eq, runLength_dropWhile.
           rewrite (IH (dropWhile p s) q)
             by (pose proof (dropWhile_length p s); lia).
           rewrite (dropWhile_fixed isWord (dropWhile p s) Eb).
           destruct (afterWord q); reflexivity.
        -- rewrite (IH s (Some c) ltac:(lia)). cbn [afterWord].
           destruct (isWord c) eqn:Hc.
           ++ rewrite (wordsOf_word s c Hc). cbn [filter forallb].
              destruct (p c) eqn:Ec.
              ** cbn [andb] in E. apply negb_false_iff in E.
                 rewrite (run_not_bounded s E). reflexivity.
              ** reflexivity.
           ++ rewrite (wordsOf_other c s Hc). reflexivity.
Qed.

Lemma matchOrEmpty_bounded (s : jsstring) :
  matchOrEmpty (Seq WordB (Seq (Plus p) WordB)) s
  = filter (forallb p) (wordsOf s).
Proof.
  rewrite matchOrEmpty_matchGo.
  exact (matchGo_bounded (length s) s None (le_n _)).
Qed.

End BoundedRuns.

Lemma wordsOf_chars (s : jsstring) :
  Forall (fun w => w <> [] /\ forallb isWord w = true) (wordsOf s)
  /\ (startsIn isWord s = true -> wordsOf s <> []).
Proof.
  induction s as [| c s [IH1 IH2]]; [split; [constructor | discriminate] |].
  cbn [wordsOf startsIn]. destruct (isWord c) eqn:Hc.
  - destruct (startsIn isWord s) eqn:Hs.
    + split; [| destruct (wordsOf s); discriminate].
      destruct (wordsOf s) as [| w ws]; [exfalso; exact (IH2 eq_refl eq_refl) |].
      cbn [consHead]. inversion IH1 as [| ? ? [Hw1 Hw2] Hws]; subst.
      constructor; [| exact Hws]. split; [discriminate |].
      cbn [forallb]. rewrite Hc, Hw2. reflexivity.
    + split; [| discriminate]. constructor; [| exact IH1].
      split; [discriminate |]. cbn [forallb]. rewrite Hc. reflexivity.
  - split; [exact IH1 | discriminate].
Qed.

Lemma filter_all {A : Type} (f : A -> bool) (l : list A) :
  Forall (fun x => f x = true) l -> filter f l = l.
Proof.
  induction 1 as [| x l Hx Hl IH]; [reflexivity |].
  cbn [filter]. rewrite Hx, IH. reflexivity.
Qed.

Lemma matchOrEmpty_WORD_REGEX (s : jsstring) :
  matchOrEmpty WORD_REGEX s = wordsOf s.
Proof.
  unfold WORD_REGEX. rewrite (matchOrEmpty_bounded isWord (fun c H => H)).
  apply filter_all. eapply Forall_impl; [| exact (proj1 (wordsOf_chars s))].
  intros w [_ H]. exact H.
Qed.

Lemma isLowerAlpha_isWord (c : ascii) :
  isLowerAlpha c = true -> isWord c = true.
Proof.
  destruct c as [[] [] [] [] [] [] [] []]; vm_compute; congruence.
Qed.

Lemma matchOrEmpty_ALPHA_WORD_REGEX (s : jsstring) :
  matchOrEmpty ALPHA_WORD_REGEX s = filter isLowerWord (wordsOf s).
Proof.
  unfold ALPHA_WORD_REGEX.
  exact (matchOrEmpty_bounded isLowerAlpha isLowerAlpha_isWord s).
Qed.

(* ------------------------------------------------------------------ *)
(** ** What leaves the words of a text as they are *)
(* ------------------------------------------------------------------ *)

Lemma isWord_toLowerChar (c : ascii) : isWord (toLowerChar c) = isWord c.
Proof. destruct c as [[] [] [] [] [] [] [] []]; vm_compute; reflexivity. Qed.

Lemma isSpace_not_isWord (c : ascii) : isSpace c = true -> isWord c = false.
Proof. destruct c as [[] [] [] [] [] [] [] []]; vm_compute; congruence. Qed.

Lemma punctuation_not_isWord (c : ascii) :
  oneOf ".,!?" c = true -> isWord c = false.
Proof. destruct c as [[] [] [] [] [] [] [] []]; vm_compute; congruence. Qed.

Lemma startsIn_toLowerCase (s : jsstring) :
  startsIn isWord (toLowerCase s) = startsIn isWord s.
Proof. destruct s as [| c s]; [reflexivity |]. apply isWord_toLowerChar. Qed.

Lemma wordsOf_toLowerCase (s : jsstring) :
  wordsOf (toLowerCase s) = map toLowerCase (wordsOf s).
Proof.
  induction s as [| c s IH]; [reflexivity |].
  change (toLowerCase (c :: s)) with (toLowerChar c :: toLowerCase s).
  cbn [wordsOf]. rewrite isWord_toLowerChar, startsIn_toLowerCase, IH.
  destruct (isWord c); [| reflexivity].
  destruct (startsIn isWord s); [| reflexivity].
  destruct (wordsOf s); reflexivity.
Qed.

Lemma wordsOf_cons (c : ascii) (o s : jsstring) :
  wordsOf o = wordsOf s ->
  startsIn isWord o = startsIn isWord s ->
  wordsOf (c :: o) = wordsOf (c :: s).
Proof. intros H1 H2. cbn [wordsOf]. rewrite H1, H2. reflexivity. Qed.

Lemma wordsOf_collapse (p : ascii -> bool) (d : ascii) :
  (forall c, p c = true -> isWord c = false) ->
  isWord d = false ->
  forall s,
    wordsOf (replaceAll (Plus p) [d] s) = wordsOf s
    /\ startsIn isWord (replaceAll (Plus p) [d] s) = startsIn isWord s.
Proof.
  intros Hp Hd. apply (collapse_ind p).
  - rewrite collapse_nil. split; reflexivity.
  - intros c s Ec [IH _]. rewrite collapse_cons, Ec. split.
    + rewrite (wordsOf_other d _ Hd), IH, (wordsOf_dropWhile p s Hp).
      symmetry. apply wordsOf_other. exact (Hp c Ec).
    + cbn [startsIn]. rewrite Hd, (Hp c Ec). reflexivity.
  - intros c s Ec [IH1 IH2]. rewrite collapse_cons, Ec. split.
    + exact (wordsOf_cons c _ _ IH1 IH2).
    + reflexivity.
Qed.

Lemma wordsOf_dropEnd (p : ascii -> bool) :
  (forall c, p c = true -> isWord c = false) ->
  forall s,
    wordsOf (dropEnd p s) = wordsOf s
    /\ startsIn isWord (dropEnd p s) = startsIn isWord s.
Proof.
  intros Hp. induction s as [| c s [IH1 IH2]]; [split; reflexivity |].
  cbn [dropEnd]. destruct (dropEnd p s) as [| k ks] eqn:E.
  - destruct (p c) eqn:Ec.
    + split.
      * rewrite (wordsOf_other c s (Hp c Ec)). exact IH1.
      * cbn [startsIn]. symmetry. exact (Hp c Ec).
    + split; [| reflexivity]. exact (wordsOf_cons c _ _ IH1 IH2).
  - split; [| reflexivity]. exact (wordsOf_cons c _ _ IH1 IH2).
Qed.

Lemma wordsOf_trim (s : jsstring) : wordsOf (trim s) = wordsOf s.
Proof.
  unfold trim. rewrite (proj1 (wordsOf_dropEnd isSpace isSpace_not_isWord _)).
  exact (wordsOf_dropWhile isSpace s isSpace_not_isWord).
Qed.

Lemma wordsOf_normalizeText (text : jsstring) :
  wordsOf (normalizeText text) = wordsOf (toLowerCase text).
Proof.
  unfold normalizeText, PUNCTUATION_RUN, WHITESPACE_RUN. rewrite wordsOf_trim.
  change (str ".") with ["."%char]. change (str " ") with [" "%char].
  rewrite (proj1 (wordsOf_collapse (oneOf ".,!?") "." punctuation_not_isWord
                    eq_refl _)).
  exact (proj1 (wordsOf_collapse isSpace " " isSpace_not_isWord eq_refl _)).
Qed.

Lemma tokens_normalizeText (text : jsstring) :
  matchOrEmpty WORD_REGEX (normalizeText text)
  = matchOrEmpty WORD_REGEX (toLowerCase text).
Proof.
  rewrite !matchOrEmpty_WORD_REGEX. apply wordsOf_normalizeText.
Qed.

Lemma concat_wordsOf (s : jsstring) : List.concat (wordsOf s) = filter isWord s.
Proof.
  induction s as [| c s IH]; [reflexivity |].
  cbn [wordsOf filter]. destruct (isWord c); [| exact IH].
  destruct (startsIn isWord s) eqn:Hs.
  - pose proof (proj2 (wordsOf_chars s) Hs) as Hne.
    destruct (wordsOf s) as [| w ws]; [exfalso; exact (Hne eq_refl) |].
    cbn [consHead List.concat app] in *. rewrite IH. reflexivity.
  - cbn [List.concat app]. rewrite IH. reflexivity.
Qed.

Lemma length_concat_nonempty {A : Type} (l : list (list A)) :
  Forall (fun w => w <> []) l -> length l <= length (List.concat l).
Proof.
  induction 1 as [| w l Hw Hl IH]; [apply le_n |].
  cbn [List.concat length]. rewrite length_app.
  destruct w; [exfalso; exact (Hw eq_refl) |]. cbn [length]. lia.
Qed.

Lemma filter_length_le {A : Type} (f g : A -> bool) (l : list A) :
  (forall x, f x = true -> g x = true) ->
  length (filter f l) <= length (filter g l).
Proof.
  intro H. induction l as [| x l IH]; [apply le_n |].
  cbn [filter]. destruct (f x) eqn:E.
  - rewrite (H x E). cbn [length]. lia.
  - destruct (g x); cbn [length]; lia.
Qed.

Lemma length_wordsOf (s : jsstring) :
  length (wordsOf s) <= length (filter isWord s).
Proof.
  rewrite <- concat_wordsOf. apply length_concat_nonempty.
  eapply Forall_impl; [| exact (proj1 (wordsOf_chars s))].
  intros w [H _]. exact H.
Qed.

(* ------------------------------------------------------------------ *)
(** ** calculateBasicMetrics: the word count *)
(* ------------------------------------------------------------------ *)

(** X13: The word count is the number of maximal runs of word characters of
    the lower-cased text: the other steps of [normalizeText], which collapse
    the runs of white space and of punctuation and trim, move no word
    boundary.  It never exceeds the count of characters without spaces. *)
Theorem calculateBasicMetrics_wordCount (text : jsstring) :
  wordCount (calculateBasicMetrics text) = length (wordsOf (toLowerCase text))
  /\ wordCount (calculateBasicMetrics text)
     <= charNoSpacesCount (calculateBasicMetrics text).
Proof.
  assert (E : wordCount (calculateBasicMetrics text)
              = length (wordsOf (toLowerCase text))).
  { unfold calculateBasicMetrics. cbn [wordCount].
    rewrite matchOrEmpty_WORD_REGEX, wordsOf_normalizeText. reflexivity. }
  split; [exact E |]. rewrite E, wordsOf_toLowerCase, length_map.
  unfold calculateBasicMetrics. cbn [charNoSpacesCount]. unfold ONE_SPACE.
  rewrite removeClass_filter.
  apply (Nat.le_trans _ _ _ (length_wordsOf text)).
  apply filter_length_le. intros c Hc.
  destruct (isSpace c) eqn:Es; [| reflexivity].
  rewrite (isSpace_not_isWord c Es) in Hc. discriminate.
Qed.

(* ------------------------------------------------------------------ *)
(** ** The single-file version and the modules *)
(* ------------------------------------------------------------------ *)

(** X14: On a text that lower-casing leaves as it is, the
    [calculateBasicMetrics] of script.js, which takes the words from the
    text as it is, and the one of utils/textAnalysis.js, which takes them
    from the normalised text, return the same metrics.  (On other texts the
    two word counts can differ: lower-casing can turn a character that is
    not a word character into one.) *)
Theorem Legacy_calculateBasicMetrics_agrees (text : jsstring) :
  toLowerCase text = text ->
  Legacy.calculateBasicMetrics text = calculateBasicMetrics text.
Proof.
  intro H. unfold Legacy.calculateBasicMetrics, calculateBasicMetrics.
  rewrite !matchOrEmpty_WORD_REGEX, wordsOf_normalizeText, H.
  reflexivity.
Qed.

Lemma Legacy_calculateBasicMetrics_agrees_witness :
  Legacy.calculateBasicMetrics (str "two lines, here.  and a third one!")
  = calculateBasicMetrics (str "two lines, here.  and a third one!").
Proof.
  apply (Legacy_calculateBasicMetrics_agrees
           (str "two lines, here.  and a third one!")).
  vm_compute. reflexivity.
Defined.

Lemma analyzeSentiment_counts (text : jsstring) :
  (positiveCount (analyzeSentiment text), negativeCount (analyzeSentiment text))
  = fold_left
      (countSentiment SENTIMENT_WORDS_positive SENTIMENT_WORDS_negative)
      (matchOrEmpty WORD_REGEX (normalizeText text)) (0, 0).
Proof.
  unfold analyzeSentiment. cbn [positiveCount negativeCount].
  symmetry. apply surjective_pairing.
Qed.

(** X15: The counts that [updateSentimentAnalysis] of script.js displays, taken
    from the lower-cased text, are those of [analyzeSentiment], taken from
    the normalised text. *)
Theorem Legacy_updateSentimentAnalysis_agrees (text : jsstring) :
  Legacy.updateSentimentAnalysis text
  = (positiveCount (analyzeSentiment text),
     negativeCount (analyzeSentiment text)).
Proof.
  rewrite analyzeSentiment_counts, tokens_normalizeText. reflexivity.
Qed.

(** X16: The word list that [updateWordFrequency] of script.js displays is
    [analyzeWordFrequency] with its default bounds 2 and 10. *)
Theorem Legacy_updateWordFrequency_agrees (text : jsstring) :
  Legacy.updateWordFrequency text = analyzeWordFrequency text 2 10.
Proof.
  unfold Legacy.updateWordFrequency, analyzeWordFrequency.
  rewrite tokens_normalizeText. reflexivity.
Qed.

(** X17: The two validators differ on the short texts only: [validateInput] of
    script.js has no minimum length.  It accepts a non-empty text below
    [MIN_TEXT_LENGTH]; on every other text it accepts when [validateText]
    does, and otherwise shows the message of [validateText]. *)
Theorem Legacy_validateInput_and_validateText (text : jsstring) :
  Legacy.validateInput text
  = if (0 <? length text) && (length text <? MIN_TEXT_LENGTH) then None
    else if ValidationResult.isValid (validateText text) then None
    else Some (ValidationResult.message (validateText text)).
Proof.
  assert (HM : MIN_TEXT_LENGTH <= MAX_TEXT_LENGTH)
    by (apply Nat.leb_le; vm_compute; reflexivity).
  unfold Legacy.validateInput, validateText, tooLongMessage.
  destruct text as [| c s]; [reflexivity |].
  change (length (c :: s) =? 0) with false.
  change (0 <? length (c :: s)) with true. cbv iota. cbn [andb].
  revert HM. generalize MAX_TEXT_LENGTH as M. generalize MIN_TEXT_LENGTH as m.
  intros m M HM.
  destruct (length (c :: s) <? m) eqn:E.
  - apply Nat.ltb_lt in E.
    replace (M <? length (c :: s)) with false
      by (symmetry; apply Nat.ltb_ge; lia).
    reflexivity.
  - destruct (M <? length (c :: s)); reflexivity.
Qed.

(* ------------------------------------------------------------------ *)
(** ** analyzeSentiment *)
(* ------------------------------------------------------------------ *)

Lemma arrayIncludes_In (l : list jsstring) (w : jsstring) :
  arrayIncludes l w = true <-> In w l.
Proof.
  unfold arrayIncludes. rewrite existsb_exists. split.
  - intros (x & Hx & E). apply keyEqb_eq in E. subst x. exact Hx.
  - intro H. exists w. split; [exact H | apply keyEqb_eq; reflexivity].
Qed.

Lemma sentiment_words_disjoint (w : jsstring) :
  arrayIncludes SENTIMENT_WORDS_positive w = true ->
  arrayIncludes SENTIMENT_WORDS_negative w = false.
Proof.
  intro H. apply arrayIncludes_In in H.
  assert (D : forallb
                (fun x => negb (arrayIncludes SENTIMENT_WORDS_negative x))
                SENTIMENT_WORDS_positive = true)
    by (vm_compute; reflexivity).
  apply negb_true_iff. exact (proj1 (forallb_forall _ _) D w H).
Qed.

Lemma countSentiment_total (l : list jsstring) :
  forall counts,
    fst (fold_left
           (countSentiment SENTIMENT_WORDS_positive SENTIMENT_WORDS_negative)
           l counts)
    + snd (fold_left
             (countSentiment SENTIMENT_WORDS_positive SENTIMENT_WORDS_negative)
             l counts)
    <= fst counts + snd counts + length l.
Proof.
  induction l as [| w l IH]; intro counts; [cbn [fold_left length]; lia |].
  cbn [fold_left length].
  eapply Nat.le_trans; [apply IH |].
  unfold countSentiment. cbn [fst snd].
  destruct (arrayIncludes SENTIMENT_WORDS_positive w) eqn:E.
  - rewrite (sentiment_words_disjoint w E). lia.
  - destruct (arrayIncludes SENTIMENT_WORDS_negative w); lia.
Qed.

(** X18: No word is counted twice: the two counts together never exceed the
    word count of the text, and neither does the magnitude of the score.
    The label goes with the sign of the score. *)
Theorem analyzeSentiment_bounded_by_wordCount (text : jsstring) :
  positiveCount (analyzeSentiment text) + negativeCount (analyzeSentiment text)
  <= wordCount (calculateBasicMetrics text)
  /\ (Z.abs (score (analyzeSentiment text))
      <= Z.of_nat (wordCount (calculateBasicMetrics text)))%Z
  /\ sentiment (analyzeSentiment text)
     = match (score (analyzeSentiment text) ?= 0)%Z with
       | Gt => str "positive"
       | Lt => str "negative"
       | Eq => str "neutral"
       end.
Proof.
  assert (H : positiveCount (analyzeSentiment text)
              + negativeCount (analyzeSentiment text)
              <= wordCount (calculateBasicMetrics text)).
  { pose proof (analyzeSentiment_counts text) as E.
    pose proof (countSentiment_total
                  (matchOrEmpty WORD_REGEX (normalizeText text)) (0, 0)) as B.
    rewrite <- E in B. cbn [fst snd] in B.
    unfold calculateBasicMetrics. cbn [wordCount]. lia. }
  split; [exact H |].
  unfold analyzeSentiment in *.
  cbn [score positiveCount negativeCount sentiment] in *.
  split; [lia |].
  set (counts := fold_left _ _ _).
  destruct (snd counts <? fst counts) eqn:E1.
  - apply Nat.ltb_lt in E1.
    replace (Z.of_nat (fst counts) - Z.of_nat (snd counts) ?= 0)%Z with Gt
      by (symmetry; apply Z.compare_gt_iff; lia).
    reflexivity.
  - apply Nat.ltb_ge in E1. destruct (fst counts <? snd counts) eqn:E2.
    + apply Nat.ltb_lt in E2.
      replace (Z.of_nat (fst counts) - Z.of_nat (snd counts) ?= 0)%Z with Lt
        by (symmetry; apply Z.compare_lt_iff; lia).
      reflexivity.
    + apply Nat.ltb_ge in E2.
      replace (Z.of_nat (fst counts) - Z.of_nat (snd counts) ?= 0)%Z with Eq
        by (symmetry; apply Z.compare_eq_iff; lia).
      reflexivity.
Qed.

(* ------------------------------------------------------------------ *)
(** ** countSyllables *)
(* ------------------------------------------------------------------ *)

Lemma matchAt_le (r : regex) (prev : option ascii) (s : jsstring) (n : nat) :
  matchAt r prev s = Some n -> n <= length s.
Proof.
  unfold matchAt. destruct (ends r (prev, s)) as [| [q rest] l];
    [discriminate |].
  intro H. injection H as <-. lia.
Qed.

Lemma matchGo_length (r : regex) :
  (forall prev s, matchAt r prev s <> Some 0) ->
  forall s prev skip, length (matchGo r prev skip s) <= length s.
Proof.
  intro Hpos. induction s as [| c s IH]; intros prev skip.
  - destruct skip; cbn [matchGo]; [| apply le_n].
    destruct (matchAt r prev []) as [[| n] |] eqn:E.
    + exfalso. exact (Hpos _ _ E).
    + apply matchAt_le in E. cbn [length] in E. lia.
    + apply le_n.
  - destruct skip; cbn [matchGo].
    + destruct (matchAt r prev (c :: s)) as [[| n] |] eqn:E.
      * exfalso. exact (Hpos _ _ E).
      * cbn [length]. pose proof (IH (Some c) n). lia.
      * cbn [length]. pose proof (IH (Some c) 0). lia.
    + cbn [length]. pose proof (IH (Some c) skip). lia.
Qed.

Lemma replaceFirstGo_length (r : regex) (s : jsstring) :
  forall prev, length (replaceFirstGo r [] prev s) <= length s.
Proof.
  induction s as [| c s IH]; intro prev.
  - cbn [replaceFirstGo]. destruct (matchAt r prev []); [| apply le_n].
    rewrite skipn_nil. apply le_n.
  - cbn [replaceFirstGo]. destruct (matchAt r prev (c :: s)).
    + cbn [app]. rewrite length_skipn. lia.
    + cbn [length]. pose proof (IH (Some c)). lia.
Qed.

Lemma matchAt_VOWEL_GROUP_positive (prev : option ascii) (s : jsstring) :
  matchAt VOWEL_GROUP prev s <> Some 0.
Proof.
  unfold matchAt, VOWEL_GROUP. rewrite ends_Seq, ends_Class.
  destruct s as [| c s]; [discriminate |].
  destruct (oneOf "aeiouy" c); [| discriminate].
  cbn [flat_map]. rewrite ends_Opt, ends_Class, app_nil_r.
  destruct s as [| d s]; [discriminate |].
  assert (L : forall x (l : jsstring), length (x :: l) = S (length l))
    by reflexivity.
  destruct (oneOf "aeiouy" d); cbn [app]; rewrite !L; intro H;
    assert (H' : forall a b : nat, Some a = Some b -> a = b)
      by (intros a b E; congruence);
    apply H' in H; lia.
Qed.

Lemma countSyllablesInWord_positive (word : jsstring) :
  1 <= countSyllablesInWord word.
Proof.
  unfold countSyllablesInWord.
  destruct (length (toLowerCase word) <=? 3); [apply le_n |].
  destruct (jsMatch VOWEL_GROUP _) as [ms |] eqn:E; [| apply le_n].
  exact (jsMatch_nonempty _ _ _ E).
Qed.

Lemma countSyllablesInWord_le (word : jsstring) :
  word <> [] -> countSyllablesInWord word <= length word.
Proof.
  intro Hne. assert (H0 : 1 <= length word)
    by (destruct word; [exfalso; exact (Hne eq_refl) | cbn [length]; lia]).
  unfold countSyllablesInWord.
  destruct (length (toLowerCase word) <=? 3); [assumption |].
  destruct (jsMatch VOWEL_GROUP _) as [ms |] eqn:E; [| assumption].
  unfold jsMatch in E.
  pose proof (matchGo_length VOWEL_GROUP matchAt_VOWEL_GROUP_positive
                (replaceFirst LEADING_Y []
                   (replaceFirst SILENT_ENDING [] (toLowerCase word)))
                None 0) as B.
  destruct (matchGo VOWEL_GROUP None 0 _) as [| m ms'] eqn:G;
    [discriminate |].
  injection E as <-.
  pose proof (replaceFirstGo_length LEADING_Y
                (replaceFirst SILENT_ENDING [] (toLowerCase word)) None)
    as H1.
  pose proof (replaceFirstGo_length SILENT_ENDING (toLowerCase word) None)
    as H2.
  unfold replaceFirst in B. unfold toLowerCase in *.
  rewrite length_map in *. unfold replaceFirst in *.
  exact (Nat.le_trans _ _ _ B (Nat.le_trans _ _ _ H1 H2)).
Qed.

Lemma fold_left_add {A : Type} (f : A -> nat) (l : list A) :
  forall a,
    fold_left (fun count x => count + f x) l a = a + list_sum (map f l).
Proof.
  induction l as [| x l IH]; intro a; simpl; [lia |].
  rewrite IH. lia.
Qed.

Lemma list_sum_bounds (f : jsstring -> nat) (l : list jsstring) :
  Forall (fun w => 1 <= f w <= length w) l ->
  length l <= list_sum (map f l) <= length (List.concat l).
Proof.
  induction 1 as [| w l Hw Hl IH]; [simpl; lia |].
  simpl. rewrite length_app. lia.
Qed.

Lemma concat_filter_length {A : Type} (f : list A -> bool)
  (l : list (list A)) :
  length (List.concat (filter f l)) <= length (List.concat l).
Proof.
  induction l as [| w l IH]; [apply le_n |].
  cbn [filter]. destruct (f w); cbn [List.concat]; rewrite ?length_app; lia.
Qed.

Lemma filter_length {A : Type} (f : A -> bool) (l : list A) :
  length (filter f l) <= length l.
Proof.
  induction l as [| x l IH]; [apply le_n |].
  cbn [filter]. destruct (f x); cbn [length]; lia.
Qed.

(** X19: The syllables of a text are those of the words of the lower-cased text
    that consist of the letters a to z only: a word with a digit or an
    underscore in it adds nothing.  Each of the words that count adds at
    least one syllable and at most as many as it has letters. *)
Theorem countSyllables_words (text : jsstring) :
  let words := filter isLowerWord (wordsOf (toLowerCase text)) in
  countSyllables text = list_sum (map countSyllablesInWord words)
  /\ length words <= countSyllables text <= length text.
Proof.
  cbv zeta.
  assert (E : countSyllables text
              = list_sum
                  (map countSyllablesInWord
                     (filter isLowerWord (wordsOf (toLowerCase text))))).
  { unfold countSyllables. rewrite matchOrEmpty_ALPHA_WORD_REGEX.
    rewrite fold_left_add. reflexivity. }
  split; [exact E |]. rewrite E.
  assert (B : Forall (fun w => 1 <= countSyllablesInWord w <= length w)
                (filter isLowerWord (wordsOf (toLowerCase text)))).
  { apply Forall_forall. intros w Hw. apply filter_In in Hw.
    destruct Hw as [Hw _].
    pose proof (proj1 (Forall_forall _ _)
                  (proj1 (wordsOf_chars (toLowerCase text))) w Hw) as [Hne _].
    split; [apply countSyllablesInWord_positive |].
    apply countSyllablesInWord_le. exact Hne. }
  pose proof (list_sum_bounds countSyllablesInWord _ B) as [B1 B2].
  split; [exact B1 |].
  apply (Nat.le_trans _ _ _ B2).
  apply (Nat.le_trans _ _ _ (concat_filter_length isLowerWord _)).
  rewrite concat_wordsOf.
  apply (Nat.le_trans _ _ _ (filter_length isWord _)).
  unfold toLowerCase. rewrite length_map. apply le_n.
Qed.

(* ------------------------------------------------------------------ *)
(** ** calculateBasicMetrics after sanitizeText: the paragraphs *)
(* ------------------------------------------------------------------ *)

Lemma matchAt_BLANK_LINE_nil (prev : option ascii) :
  matchAt BLANK_LINE prev [] = None.
Proof. reflexivity. Qed.

Lemma matchAt_BLANK_LINE_other (prev : option ascii) (c : ascii)
  (s : jsstring) :
  Ascii.eqb "010" c = false -> matchAt BLANK_LINE prev (c :: s) = None.
Proof.
  intro H. unfold matchAt, BLANK_LINE. rewrite ends_Seq, ends_Chr, H.
  reflexivity.
Qed.

Lemma splitGo_no_line_feed (s : jsstring) :
  forall prev cur,
    forallb (fun c => negb (Ascii.eqb "010" c)) s = true ->
    splitGo BLANK_LINE prev 0 cur s = [cur ++ s].
Proof.
  induction s as [| c s IH]; intros prev cur H.
  - cbn [splitGo]. rewrite app_nil_r. reflexivity.
  - cbn [forallb] in H. apply andb_true_iff in H. destruct H as [Hc Hs].
    apply negb_true_iff in Hc.
    cbn [splitGo]. rewrite (matchAt_BLANK_LINE_other prev c s Hc).
    rewrite (IH (Some c) (cur ++ [c]) Hs), <- app_assoc. reflexivity.
Qed.

Lemma normalRuns_chars (p : ascii -> bool) (d : ascii) (s : jsstring) :
  normalRuns p d s = true -> forall c, In c s -> p c = true -> c = d.
Proof.
  induction s as [| x s IH]; intros H c Hin Hp; [destruct Hin |].
  destruct (normalRuns_cons p d x s H) as [Hx Hs].
  destruct Hin as [-> | Hin].
  - exact (proj1 (Hx Hp)).
  - exact (IH Hs c Hin Hp).
Qed.

Lemma sanitizeText_no_line_feed (x : jsstring) :
  forallb (fun c => negb (Ascii.eqb "010" c)) (sanitizeText x) = true.
Proof.
  apply forallb_forall. intros c Hin. apply negb_true_iff.
  destruct (Ascii.eqb "010" c) eqn:E; [| reflexivity].
  apply Ascii.eqb_eq in E. subst c.
  pose proof (normalRuns_chars isSpace " " _ (sanitizeText_spaces x)
                "010"%char Hin eq_refl) as H.
  discriminate.
Qed.

Lemma paragraphs_sanitizeText (x : jsstring) :
  filterBoolean (split BLANK_LINE (sanitizeText x))
  = match sanitizeText x with
    | [] => []
    | _ :: _ => [sanitizeText x]
    end.
Proof.
  pose proof (sanitizeText_no_line_feed x) as H.
  destruct (sanitizeText x) as [| c s]; [reflexivity |].
  unfold split. rewrite (splitGo_no_line_feed (c :: s) None [] H).
  reflexivity.
Qed.

(** X20: [sanitizeText] turns every line break into a space, so the metrics of a
    sanitized text never show more than one paragraph: none for the empty
    text, one for every other. *)
Theorem calculateBasicMetrics_sanitizeText_paragraphs (x : jsstring) :
  paragraphCount (calculateBasicMetrics (sanitizeText x))
  = match sanitizeText x with
    | [] => 0
    | _ :: _ => 1
    end.
Proof.
  unfold calculateBasicMetrics. cbn [paragraphCount].
  rewrite paragraphs_sanitizeText.
  destruct (sanitizeText x); reflexivity.
Qed.

(* ------------------------------------------------------------------ *)
(** ** determineGradeLevel *)
(* ------------------------------------------------------------------ *)

(** X21: The labels that [determineGradeLevel] can return: "Kindergarten", one
    of the twelve grades with its proper suffix, "College level", and, when
    the average of its arguments is NaN, "NaNth grade". *)
Theorem determineGradeLevel_labels (fleschKincaidGrade colemanLiauIndex : float) :
  In (determineGradeLevel fleschKincaidGrade colemanLiauIndex)
    (map str
       ["Kindergarten"; "1st grade"; "2nd grade"; "3rd grade"; "4th grade";
        "5th grade"; "6th grade"; "7th grade"; "8th grade"; "9th grade";
        "10th grade"; "11th grade"; "12th grade"; "College level";
        "NaNth grade"]%string).
Proof.
  unfold determineGradeLevel.
  destruct (mathRound ((fleschKincaidGrade + colemanLiauIndex) / 2)%float)
    as [z | | negative].
  - cbn [atMostZero atLeastThirteen].
    destruct (z <=? 0)%Z eqn:E0; [left; reflexivity |].
    destruct (13 <=? z)%Z eqn:E13;
      [do 13 right; left; reflexivity |].
    apply Z.leb_gt in E0. apply Z.leb_gt in E13.
    assert (H : (z = 1 \/ z = 2 \/ z = 3 \/ z = 4 \/ z = 5 \/ z = 6 \/ z = 7
                 \/ z = 8 \/ z = 9 \/ z = 10 \/ z = 11 \/ z = 12)%Z) by lia.
    repeat (destruct H as [-> | H]; [vm_compute; tauto |]).
    subst z. vm_compute. tauto.
  - vm_compute. tauto.
  - destruct negative; vm_compute; tauto.
Qed.

(* ------------------------------------------------------------------ *)
(** ** handleAnalyze *)
(* ------------------------------------------------------------------ *)

Lemma readability_without_words (sentences syllables chars : float) :
  calculateFleschReadingEase (ofNat 0) sentences syllables = 0%float
  /\ calculateFleschKincaidGrade (ofNat 0) sentences syllables = 0%float
  /\ calculateColemanLiauIndex chars (ofNat 0) sentences = 0%float.
Proof.
  unfold calculateFleschReadingEase, calculateFleschKincaidGrade,
    calculateColemanLiauIndex.
  change (ofNat 0 =? 0)%float with true. repeat split.
Qed.

Lemma readability_without_sentences (words syllables chars : float) :
  calculateFleschReadingEase words (ofNat 0) syllables = 0%float
  /\ calculateFleschKincaidGrade words (ofNat 0) syllables = 0%float
  /\ calculateColemanLiauIndex chars words (ofNat 0) = 0%float.
Proof.
  unfold calculateFleschReadingEase, calculateFleschKincaidGrade,
    calculateColemanLiauIndex.
  change (ofNat 0 =? 0)%float with true. rewrite !orb_true_r. repeat split.
Qed.

(** X22: A text in which no word or no sentence is found gets 0 for each of the
    three scores, and with them the grade level "Kindergarten" next to the
    interpretation "Very difficult to read". *)
Theorem analysisResults_without_words_or_sentences (sanitizedText : jsstring) :
  wordCount (calculateBasicMetrics sanitizedText) = 0
  \/ sentenceCount (calculateBasicMetrics sanitizedText) = 0 ->
  let results := analysisResults sanitizedText in
  AnalysisResults.fleschScore results = 0%float
  /\ AnalysisResults.fleschKincaidGrade results = 0%float
  /\ AnalysisResults.colemanLiauIndex results = 0%float
  /\ determineGradeLevel (AnalysisResults.fleschKincaidGrade results)
       (AnalysisResults.colemanLiauIndex results)
     = str "Kindergarten"
  /\ getReadabilityInterpretation (AnalysisResults.fleschScore results)
     = str "Very difficult to read. Best understood by university graduates.".
Proof.
  intros H. cbv zeta. unfold analysisResults.
  cbn [AnalysisResults.fleschScore AnalysisResults.fleschKincaidGrade
         AnalysisResults.colemanLiauIndex].
  destruct H as [H | H]; rewrite H.
  - destruct (readability_without_words
                (ofNat (sentenceCount (calculateBasicMetrics sanitizedText)))
                (ofNat (countSyllables sanitizedText))
                (ofNat (charCount (calculateBasicMetrics sanitizedText))))
      as (-> & -> & ->).
    repeat split; vm_compute; reflexivity.
  - destruct (readability_without_sentences
                (ofNat (wordCount (calculateBasicMetrics sanitizedText)))
                (ofNat (countSyllables sanitizedText))
                (ofNat (charCount (calculateBasicMetrics sanitizedText))))
      as (-> & -> & ->).
    repeat split; vm_compute; reflexivity.
Qed.

Lemma analysisResults_without_words_or_sentences_witness :
  let results := analysisResults (str "?!... ?!... ?!") in
  AnalysisResults.fleschScore results = 0%float
  /\ AnalysisResults.fleschKincaidGrade results = 0%float
  /\ AnalysisResults.colemanLiauIndex results = 0%float
  /\ determineGradeLevel (AnalysisResults.fleschKincaidGrade results)
       (AnalysisResults.colemanLiauIndex results)
     = str "Kindergarten"
  /\ getReadabilityInterpretation (AnalysisResults.fleschScore results)
     = str "Very difficult to read. Best understood by university graduates.".
Proof.
  apply (analysisResults_without_words_or_sentences (str "?!... ?!... ?!")).
  left. vm_compute. reflexivity.
Defined.

Lemma handleAnalyze_results (st : RegexState) (value : jsstring)
  (results : AnalysisResults.t) (st' : RegexState) :
  handleAnalyze st value = (ShowResults results, st') ->
  ValidationResult.isValid (validateText (trim value)) = true
  /\ SafetyResult.isSafe (fst (checkTextSafety st (trim value))) = true
  /\ results = analysisResults (sanitizeText (trim value))
  /\ st' = snd (checkTextSafety st (trim value)).
Proof.
  unfold handleAnalyze.
  destruct (ValidationResult.isValid (validateText (trim value)));
    cbn [negb]; [| discriminate].
  destruct (SafetyResult.isSafe (fst (checkTextSafety st (trim value))));
    cbn [negb]; [| discriminate].
  intro H. injection H as <- <-. repeat split.
Qed.

Lemma validateText_valid_length (text : jsstring) :
  ValidationResult.isValid (validateText text) = true ->
  MIN_TEXT_LENGTH <= length text <= MAX_TEXT_LENGTH.
Proof.
  unfold validateText. destruct text as [| c s]; [discriminate |].
  generalize MAX_TEXT_LENGTH as M. generalize MIN_TEXT_LENGTH as m.
  intros m M.
  destruct (length (c :: s) <? m) eqn:E1; [discriminate |].
  destruct (M <? length (c :: s)) eqn:E2; [discriminate |].
  intros _. apply Nat.ltb_ge in E1. apply Nat.ltb_ge in E2. split; assumption.
Qed.

(** X23: When [handleAnalyze] shows results, whatever the [lastIndex] slots held:
    the character count shown is at most [MAX_TEXT_LENGTH], at most one
    paragraph and at most ten frequent words are shown, and the [lastIndex]
    slots of the URL and tag expressions are left at 0, so that the safety
    check of the next click is the one of the freshly loaded module. *)
Theorem handleAnalyze_results_shown (st : RegexState) (value : jsstring)
  (results : AnalysisResults.t) (st' : RegexState) :
  handleAnalyze st value = (ShowResults results, st') ->
  charCount (AnalysisResults.basicMetrics results) <= MAX_TEXT_LENGTH
  /\ paragraphCount (AnalysisResults.basicMetrics results) <= 1
  /\ length (AnalysisResults.wordFreq results) <= 10
  /\ urlLastIndex st' = 0
  /\ htmlLastIndex st' = 0.
Proof.
  intro H. apply handleAnalyze_results in H.
  destruct H as (Hvalid & Hsafe & -> & ->).
  unfold analysisResults.
  cbn [AnalysisResults.basicMetrics AnalysisResults.wordFreq].
  split; [| split; [| split]].
  - apply validateText_valid_length in Hvalid.
    unfold calculateBasicMetrics. cbn [charCount].
    assert (L : length (sanitizeText (trim value)) <= length (trim value)).
    { rewrite sanitizeText_unfold.
      apply (Nat.le_trans _ _ _ (trim_length _)).
      apply (Nat.le_trans _ _ _ (collapse_length isSpace " " _)).
      apply (Nat.le_trans _ _ _ (removeUrls_length _)).
      apply removeTags_length. }
    revert Hvalid L. generalize MAX_TEXT_LENGTH as M. intros M Hvalid L.
    apply (Nat.le_trans _ _ _ L). exact (proj2 Hvalid).
  - unfold calculateBasicMetrics. cbn [paragraphCount].
    rewrite paragraphs_sanitizeText.
    destruct (sanitizeText (trim value)); [apply Nat.le_0_l | apply le_n].
  - unfold analyzeWordFrequency.
    match goal with
    | |- length (arraySlice ?l ?e) <= _ =>
        pose proof (arraySlice_length l e ltac:(lia))
    end.
    lia.
  - rewrite checkTextSafety_isSafe in Hsafe.
    apply negb_true_iff in Hsafe. apply orb_false_iff in Hsafe.
    destruct Hsafe as [Hu Hh].
    rewrite checkTextSafety_state. cbn [urlLastIndex htmlLastIndex].
    split; apply regexTest_false; assumption.
Qed.

Lemma handleAnalyze_results_shown_witness :
  let value :=
    str "  First line." ++ ["010"%char] ++ str "Second line, <b>bold</b>.  " in
  let st := mkRegexState 40 40 40 in
  let results := analysisResults (sanitizeText (trim value)) in
  let st' := snd (checkTextSafety st (trim value)) in
  charCount (AnalysisResults.basicMetrics results) <= MAX_TEXT_LENGTH
  /\ paragraphCount (AnalysisResults.basicMetrics results) <= 1
  /\ length (AnalysisResults.wordFreq results) <= 10
  /\ urlLastIndex st' = 0
  /\ htmlLastIndex st' = 0.
Proof.
  cbv zeta.
  apply (handleAnalyze_results_shown (mkRegexState 40 40 40)
           (str "  First line." ++ ["010"%char]
            ++ str "Second line, <b>bold</b>.  ")).
  vm_compute. reflexivity.
Defined.

Lemma checkTextSafety_fresh_isSafe (t : jsstring) :
  SafetyResult.isSafe (fst (checkTextSafety initialState t))
  = noUrl t && noTag t.
Proof.
  rewrite checkTextSafety_isSafe. cbn [initialState urlLastIndex htmlLastIndex].
  rewrite test_URL_REGEX_fresh, test_HTML_TAG_REGEX_fresh.
  destruct (noUrl t); destruct (noTag t); reflexivity.
Qed.

(** X24: From the state in which the module is loaded, a click on Analyze shows
    results exactly when the trimmed text has between [MIN_TEXT_LENGTH] and
    [MAX_TEXT_LENGTH] characters and contains neither a URL nor a tag. *)
Theorem handleAnalyze_fresh_shows_results (value : jsstring) :
  (exists results st',
     handleAnalyze initialState value = (ShowResults results, st'))
  <-> MIN_TEXT_LENGTH <= length (trim value) <= MAX_TEXT_LENGTH
      /\ ~ ContainsUrl (trim value)
      /\ ~ ContainsTag (trim value).
Proof.
  split.
  - intros (results & st' & H). apply handleAnalyze_results in H.
    destruct H as (Hvalid & Hsafe & _ & _).
    split; [exact (validateText_valid_length _ Hvalid) |].
    rewrite checkTextSafety_fresh_isSafe in Hsafe.
    apply andb_true_iff in Hsafe. destruct Hsafe as [Hu Hh].
    split; intro C.
    + apply noUrl_ContainsUrl in C. congruence.
    + apply noTag_ContainsTag in C. congruence.
  - intros (Hlen & Hu & Hh). unfold handleAnalyze.
    assert (Hvalid : ValidationResult.isValid (validateText (trim value))
                     = true).
    { unfold validateText. revert Hlen.
      assert (HM : 0 < MIN_TEXT_LENGTH)
        by (apply Nat.ltb_lt; vm_compute; reflexivity).
      revert HM.
      generalize MAX_TEXT_LENGTH as M. generalize MIN_TEXT_LENGTH as m.
      intros m M HM Hlen.
      destruct (trim value) as [| c s]; [cbn [length] in Hlen; lia |].
      replace (length (c :: s) <? m) with false
        by (symmetry; apply Nat.ltb_ge; lia).
      replace (M <? length (c :: s)) with false
        by (symmetry; apply Nat.ltb_ge; lia).
      reflexivity. }
    rewrite Hvalid. cbn [negb].
    assert (Hsafe : SafetyResult.isSafe
                      (fst (checkTextSafety initialState (trim value)))
                    = true).
    { rewrite checkTextSafety_fresh_isSafe. apply andb_true_iff. split.
      - destruct (noUrl (trim value)) eqn:E; [reflexivity |].
        apply noUrl_ContainsUrl in E. tauto.
      - destruct (noTag (trim value)) eqn:E; [reflexivity |].
        apply noTag_ContainsTag in E. tauto. }
    rewrite Hsafe. cbn [negb]. eexists. eexists. reflexivity.
Qed.

(* ------------------------------------------------------------------ *)
(** ** analyzeWordFrequency: the counts *)
(* ------------------------------------------------------------------ *)

Lemma getOwn_updateOwn (o : jsobject) (w k : jsstring) (v : value) :
  getOwn o w <> None ->
  getOwn (updateOwn o w v) k = if keyEqb k w then Some v else getOwn o k.
Proof.
  induction o as [| [k' v'] o IH]; intro H; [exfalso; exact (H eq_refl) |].
  cbn [getOwn updateOwn] in *. destruct (keyEqb w k') eqn:E.
  - apply keyEqb_eq in E. subst k'. cbn [getOwn].
    destruct (keyEqb k w); reflexivity.
  - cbn [getOwn]. rewrite (IH H). destruct (keyEqb k k') eqn:E'.
    + apply keyEqb_eq in E'. subst k'.
      destruct (keyEqb k w) eqn:E''; [| reflexivity].
      apply keyEqb_eq in E''. subst k.
      rewrite (proj2 (keyEqb_eq w w) eq_refl) in E. discriminate.
    + reflexivity.
Qed.

Lemma getOwn_app_new (o : jsobject) (w k : jsstring) (v : value) :
  getOwn o w = None ->
  getOwn (o ++ [(w, v)]) k = if keyEqb k w then Some v else getOwn o k.
Proof.
  induction o as [| [k' v'] o IH]; intro H.
  - cbn [app getOwn]. reflexivity.
  - cbn [app getOwn] in *. destruct (keyEqb w k') eqn:E; [discriminate |].
    rewrite (IH H). destruct (keyEqb k k') eqn:E'; [| reflexivity].
    apply keyEqb_eq in E'. subst k'.
    destruct (keyEqb k w) eqn:E''; [| reflexivity].
    apply keyEqb_eq in E''. subst k.
    rewrite (proj2 (keyEqb_eq w w) eq_refl) in E. discriminate.
Qed.

Lemma getOwn_In (o : jsobject) (k : jsstring) (v : value) :
  NoDup (map fst o) -> In (k, v) o -> getOwn o k = Some v.
Proof.
  induction o as [| [k' v'] o IH]; intros Hnd Hin; [destruct Hin |].
  cbn [map fst] in Hnd. apply NoDup_cons_iff in Hnd. destruct Hnd as [Hk Hnd].
  cbn [getOwn]. destruct Hin as [E | Hin].
  - injection E as -> ->. rewrite (proj2 (keyEqb_eq k k) eq_refl). reflexivity.
  - destruct (keyEqb k k') eqn:E.
    + apply keyEqb_eq in E. subst k'. exfalso. apply Hk.
      exact (in_map fst o (k, v) Hin).
    + exact (IH Hnd Hin).
Qed.

Lemma occurrences_app (k w : jsstring) (init : list jsstring) :
  occurrences k (init ++ [w])
  = occurrences k init + (if keyEqb k w then 1 else 0).
Proof.
  unfold occurrences. rewrite count_occ_app. f_equal.
  cbn [count_occ]. unfold keyEqb.
  destruct (list_eq_dec ascii_dec w k) as [E | E];
    destruct (list_eq_dec ascii_dec k w) as [E' | E'];
    try reflexivity; congruence.
Qed.

Lemma occurrences_In (k : jsstring) (tokens : list jsstring) :
  0 < occurrences k tokens <-> In k tokens.
Proof.
  unfold occurrences. symmetry. apply count_occ_In.
Qed.

Lemma CountInvariant_step (minLength : Z) (init : list jsstring)
  (w : jsstring) (table : jsobject) :
  notInherited w = true ->
  CountInvariant minLength init table ->
  CountInvariant minLength (init ++ [w]) (countWord minLength table w).
Proof.
  intros Hw [Hnd Hval]. unfold countWord.
  destruct (minLength <? Z.of_nat (length w))%Z eqn:Hlen.
  - assert (Hinc : incremented table w = VNum (occurrences w init + 1)).
    { unfold incremented. rewrite (Hval w), Hlen. cbn [andb].
      destruct (0 <? occurrences w init) eqn:Hocc.
      - apply Nat.ltb_lt in Hocc.
        destruct (occurrences w init); [lia | reflexivity].
      - apply Nat.ltb_ge in Hocc.
        rewrite (proj1 (notInherited_no_proto w Hw)).
        replace (occurrences w init) with 0 by lia. reflexivity. }
    rewrite Hinc.
    assert (Hget : forall k,
               getOwn (setProperty table w (VNum (occurrences w init + 1))) k
               = if keyEqb k w then Some (VNum (occurrences w init + 1))
                 else getOwn table k).
    { intro k. unfold setProperty.
      destruct (getOwn table w) eqn:G.
      - apply getOwn_updateOwn. congruence.
      - rewrite (proj2 (notInherited_no_proto w Hw)).
        apply getOwn_app_new. exact G. }
    constructor.
    + unfold setProperty. destruct (getOwn table w) eqn:G.
      * rewrite updateOwn_keys. exact Hnd.
      * rewrite (proj2 (notInherited_no_proto w Hw)).
        rewrite map_app. cbn [map fst].
        apply NoDup_app; [exact Hnd | constructor; [intros [] | constructor] |].
        intros k Hk [E | []]. subst k. exact (getOwn_None table w G Hk).
    + intro k. rewrite Hget, occurrences_app.
      destruct (keyEqb k w) eqn:E.
      * apply keyEqb_eq in E. subst k. rewrite Hlen. cbn [andb].
        replace (0 <? occurrences w init + 1) with true
          by (symmetry; apply Nat.ltb_lt; lia).
        reflexivity.
      * rewrite Nat.add_0_r. apply Hval.
  - constructor; [exact Hnd |]. intro k. rewrite occurrences_app, Hval.
    destruct (keyEqb k w) eqn:E.
    + apply keyEqb_eq in E. subst k. rewrite Hlen. reflexivity.
    + rewrite Nat.add_0_r. reflexivity.
Qed.

Lemma CountInvariant_countWords (minLength : Z) (tokens : list jsstring) :
  forallb notInherited tokens = true ->
  CountInvariant minLength tokens (fold_left (countWord minLength) tokens []).
Proof.
  induction tokens as [| w init IH] using rev_ind; intros H.
  - constructor; [constructor |]. intro k. cbn [getOwn].
    rewrite andb_false_r. reflexivity.
  - rewrite forallb_app in H. apply andb_prop in H as [Hinit Hw].
    cbn [forallb] in Hw. rewrite andb_true_r in Hw.
    rewrite fold_left_app. cbn [fold_left].
    apply CountInvariant_step; [exact Hw | exact (IH Hinit)].
Qed.

Lemma insertSorted_Permutation (e : jsstring * value)
  (l : list (jsstring * value)) :
  Permutation (insertSorted e l) (e :: l).
Proof.
  induction l as [| f l IH]; [apply Permutation_refl |].
  cbn [insertSorted]. destruct (compareCounts (snd e) (snd f) <=? 0)%Z.
  - apply Permutation_refl.
  - apply (perm_trans (perm_skip f IH)). apply perm_swap.
Qed.

Lemma sortByCount_Permutation (l : list (jsstring * value)) :
  Permutation (sortByCount l) l.
Proof.
  induction l as [| e l IH]; [apply perm_nil |].
  unfold sortByCount in *. cbn [fold_right].
  apply (perm_trans (insertSorted_Permutation e _)). apply perm_skip, IH.
Qed.

Lemma insertByIndex_Permutation (e : jsstring * value)
  (l : list (jsstring * value)) :
  Permutation (insertByIndex e l) (e :: l).
Proof.
  induction l as [| f l IH]; [apply Permutation_refl |].
  cbn [insertByIndex]. destruct (indexOf (fst e) <=? indexOf (fst f))%N.
  - apply Permutation_refl.
  - apply (perm_trans (perm_skip f IH)). apply perm_swap.
Qed.

Lemma sortByIndex_Permutation (l : list (jsstring * value)) :
  Permutation (fold_right insertByIndex [] l) l.
Proof.
  induction l as [| e l IH]; [apply perm_nil |].
  cbn [fold_right].
  apply (perm_trans (insertByIndex_Permutation e _)). apply perm_skip, IH.
Qed.

Lemma filter_split_Permutation {A : Type} (f : A -> bool) (l : list A) :
  Permutation (filter f l ++ filter (fun x => negb (f x)) l) l.
Proof.
  induction l as [| x l IH]; [apply perm_nil |].
  cbn [filter]. destruct (f x); cbn [negb app].
  - apply perm_skip, IH.
  - apply Permutation_sym. apply Permutation_cons_app.
    apply Permutation_sym, IH.
Qed.

Lemma entries_Permutation (o : jsobject) : Permutation (entries o) o.
Proof.
  unfold entries.
  apply (perm_trans
           (Permutation_app_tail _ (sortByIndex_Permutation _))).
  apply (filter_split_Permutation (fun e => isArrayIndex (fst e))).
Qed.

Lemma NoDup_firstn {A : Type} (n : nat) (l : list A) :
  NoDup l -> NoDup (firstn n l).
Proof.
  intro H. rewrite <- (firstn_skipn n l) in H.
  exact (NoDup_app_remove_r _ _ H).
Qed.

(** X25: When no word of the text names something that objects inherit: no word
    is listed twice; each listed word is a word of the lower-cased text that
    is longer than [minLength], listed with the number of its occurrences;
    and when [maxWords] is at least the number of words of the text, every
    such word is listed. *)
Theorem analyzeWordFrequency_counts
  (text : jsstring) (minLength maxWords : Z) :
  forallb notInherited (wordsOf (toLowerCase text)) = true ->
  NoDup (map fst (analyzeWordFrequency text minLength maxWords))
  /\ (forall w v,
        In (w, v) (analyzeWordFrequency text minLength maxWords) ->
        In w (wordsOf (toLowerCase text))
        /\ (minLength < Z.of_nat (length w))%Z
        /\ v = VNum (occurrences w (wordsOf (toLowerCase text))))
  /\ ((Z.of_nat (length (wordsOf (toLowerCase text))) <= maxWords)%Z ->
      forall w,
        In w (wordsOf (toLowerCase text)) ->
        (minLength < Z.of_nat (length w))%Z ->
        In (w, VNum (occurrences w (wordsOf (toLowerCase text))))
          (analyzeWordFrequency text minLength maxWords)).
Proof.
  intro H. unfold analyzeWordFrequency.
  rewrite tokens_normalizeText, matchOrEmpty_WORD_REGEX.
  pose proof (CountInvariant_countWords minLength _ H) as [Hnd Hval].
  set (tokens := wordsOf (toLowerCase text)) in *.
  set (table := fold_left (countWord minLength) tokens []) in *.
  assert (Hperm : Permutation (sortByCount (entries table)) table)
    by (apply (perm_trans (sortByCount_Permutation _)), entries_Permutation).
  assert (Hsound : forall w v,
             In (w, v) table ->
             In w tokens /\ (minLength < Z.of_nat (length w))%Z
             /\ v = VNum (occurrences w tokens)).
  { intros w v Hin. pose proof (getOwn_In table w v Hnd Hin) as G.
    rewrite Hval in G.
    destruct (minLength <? Z.of_nat (length w))%Z eqn:E1; [| discriminate].
    destruct (0 <? occurrences w tokens) eqn:E2; [| discriminate].
    cbn [andb] in G. injection G as <-.
    apply Z.ltb_lt in E1. apply Nat.ltb_lt in E2.
    apply occurrences_In in E2. repeat split; assumption. }
  split; [| split].
  - unfold arraySlice. rewrite <- firstn_map. apply NoDup_firstn.
    apply (Permutation_NoDup (Permutation_sym (Permutation_map fst Hperm))).
    exact Hnd.
  - intros w v Hin. apply arraySlice_In in Hin.
    apply Hsound. exact (Permutation_in _ Hperm Hin).
  - intros Hmax w Hw Hlen.
    assert (Hsize : length (sortByCount (entries table)) <= length tokens).
    { rewrite (Permutation_length Hperm), <- (length_map fst table).
      apply NoDup_incl_length; [exact Hnd |].
      intros k Hk. apply in_map_iff in Hk. destruct Hk as ([k' v] & <- & Hin).
      exact (proj1 (Hsound k' v Hin)). }
    rewrite arraySlice_all by lia.
    apply (Permutation_in _ (Permutation_sym Hperm)).
    apply getOwn_Some. rewrite Hval.
    replace (minLength <? Z.of_nat (length w))%Z with true
      by (symmetry; apply Z.ltb_lt; exact Hlen).
    replace (0 <? occurrences w tokens) with true
      by (symmetry; apply Nat.ltb_lt, occurrences_In; exact Hw).
    reflexivity.
Qed.

Lemma analyzeWordFrequency_counts_witness :
  let text := str "The cat and the hat. THE END" in
  NoDup (map fst (analyzeWordFrequency text 2 10))
  /\ (forall w v,
        In (w, v) (analyzeWordFrequency text 2 10) ->
        In w (wordsOf (toLowerCase text))
        /\ (2 < Z.of_nat (length w))%Z
        /\ v = VNum (occurrences w (wordsOf (toLowerCase text))))
  /\ ((Z.of_nat (length (wordsOf (toLowerCase text))) <= 10)%Z ->
      forall w,
        In w (wordsOf (toLowerCase text)) ->
        (2 < Z.of_nat (length w))%Z ->
        In (w, VNum (occurrences w (wordsOf (toLowerCase text))))
          (analyzeWordFrequency text 2 10)).
Proof.
  cbv zeta.
  apply (analyzeWordFrequency_counts (str "The cat and the hat. THE END") 2 10).
  vm_compute. reflexivity.
Defined.

(* ------------------------------------------------------------------ *)
(** ** calculateBasicMetrics: sentences and words *)
(* ------------------------------------------------------------------ *)

Lemma splitGo_skip (r : regex) (k : nat) :
  forall s prev cur, k <= length s ->
    exists q,
      splitGo r prev k cur s
      = splitGo r q 0 (match k with 0 => cur | S _ => [] end) (skipn k s).
Proof.
  induction k as [| k IH]; intros s prev cur Hk.
  - exists prev. reflexivity.
  - destruct s as [| c s]; [cbn [length] in Hk; lia |].
    cbn [length] in Hk.
    destruct (IH s (Some c) [] ltac:(lia)) as (q & E).
    exists q. cbn [splitGo skipn]. rewrite E. destruct k; reflexivity.
Qed.

Section SplitRest.

Variable r : regex.
Variable mr : jsstring -> option jsstring.
Hypothesis ends_mr : forall prev s, firstRest (ends r (prev, s)) = mr s.
Hypothesis mr_suffix :
  forall s rest, mr s = Some rest -> exists pre, pre <> [] /\ s = pre ++ rest.
Hypothesis mr_words :
  forall c s rest,
    mr (c :: s) = Some rest ->
    isWord c = false /\ existsb isWord s = existsb isWord rest.

Lemma splitGo_hit (c : ascii) (s rest : jsstring) (prev : option ascii)
  (cur : jsstring) :
  mr (c :: s) = Some rest ->
  exists q, splitGo r prev 0 cur (c :: s) = cur :: splitGo r q 0 [] rest.
Proof.
  intro E. cbn [splitGo]. rewrite (matchAt_mr r mr ends_mr prev (c :: s)).
  unfold lengthFromRest. rewrite E. cbn [option_map].
  destruct (mr_suffix _ _ E) as (pre & Hpre & Hs).
  destruct pre as [| a pre]; [congruence |].
  injection Hs as -> ->.
  replace (length (a :: pre ++ rest) - length rest) with (S (length pre))
    by (cbn [length]; rewrite length_app; lia).
  destruct (splitGo_skip r (length pre) (pre ++ rest) (Some a) []
              ltac:(rewrite length_app; lia)) as (q & Eq).
  exists q. rewrite Eq. f_equal.
  rewrite <- (Nat.add_0_r (length pre)) at 2.
  rewrite skipn_app, Nat.add_0_r, skipn_all.
  replace (length pre - length pre) with 0 by lia.
  destruct (length pre); reflexivity.
Qed.

Lemma splitGo_miss (c : ascii) (s : jsstring) (prev : option ascii)
  (cur : jsstring) :
  mr (c :: s) = None ->
  splitGo r prev 0 cur (c :: s) = splitGo r (Some c) 0 (cur ++ [c]) s.
Proof.
  intro E. cbn [splitGo]. rewrite (matchAt_mr r mr ends_mr prev (c :: s)).
  unfold lengthFromRest. rewrite E. reflexivity.
Qed.

Lemma splitGo_piece (n : nat) :
  forall s prev cur,
    length s <= n ->
    cur <> [] \/ existsb isWord s = true ->
    filterBoolean (splitGo r prev 0 cur s) <> [].
Proof.
  induction n as [| n IH]; intros s prev cur Hlen H.
  - destruct s; [| cbn [length] in Hlen; lia].
    destruct H as [H | H]; [| discriminate].
    cbn [splitGo filterBoolean filter]. destruct cur; [congruence | discriminate].
  - destruct s as [| c s].
    + destruct H as [H | H]; [| discriminate].
      cbn [splitGo filterBoolean filter].
      destruct cur; [congruence | discriminate].
    + cbn [length] in Hlen. destruct (mr (c :: s)) as [rest |] eqn:E.
      * destruct (splitGo_hit c s rest prev cur E) as (q & Eq). rewrite Eq.
        cbn [filterBoolean filter].
        destruct cur as [| x cur]; [| discriminate].
        destruct H as [H | H]; [congruence |].
        destruct (mr_words c s rest E) as [Hc Hs].
        cbn [existsb] in H. rewrite Hc, Hs in H. cbn [orb] in H.
        apply IH; [| right; exact H].
        destruct (mr_suffix _ _ E) as (pre & Hpre & Hp).
        apply (f_equal (@Datatypes.length ascii)) in Hp.
        rewrite length_app in Hp. cbn [length] in Hp.
        destruct pre; [congruence | cbn [length] in Hp; lia].
      * rewrite (splitGo_miss c s prev cur E).
        apply IH; [lia |]. left. destruct cur; discriminate.
Qed.

End SplitRest.

Lemma ends_SENTENCE_END (prev : option ascii) (s : jsstring) :
  firstRest (ends SENTENCE_END (prev, s)) = sentenceEndRest s.
Proof.
  unfold SENTENCE_END, Plus. rewrite !ends_Seq, ends_Class.
  destruct s as [| c s]; [reflexivity |].
  cbn [sentenceEndRest]. destruct (oneOf ".!?" c); [| reflexivity].
  cbn [flat_map]. rewrite ends_Star, app_nil_r.
  destruct (starEnds_head (oneOf ".!?") s (Some c)) as (q & l & E).
  rewrite E. cbn [flat_map]. rewrite ends_Star.
  destruct (starEnds_head isSpace (dropWhile (oneOf ".!?") s) q)
    as (q' & l' & E').
  rewrite E'. reflexivity.
Qed.

Lemma sentenceEndRest_suffix (s rest : jsstring) :
  sentenceEndRest s = Some rest ->
  exists pre, pre <> [] /\ s = pre ++ rest.
Proof.
  destruct s as [| c s]; [discriminate |]. cbn [sentenceEndRest].
  destruct (oneOf ".!?" c); [| discriminate].
  intro H. injection H as <-.
  destruct (dropWhile_suffix (oneOf ".!?") s) as (m1 & E1).
  destruct (dropWhile_suffix isSpace (dropWhile (oneOf ".!?") s))
    as (m2 & E2).
  exists (c :: m1 ++ m2). split; [discriminate |].
  cbn [app]. rewrite <- app_assoc, <- E2, <- E1. reflexivity.
Qed.

Lemma sentence_end_not_isWord (c : ascii) :
  oneOf ".!?" c = true -> isWord c = false.
Proof. destruct c as [[] [] [] [] [] [] [] []]; vm_compute; congruence. Qed.

Lemma existsb_dropWhile (p : ascii -> bool) (s : jsstring) :
  (forall c, p c = true -> isWord c = false) ->
  existsb isWord (dropWhile p s) = existsb isWord s.
Proof.
  intro Hp. induction s as [| c s IH]; [reflexivity |].
  cbn [dropWhile]. destruct (p c) eqn:E; [| reflexivity].
  cbn [existsb]. rewrite (Hp c E), IH. reflexivity.
Qed.

Lemma sentenceEndRest_words (c : ascii) (s rest : jsstring) :
  sentenceEndRest (c :: s) = Some rest ->
  isWord c = false /\ existsb isWord s = existsb isWord rest.
Proof.
  cbn [sentenceEndRest]. destruct (oneOf ".!?" c) eqn:E; [| discriminate].
  intro H. injection H as <-. split; [exact (sentence_end_not_isWord c E) |].
  rewrite (existsb_dropWhile isSpace _ isSpace_not_isWord).
  rewrite (existsb_dropWhile (oneOf ".!?") _ sentence_end_not_isWord).
  reflexivity.
Qed.

Lemma wordsOf_no_word (s : jsstring) :
  existsb isWord s = false -> wordsOf s = [].
Proof.
  induction s as [| c s IH]; [reflexivity |].
  cbn [existsb]. intro H. apply orb_false_iff in H. destruct H as [Hc Hs].
  rewrite (wordsOf_other c s Hc). exact (IH Hs).
Qed.

(** X28: A text in which a word is found has a sentence: no sentence end takes a
    word character.  So, on the counts of one text, the guard of the three
    readability formulas holds exactly when no word is found. *)
Theorem calculateBasicMetrics_words_need_sentence (text : jsstring) :
  sentenceCount (calculateBasicMetrics text) = 0 ->
  wordCount (calculateBasicMetrics text) = 0.
Proof.
  unfold calculateBasicMetrics. cbn [sentenceCount wordCount].
  rewrite matchOrEmpty_WORD_REGEX, wordsOf_normalizeText,
    wordsOf_toLowerCase, length_map.
  intro H. destruct (existsb isWord text) eqn:E.
  - exfalso. destruct text as [| c s]; [discriminate |].
    unfold split in H.
    pose proof (splitGo_piece SENTENCE_END sentenceEndRest ends_SENTENCE_END
                  sentenceEndRest_suffix sentenceEndRest_words
                  (length (c :: s)) (c :: s) None [] (le_n _)
                  (or_intror E)) as P.
    destruct (filterBoolean (splitGo SENTENCE_END None 0 [] (c :: s)));
      [congruence | discriminate].
  - rewrite (wordsOf_no_word text E). reflexivity.
Qed.

Lemma calculateBasicMetrics_words_need_sentence_witness :
  wordCount (calculateBasicMetrics (str "?! ... !!")) = 0.
Proof.
  apply (calculateBasicMetrics_words_need_sentence (str "?! ... !!")).
  vm_compute. reflexivity.
Defined.

(* ------------------------------------------------------------------ *)
(** ** normalizeText: the shape of the result *)
(* ------------------------------------------------------------------ *)

(** X29: What [normalizeText] returns: no character that lower-casing would
    change; no white space other than single spaces, none of them at its
    ends; and of the characters [.,!?] only single full stops. *)
Theorem normalizeText_shape (text : jsstring) :
  toLowerCase (normalizeText text) = normalizeText text
  /\ normalRuns isSpace " " (normalizeText text) = true
  /\ trim (normalizeText text) = normalizeText text
  /\ normalRuns (oneOf ".,!?") "." (normalizeText text) = true.
Proof.
  split; [| split; [| split]].
  - exact (toLowerCase_fixed _ (normalizeText_chars text)).
  - exact (normalizeText_spaces text).
  - unfold normalizeText. apply trim_idempotent.
  - exact (normalizeText_punctuation text).
Qed.

Lemma forallb_dropWhile_sub (p f : ascii -> bool) (s : jsstring) :
  (forall c, p c = true -> f c = true) ->
  forallb f (dropWhile p s) = forallb f s.
Proof.
  intro Hp. induction s as [| c s IH]; [reflexivity |].
  cbn [dropWhile]. destruct (p c) eqn:E; [| reflexivity].
  cbn [forallb]. rewrite (Hp c E), IH. reflexivity.
Qed.

Lemma sentence_end_not_isSpace (c : ascii) :
  oneOf ".!?" c = true -> isSpace c = false.
Proof. destruct c as [[] [] [] [] [] [] [] []]; vm_compute; congruence. Qed.

Lemma onlySentenceEnds_hit (c : ascii) (s rest : jsstring) :
  sentenceEndRest (c :: s) = Some rest ->
  onlySentenceEnds (c :: s) = onlySentenceEnds rest.
Proof.
  cbn [sentenceEndRest]. destruct (oneOf ".!?" c) eqn:E; [| discriminate].
  intro H. injection H as <-. unfold onlySentenceEnds.
  rewrite startsIn_dropWhile. cbn [startsIn forallb negb andb].
  rewrite (sentence_end_not_isSpace c E), E. cbn [negb andb orb].
  rewrite (forallb_dropWhile_sub isSpace)
    by (intros x Hx; rewrite Hx; apply orb_true_r).
  rewrite (forallb_dropWhile_sub (oneOf ".!?"))
    by (intros x Hx; rewrite Hx; reflexivity).
  reflexivity.
Qed.

Lemma onlySentenceEnds_miss (c : ascii) (s : jsstring) :
  sentenceEndRest (c :: s) = None -> onlySentenceEnds (c :: s) = false.
Proof.
  cbn [sentenceEndRest]. destruct (oneOf ".!?" c) eqn:E; [discriminate |].
  intros _. unfold onlySentenceEnds. cbn [startsIn forallb]. rewrite E.
  destruct (isSpace c); reflexivity.
Qed.

Lemma splitGo_SENTENCE_END_empty (n : nat) :
  forall s prev cur,
    length s <= n ->
    filterBoolean (splitGo SENTENCE_END prev 0 cur s) = []
    <-> cur = [] /\ onlySentenceEnds s = true.
Proof.
  induction n as [| n IH]; intros s prev cur Hlen.
  - destruct s; [| cbn [length] in Hlen; lia].
    cbn [splitGo filterBoolean filter].
    destruct cur; split; try tauto; try discriminate.
    intros [H _]. discriminate.
  - destruct s as [| c s].
    + cbn [splitGo filterBoolean filter].
      destruct cur; split; try tauto; try discriminate.
      intros [H _]. discriminate.
    + cbn [length] in Hlen.
      destruct (sentenceEndRest (c :: s)) as [rest |] eqn:E.
      * destruct (splitGo_hit SENTENCE_END sentenceEndRest ends_SENTENCE_END
                    sentenceEndRest_suffix c s rest prev cur E) as (q & Eq).
        rewrite Eq, (onlySentenceEnds_hit c s rest E).
        cbn [filterBoolean filter].
        assert (Hrest : length rest <= n).
        { destruct (sentenceEndRest_suffix _ _ E) as (pre & Hpre & Hp).
          apply (f_equal (@Datatypes.length ascii)) in Hp.
          rewrite length_app in Hp. cbn [length] in Hp.
          destruct pre; [congruence | cbn [length] in Hp; lia]. }
        destruct cur as [| x cur].
        -- fold (filterBoolean (splitGo SENTENCE_END q 0 [] rest)).
           rewrite (IH rest q [] Hrest). tauto.
        -- split; [discriminate |]. intros [H _]. discriminate.
      * rewrite (splitGo_miss SENTENCE_END sentenceEndRest ends_SENTENCE_END
                   c s prev cur E).
        rewrite (onlySentenceEnds_miss c s E).
        rewrite (IH s (Some c) (cur ++ [c]) ltac:(lia)).
        split; [| intros [_ H]; discriminate].
        intros [H _]. destruct cur; discriminate.
Qed.

(** X30: No sentence is found in a text exactly when the text is made of
    sentence ends only: it does not start with white space, and each of its
    characters is one of [.!?] or white space.  (A text that is nothing but
    white space counts as one sentence.) *)
Theorem calculateBasicMetrics_no_sentence (text : jsstring) :
  sentenceCount (calculateBasicMetrics text) = 0
  <-> onlySentenceEnds text = true.
Proof.
  unfold calculateBasicMetrics. cbn [sentenceCount].
  rewrite length_zero_iff_nil.
  destruct text as [| c s]; [split; reflexivity |].
  unfold split.
  rewrite (splitGo_SENTENCE_END_empty (length (c :: s)) (c :: s) None []
             (le_n _)).
  tauto.
Qed.
